(** * scholar_watcher: the deduplication-and-delivery cycle

    A shallow embedding of [scholar_watcher.py]: the fingerprint of a
    search result, the two SQLite tables and the statements run against
    them, the Discord notifier, and the keyword loop of one cycle.

    Python values are modelled as follows.
    - [str] is a list of Unicode code points ([pystr]); [str.strip] and
      [str.encode("utf-8")] are written out on code points.
    - [hashlib.sha256] is written out after FIPS 180-4 on 32-bit words
      held in [N], every addition reduced modulo [2^32].
    - an exception is a value of [exn]; a call that may raise returns
      a [res].
    - the world outside the process (search provider, webhook, clock) is
      a family of oracles indexed by the number of calls made so far. *)

From Stdlib Require Import NArith String Ascii Lia DecimalString.
From stdpp Require Import base list numbers sorting.

Local Open Scope N_scope.

(** ** Python strings *)

Module PyStr.

(** A Python [str]: the sequence of its code points. *)
Definition pystr := list N.

(** The code points of an ASCII literal of the source. *)
Definition lit (s : string) : pystr :=
  List.map N_of_ascii (list_ascii_of_string s).

(** [str.isspace] on one character (CPython's [_PyUnicode_IsWhitespace]). *)
Definition isspace (c : N) : bool :=
  (9 <=? c) && (c <=? 13) || (28 <=? c) && (c <=? 32)
  || (c =? 0x85) || (c =? 0xA0) || (c =? 0x1680)
  || (0x2000 <=? c) && (c <=? 0x200A)
  || (c =? 0x2028) || (c =? 0x2029) || (c =? 0x202F)
  || (c =? 0x205F) || (c =? 0x3000).

Fixpoint lstrip (s : pystr) : pystr :=
  match s with
  | [] => []
  | c :: s' => if isspace c then lstrip s' else s
  end.

Definition rstrip (s : pystr) : pystr := rev (lstrip (rev s)).

(** [s.strip()] with no argument. *)
Definition strip (s : pystr) : pystr := rstrip (lstrip s).

(** [bool(s)] for a string: non-empty. *)
Definition truthy (s : pystr) : bool :=
  match s with [] => false | _ => true end.

(** [a or b] on strings. *)
Definition or_else (a b : pystr) : pystr := if truthy a then a else b.

(** [sep.join(parts)]. *)
Fixpoint join (sep : pystr) (parts : list pystr) : pystr :=
  match parts with
  | [] => []
  | [p] => p
  | p :: rest => p ++ sep ++ join sep rest
  end.

(** UTF-8 encoding of one code point; [None] is [UnicodeEncodeError]
    (a lone surrogate) or a value that is no code point at all. *)
Definition utf8_char (c : N) : option (list N) :=
  if c <? 0x80 then Some [c]
  else if c <? 0x800 then
    Some [N.lor 0xC0 (N.shiftr c 6); N.lor 0x80 (N.land c 0x3F)]
  else if c <? 0x10000 then
    if (0xD800 <=? c) && (c <=? 0xDFFF) then None
    else Some [N.lor 0xE0 (N.shiftr c 12);
               N.lor 0x80 (N.land (N.shiftr c 6) 0x3F);
               N.lor 0x80 (N.land c 0x3F)]
  else if c <? 0x110000 then
    Some [N.lor 0xF0 (N.shiftr c 18);
          N.lor 0x80 (N.land (N.shiftr c 12) 0x3F);
          N.lor 0x80 (N.land (N.shiftr c 6) 0x3F);
          N.lor 0x80 (N.land c 0x3F)]
  else None.

(** [s.encode("utf-8")]. *)
Fixpoint encode_utf8 (s : pystr) : option (list N) :=
  match s with
  | [] => Some []
  | c :: s' =>
      match utf8_char c, encode_utf8 s' with
      | Some bs, Some rest => Some (bs ++ rest)
      | _, _ => None
      end
  end.

(** A character [encode_utf8] accepts: a Unicode scalar value. *)
Definition scalar (c : N) : Prop :=
  c < 0x110000 ∧ ¬ (0xD800 <= c <= 0xDFFF).

End PyStr.
Export PyStr.

(** ** SHA-256 (FIPS 180-4), as computed by [hashlib.sha256] *)

Module Sha256.

Definition w32 (x : N) : N := x mod 2 ^ 32.
Definition add32 (x y : N) : N := w32 (x + y).
Definition rotr (n x : N) : N :=
  N.lor (N.shiftr x n) (w32 (N.shiftl x (32 - n))).
Definition not32 (x : N) : N := N.lxor x 0xFFFFFFFF.

Definition Ch (x y z : N) : N := N.lxor (N.land x y) (N.land (not32 x) z).
Definition Maj (x y z : N) : N :=
  N.lxor (N.land x y) (N.lxor (N.land x z) (N.land y z)).
Definition Sigma0 (x : N) : N :=
  N.lxor (rotr 2 x) (N.lxor (rotr 13 x) (rotr 22 x)).
Definition Sigma1 (x : N) : N :=
  N.lxor (rotr 6 x) (N.lxor (rotr 11 x) (rotr 25 x)).
Definition sigma0 (x : N) : N :=
  N.lxor (rotr 7 x) (N.lxor (rotr 18 x) (N.shiftr x 3)).
Definition sigma1 (x : N) : N :=
  N.lxor (rotr 17 x) (N.lxor (rotr 19 x) (N.shiftr x 10)).

(** The constants of the standard are the first 32 bits of the
    fractional parts of square and cube roots of the first primes; they
    are computed here from that description. *)
Definition is_prime (n : nat) : bool :=
  forallb (λ d, negb (n mod d =? 0)%nat) (seq 2 (n - 2)).

Definition primes : list N :=
  N.of_nat <$> List.filter is_prime (seq 2 310).

(** The largest [r] below [2^bits] with [r^k <= n]. *)
Fixpoint iroot (k n : N) (bits : nat) (r : N) : N :=
  match bits with
  | O => r
  | S b =>
      let r' := N.lor r (N.shiftl 1 (N.of_nat b)) in
      iroot k n b (if r' ^ k <=? n then r' else r)
  end.

Definition frac32 (k p : N) : N := w32 (iroot k (p * 2 ^ (32 * k)) 40 0).

Definition K : list N := Eval vm_compute in frac32 3 <$> primes.

(** The eight working words. *)
Record regs := Regs {
  ra : N; rb : N; rc : N; rd : N; re : N; rf : N; rg : N; rh : N
}.

Definition H0 : regs :=
  Eval vm_compute in
    match frac32 2 <$> primes with
    | a :: b :: c :: d :: e :: f :: g :: h :: _ => Regs a b c d e f g h
    | _ => Regs 0 0 0 0 0 0 0 0
    end.

(** Big-endian bytes of a 64-bit length and of one word. *)
Definition be_bytes (n : nat) (x : N) : list N :=
  List.map (fun i => N.land (N.shiftr x (8 * N.of_nat i)) 0xFF) (rev (seq 0 n)).

Fixpoint be_word (bs : list N) (acc : N) : N :=
  match bs with
  | [] => acc
  | b :: bs' => be_word bs' (N.lor (N.shiftl acc 8) b)
  end.

(** Padding: a 1 bit, zeros up to 56 modulo 64, the bit length. *)
Definition pad (msg : list N) : list N :=
  let len := N.of_nat (length msg) in
  let zeros := N.to_nat ((64 - (len + 9) mod 64) mod 64) in
  msg ++ [0x80] ++ repeat 0 zeros ++ be_bytes 8 (8 * len).

Fixpoint chunks (fuel size : nat) (l : list N) : list (list N) :=
  match fuel with
  | O => []
  | S fuel' =>
      match l with
      | [] => []
      | _ => take size l :: chunks fuel' size (drop size l)
      end
  end.

Definition words_of_block (block : list N) : list N :=
  List.map (fun bs => be_word bs 0) (chunks 16 4 block).

(** The message schedule, produced through a window of sixteen words. *)
Fixpoint schedule (n : nat) (win : list N) : list N :=
  match n with
  | O => []
  | S n' =>
      let w0 := nth 0 win 0 in
      let w := add32 (add32 (sigma1 (nth 14 win 0)) (nth 9 win 0))
                     (add32 (sigma0 (nth 1 win 0)) w0) in
      w0 :: schedule n' (tl win ++ [w])
  end.

Definition round (r : regs) (kw : N * N) : regs :=
  let t1 := add32 (add32 (add32 (rh r) (Sigma1 (re r)))
                         (add32 (Ch (re r) (rf r) (rg r)) (fst kw))) (snd kw) in
  let t2 := add32 (Sigma0 (ra r)) (Maj (ra r) (rb r) (rc r)) in
  Regs (add32 t1 t2) (ra r) (rb r) (rc r) (add32 (rd r) t1) (re r) (rf r) (rg r).

Definition compress (h : regs) (block : list N) : regs :=
  let w := schedule 64 (words_of_block block) in
  let r := fold_left round (combine K w) h in
  Regs (add32 (ra h) (ra r)) (add32 (rb h) (rb r))
       (add32 (rc h) (rc r)) (add32 (rd h) (rd r))
       (add32 (re h) (re r)) (add32 (rf h) (rf r))
       (add32 (rg h) (rg r)) (add32 (rh h) (rh r)).

Definition sha256 (msg : list N) : regs :=
  let p := pad msg in
  fold_left compress (chunks (length p) 64 p) H0.

(** Lower-case hexadecimal, as [hexdigest] prints it. *)
Definition hexdigit (d : N) : N := if d <? 10 then 48 + d else 87 + d.

Definition hex8 (w : N) : pystr :=
  [hexdigit (N.land (N.shiftr w 28) 15); hexdigit (N.land (N.shiftr w 24) 15);
   hexdigit (N.land (N.shiftr w 20) 15); hexdigit (N.land (N.shiftr w 16) 15);
   hexdigit (N.land (N.shiftr w 12) 15); hexdigit (N.land (N.shiftr w 8) 15);
   hexdigit (N.land (N.shiftr w 4) 15); hexdigit (N.land w 15)].

Definition hexdigest (r : regs) : pystr :=
  hex8 (ra r) ++ hex8 (rb r) ++ hex8 (rc r) ++ hex8 (rd r) ++
  hex8 (re r) ++ hex8 (rf r) ++ hex8 (rg r) ++ hex8 (rh r).

Definition sha256_hex (msg : list N) : pystr := hexdigest (sha256 msg).

End Sha256.

(** ** Utilities: the fingerprint (source lines 128-130) *)

(** [f"{title.strip()}|{authors.strip()}|{year.strip()}|{url.strip()}"] *)
Definition fingerprint_base (title authors year url : pystr) : pystr :=
  strip title ++ lit "|" ++ strip authors ++ lit "|" ++
  strip year ++ lit "|" ++ strip url.

(** [_fingerprint]; [None] when [base.encode("utf-8")] raises. *)
Definition _fingerprint (title authors year url : pystr) : option pystr :=
  match encode_utf8 (fingerprint_base title authors year url) with
  | Some bytes => Some (Sha256.sha256_hex bytes)
  | None => None
  end.

(** ** Exceptions and results *)

Inductive exn :=
| RuntimeError (msg : pystr)   (* raised by [send_to_discord] itself *)
| HTTPError (status : N)       (* [requests.HTTPError], from [raise_for_status] *)
| RequestException             (* [requests.post] could not deliver: connection, timeout *)
| IntegrityError               (* [sqlite3.IntegrityError] *)
| UnicodeEncodeError           (* [str.encode] on a lone surrogate *)
| OtherError (name : pystr).   (* any other [Exception] of a collaborator *)

Inductive res (A : Type) :=
| Ok (a : A)
| Raise (e : exn).
Arguments Ok {A} a.
Arguments Raise {A} e.

Global Instance exn_eq_dec : EqDecision exn.
Proof. solve_decision. Defined.

(** [isinstance(e, requests.HTTPError)] and [isinstance(e, sqlite3.IntegrityError)]. *)
Definition is_HTTPError (e : exn) : bool :=
  match e with HTTPError _ => true | _ => false end.
Definition is_IntegrityError (e : exn) : bool :=
  match e with IntegrityError => true | _ => false end.

(** ** The SQLite database (source lines 94-123)

    Two tables, each a list of rows in insertion order, and the two
    AUTOINCREMENT counters. The UNIQUE constraints are enforced by the
    INSERT statements below, as SQLite does. The context manager [db]
    commits in its [finally], also when its block raises, so the effect
    of every statement is kept: the statements act on the tables
    directly. *)

Record keyword_row := KeywordRow {
  id : N;
  term : pystr;
  created_at : pystr
}.

Record seen_row := SeenRow {
  seen_id : N;
  kw_term : pystr;
  fingerprint : pystr;
  title : pystr;
  url : pystr;
  authors : pystr;
  year : pystr;
  first_seen : pystr
}.

Record database := Database {
  keywords : list keyword_row;
  keywords_seq : N;
  seen_papers : list seen_row;
  seen_papers_seq : N
}.

(** The database [init_db] creates on a fresh file; on an existing file
    every statement of [init_db] is [IF NOT EXISTS] and changes nothing. *)
Definition init_db : database := Database [] 0 [] 0.

(** A candidate returned by [fetch_scholar_results]: the dict with keys
    title, url, authors, year. *)
Record paper := Paper {
  p_title : pystr;
  p_url : pystr;
  p_authors : pystr;
  p_year : pystr
}.

(** [_fingerprint(p["title"], p["authors"], p["year"], p["url"])] *)
Definition fp_of (p : paper) : option pystr :=
  _fingerprint (p_title p) (p_authors p) (p_year p) (p_url p).

Definition same_pair (kw fp : pystr) (r : seen_row) : Prop :=
  kw_term r = kw ∧ fingerprint r = fp.

Global Instance same_pair_dec kw fp r : Decision (same_pair kw fp r).
Proof. unfold same_pair. apply _. Defined.

(** A row for (kw_term, fingerprint) is stored. *)
Definition has_seen (kw fp : pystr) (db : database) : Prop :=
  Exists (same_pair kw fp) (seen_papers db).

Global Instance has_seen_dec kw fp db : Decision (has_seen kw fp db).
Proof. unfold has_seen. apply _. Defined.

(** [INSERT INTO seen_papers (kw_term, fingerprint, title, url, authors,
    year, first_seen) VALUES (?, ?, ?, ?, ?, ?, ?)]: fails on
    UNIQUE(kw_term, fingerprint) and then changes nothing. *)
Definition insert_seen_papers (kw fp : pystr) (p : paper) (now : pystr)
    (db : database) : res database :=
  if decide (has_seen kw fp db) then Raise IntegrityError
  else
    let rid := seen_papers_seq db + 1 in
    Ok (Database (keywords db) (keywords_seq db)
          (seen_papers db ++
             [SeenRow rid kw fp (p_title p) (p_url p) (p_authors p) (p_year p) now])
          rid).

(** [DELETE FROM seen_papers WHERE kw_term=? AND fingerprint=?] *)
Definition delete_seen_pair (kw fp : pystr) (db : database) : database :=
  Database (keywords db) (keywords_seq db)
    (filter (λ r, ¬ same_pair kw fp r) (seen_papers db))
    (seen_papers_seq db).

(** [DELETE FROM seen_papers WHERE kw_term=?] *)
Definition delete_seen_term (t : pystr) (db : database) : database :=
  Database (keywords db) (keywords_seq db)
    (filter (λ r, kw_term r ≠ t) (seen_papers db))
    (seen_papers_seq db).

(** [INSERT INTO keywords (term, created_at) VALUES (?, ?)]: fails on
    UNIQUE(term). *)
Definition insert_keywords (t now : pystr) (db : database) : res database :=
  if decide (Exists (λ r, term r = t) (keywords db)) then Raise IntegrityError
  else
    let kid := keywords_seq db + 1 in
    Ok (Database (keywords db ++ [KeywordRow kid t now]) kid
          (seen_papers db) (seen_papers_seq db)).

(** [SELECT term FROM keywords WHERE id=?] followed by [fetchone()]. *)
Definition select_term_by_id (kid : N) (db : database) : option pystr :=
  term <$> head (filter (λ r, id r = kid) (keywords db)).

(** [DELETE FROM keywords WHERE id=?] *)
Definition delete_keywords_id (kid : N) (db : database) : database :=
  Database (filter (λ r, id r ≠ kid) (keywords db)) (keywords_seq db)
    (seen_papers db) (seen_papers_seq db).

(** SQLite's BINARY collation on TEXT: lexicographic, a proper prefix first. *)
Fixpoint pystr_leb (a b : pystr) : bool :=
  match a, b with
  | [], _ => true
  | _ :: _, [] => false
  | x :: a', y :: b' => (x <? y) || (x =? y) && pystr_leb a' b'
  end.

Definition pystr_le (a b : pystr) : Prop := pystr_leb a b = true.

Global Instance pystr_le_dec : RelDecision pystr_le.
Proof. intros a b. unfold pystr_le. apply _. Defined.

(** [SELECT term FROM keywords ORDER BY term ASC] *)
Definition select_terms (db : database) : list pystr :=
  merge_sort pystr_le (term <$> keywords db).

(** ** The world: database and the calls made to collaborators *)

(** What [requests.post] does: a response with a status code, or no
    response at all. *)
Inductive post_outcome :=
| Response (status : N)
| ConnectionFailed.

(** A line written by [print] (the timestamp prefix is left out). *)
Inductive log_line :=
| LogHTTPError (t : pystr) (e : exn)   (* HTTP error for '{term}': {e} *)
| LogError (t : pystr) (e : exn)       (* Error processing '{term}': {e} *)
| LogNewPapers (n : nat).              (* New papers this cycle: {total_new} *)

(** The calls a cycle makes, in the order it makes them. *)
Inductive event :=
| EvSearch (keyword : pystr)                    (* scholarly.search_pubs *)
| EvInsert (kw fp : pystr) (ok : bool)          (* INSERT INTO seen_papers *)
| EvDelete (kw fp : pystr)                      (* DELETE FROM seen_papers, one pair *)
| EvPost (endpoint content : pystr) (r : post_outcome)  (* requests.post *)
| EvSleep                                       (* time.sleep(1.0) *)
| EvPrint (l : log_line).

Record world := World {
  store : database;
  trace : list event
}.

(** The generator returned by [scholarly.search_pubs], as far as [next]
    is called on it: publications, then StopIteration or an exception. *)
Record bib := Bib {
  bib_title : option pystr;
  bib_url : option pystr;
  bib_author : option (list pystr);
  bib_year : option pystr
}.

Inductive pubstream :=
| StopIteration
| NextRaises (e : exn)
| NextPub (pub : bib) (rest : pubstream).

(** Computations that read and change the world and may raise. *)
Definition M (A : Type) : Type := world → res A * world.

Global Instance M_ret : MRet M := λ A a w, (Ok a, w).
Global Instance M_bind : MBind M := λ A B f m w,
  match m w with
  | (Ok a, w') => f a w'
  | (Raise e, w') => (Raise e, w')
  end.

Definition raise {A} (e : exn) : M A := λ w, (Raise e, w).

(** [try: body except ...: handler]; the handler returns [None] for an
    exception its clause does not match. *)
Definition try_except {A} (body : M A) (handler : exn → option (M A)) : M A :=
  λ w, match body w with
       | (Ok a, w') => (Ok a, w')
       | (Raise e, w') =>
           match handler e with
           | Some h => h w'
           | None => (Raise e, w')
           end
       end.

Definition emit (ev : event) : M unit :=
  λ w, (Ok (), World (store w) (trace w ++ [ev])).

Definition get_store : M database := λ w, (Ok (store w), w).
Definition put_store (db : database) : M unit :=
  λ w, (Ok (), World db (trace w)).

(** The number of calls made so far: the index at which the oracles of
    the outside world are read. *)
Definition ticks : M nat := λ w, (Ok (length (trace w)), w).

Section Watcher.

(** Configuration read from the environment at import time. *)
Variable DISCORD_WEBHOOK_URL : pystr.
Variable PER_KEYWORD_LIMIT : Z.

(** The outside world. *)
Variable search_pubs : nat → pystr → res pubstream.
Variable requests_post : nat → pystr → pystr → post_outcome.
Variable utcnow_iso : nat → pystr.

(** *** Scholar (source lines 135-149) *)

Definition paper_of_pub (pub : bib) : paper :=
  Paper (default [] (bib_title pub))
        (default [] (bib_url pub))
        (join (lit ", ") (default [] (bib_author pub)))
        (default [] (bib_year pub)).

(** The loop [for _ in range(num)] over [next(search)]. *)
Fixpoint take_pubs (n : nat) (search : pubstream) (results : list paper)
    : res (list paper) :=
  match n with
  | O => Ok results
  | S n' =>
      match search with
      | StopIteration => Ok results
      | NextRaises e => Raise e
      | NextPub pub rest => take_pubs n' rest (results ++ [paper_of_pub pub])
      end
  end.

Definition fetch_scholar_results (keyword : pystr) (num : Z) : M (list paper) :=
  t ← ticks;
  _ ← emit (EvSearch keyword);
  match search_pubs t keyword with
  | Raise e => raise e
  | Ok search =>
      match take_pubs (Z.to_nat num) search [] with
      | Ok results => mret results
      | Raise e => raise e
      end
  end.

(** *** Discord (source lines 155-174) *)

Definition nl : pystr := [10].

Definition discord_content (keyword : pystr) (p : paper) : pystr :=
  let title := or_else (p_title p) (lit "Untitled") in
  let url := or_else (p_url p) [] in
  let authors := or_else (p_authors p) (lit "Unknown authors") in
  let year := or_else (p_year p) (lit "Year n/a") in
  lit "**New paper found** for **" ++ keyword ++ lit "**" ++ nl ++
  lit "**" ++ title ++ lit "** (" ++ year ++ lit ")" ++ nl ++
  lit "*" ++ authors ++ lit "*" ++ nl ++
  url.

(** [r.raise_for_status()] *)
Definition raise_for_status (r : post_outcome) : M unit :=
  match r with
  | ConnectionFailed => raise RequestException
  | Response status =>
      if (400 <=? status) && (status <? 600) then raise (HTTPError status)
      else mret ()
  end.

Definition send_to_discord (keyword : pystr) (p : paper) : M unit :=
  if negb (truthy DISCORD_WEBHOOK_URL) then
    raise (RuntimeError (lit "DISCORD_WEBHOOK_URL missing; set it in .env"))
  else
    let content := discord_content keyword p in
    t ← ticks;
    let r := requests_post t DISCORD_WEBHOOK_URL content in
    _ ← emit (EvPost DISCORD_WEBHOOK_URL content r);
    raise_for_status r.

(** *** Core watcher (source lines 179-230) *)

(** [conn.execute("INSERT INTO seen_papers ...")] *)
Definition execute_insert (keyword fp : pystr) (p : paper) : M unit :=
  t ← ticks;
  db ← get_store;
  match insert_seen_papers keyword fp p (utcnow_iso t) db with
  | Ok db' => _ ← emit (EvInsert keyword fp true); put_store db'
  | Raise e => _ ← emit (EvInsert keyword fp false); raise e
  end.

(** [conn.execute("DELETE FROM seen_papers WHERE kw_term=? AND fingerprint=?")] *)
Definition execute_delete (keyword fp : pystr) : M unit :=
  db ← get_store;
  _ ← emit (EvDelete keyword fp);
  put_store (delete_seen_pair keyword fp db).

(** The fingerprint of a candidate, or the exception of [encode]. *)
Definition fingerprint_of (p : paper) : M pystr :=
  match fp_of p with
  | Some fp => mret fp
  | None => raise UnicodeEncodeError
  end.

(** The body of the [for p in rows] loop: the outer [try] with its
    [except sqlite3.IntegrityError: pass]; returns the new [new_count]. *)
Definition process_row (keyword : pystr) (p : paper) (new_count : nat) : M nat :=
  fp ← fingerprint_of p;
  try_except
    (_ ← execute_insert keyword fp p;
     _ ← try_except (send_to_discord keyword p)
           (λ notify_err,
              Some (_ ← execute_delete keyword fp; raise notify_err));
     mret (new_count + 1)%nat)
    (λ e, if is_IntegrityError e then Some (mret new_count) else None).

Fixpoint process_rows (keyword : pystr) (rows : list paper) (new_count : nat)
    : M nat :=
  match rows with
  | [] => mret new_count
  | p :: rows' =>
      n ← process_row keyword p new_count;
      process_rows keyword rows' n
  end.

Definition process_keyword (keyword : pystr) : M nat :=
  rows ← fetch_scholar_results keyword PER_KEYWORD_LIMIT;
  process_rows keyword rows 0%nat.

(** The two [except] clauses of [run_cycle]: [requests.HTTPError]
    first, then [Exception]. *)
Definition error_line (t : pystr) (e : exn) : log_line :=
  if is_HTTPError e then LogHTTPError t e else LogError t e.

(** The [for term in terms] loop of [run_cycle]. *)
Fixpoint run_terms (terms : list pystr) (total_new : nat) : M nat :=
  match terms with
  | [] => mret total_new
  | t :: terms' =>
      n ← try_except
            (k ← process_keyword t;
             _ ← emit EvSleep;
             mret (total_new + k)%nat)
            (λ e, Some (_ ← emit (EvPrint (error_line t e));
                        mret total_new));
      run_terms terms' n
  end.

Definition run_cycle : M nat :=
  db ← get_store;
  total_new ← run_terms (select_terms db) 0%nat;
  _ ← (if (0 <? total_new)%nat then emit (EvPrint (LogNewPapers total_new))
       else mret ());
  mret total_new.

(** *** Control surface (source lines 332-356) *)

Definition add_keyword (t : pystr) : M unit :=
  let t := strip t in
  if truthy t then
    n ← ticks;
    db ← get_store;
    match insert_keywords t (utcnow_iso n) db with
    | Ok db' => put_store db'
    | Raise e => if is_IntegrityError e then mret () else raise e
    end
  else mret ().

Definition delete_keyword (kid : N) : M unit :=
  db ← get_store;
  match select_term_by_id kid db with
  | Some t => put_store (delete_seen_term t (delete_keywords_id kid db))
  | None => mret ()
  end.

End Watcher.

(** ** The fingerprint the spec describes

    The four fields trimmed, joined with "|" in the order title,
    authors, year, url, encoded in UTF-8, hashed with SHA-256 and
    printed in hexadecimal. *)
Definition spec_fingerprint (title authors year url : pystr) : option pystr :=
  Sha256.sha256_hex <$>
    encode_utf8 (join (lit "|") (strip <$> [title; authors; year; url])).

(** A lower-case hexadecimal digit. *)
Definition is_hex (c : N) : Prop := 48 <= c <= 57 ∨ 97 <= c <= 102.

(** ** The Result Store contract, read off the statements

    The INSERT of [process_keyword] with its [except
    sqlite3.IntegrityError] is the store's claim; the DELETE of the
    rollback is its release. *)

Inductive claim_result := Claimed | AlreadySeen.

Definition claim (kw fp : pystr) (p : paper) (now : pystr) (db : database)
    : claim_result * database :=
  match insert_seen_papers kw fp p now db with
  | Ok db' => (Claimed, db')
  | Raise _ => (AlreadySeen, db)
  end.

Definition release (kw fp : pystr) (db : database) : database :=
  delete_seen_pair kw fp db.

(** A run of claims on one pair, each with its own fields and timestamp. *)
Fixpoint run_claims (kw fp : pystr) (payloads : list (paper * pystr))
    (db : database) : list claim_result * database :=
  match payloads with
  | [] => ([], db)
  | (p, now) :: rest =>
      let '(r, db1) := claim kw fp p now db in
      let '(rs, db2) := run_claims kw fp rest db1 in
      (r :: rs, db2)
  end.

(** Claims and releases of any pairs, in any order; the run returns the
    pairs for which a claim returned [Claimed], in order. *)
Inductive store_op :=
| OpClaim (kw fp : pystr) (p : paper) (now : pystr)
| OpRelease (kw fp : pystr).

Definition releases (kw fp : pystr) (op : store_op) : Prop :=
  match op with
  | OpRelease k f => k = kw ∧ f = fp
  | OpClaim _ _ _ _ => False
  end.

Definition claims (kw fp : pystr) (op : store_op) : Prop :=
  match op with
  | OpClaim k f _ _ => k = kw ∧ f = fp
  | OpRelease _ _ => False
  end.

Fixpoint run_ops (ops : list store_op) (db : database)
    : list (pystr * pystr) * database :=
  match ops with
  | [] => ([], db)
  | OpClaim kw fp p now :: rest =>
      let '(r, db1) := claim kw fp p now db in
      let '(won, db2) := run_ops rest db1 in
      (match r with Claimed => (kw, fp) :: won | AlreadySeen => won end, db2)
  | OpRelease kw fp :: rest => run_ops rest (release kw fp db)
  end.

(** How often a claim of the pair returned [Claimed]. *)
Definition times_claimed (kw fp : pystr) (won : list (pystr * pystr)) : nat :=
  length (filter (λ k, k = (kw, fp)) won).

(** The rows stored for a pair. *)
Definition rows_of (kw fp : pystr) (db : database) : list seen_row :=
  filter (same_pair kw fp) (seen_papers db).

(** ** Invariants of the tables *)

Definition seen_key (r : seen_row) : pystr * pystr := (kw_term r, fingerprint r).

(** UNIQUE(kw_term, fingerprint) *)
Definition seen_unique (db : database) : Prop :=
  NoDup (seen_key <$> seen_papers db).

(** UNIQUE(term) *)
Definition keywords_unique (db : database) : Prop :=
  NoDup (term <$> keywords db).

(** ** Reading a trace *)

(** [send_to_discord] returned normally on this response. *)
Definition post_ok (r : post_outcome) : bool :=
  match r with
  | Response status => negb ((400 <=? status) && (status <? 600))
  | ConnectionFailed => false
  end.

(** The number of notifications delivered. *)
Fixpoint delivered (evs : list event) : nat :=
  match evs with
  | [] => 0
  | EvPost _ _ r :: evs' => (if post_ok r then 1 else 0) + delivered evs'
  | _ :: evs' => delivered evs'
  end.

Definition is_error_line (l : log_line) : bool :=
  match l with
  | LogHTTPError _ _ | LogError _ _ => true
  | LogNewPapers _ => false
  end.

(** The notifications delivered for keywords whose processing ran to
    its end: [pending] counts the deliveries of the keyword in progress,
    which are kept at its [time.sleep] and dropped at its error line. *)
Fixpoint delivered_completed (evs : list event) (pending : nat) : nat :=
  match evs with
  | [] => 0
  | EvPost _ _ r :: evs' =>
      delivered_completed evs' (if post_ok r then S pending else pending)
  | EvSleep :: evs' => pending + delivered_completed evs' 0
  | EvPrint l :: evs' =>
      delivered_completed evs' (if is_error_line l then 0 else pending)
  | _ :: evs' => delivered_completed evs' pending
  end%nat.

(** The keywords searched, in order. *)
Fixpoint searched (evs : list event) : list pystr :=
  match evs with
  | [] => []
  | EvSearch kw :: evs' => kw :: searched evs'
  | _ :: evs' => searched evs'
  end.

(** The keywords for which an error line was printed. *)
Fixpoint failed_terms (evs : list event) : list pystr :=
  match evs with
  | [] => []
  | EvPrint (LogHTTPError t _) :: evs' => t :: failed_terms evs'
  | EvPrint (LogError t _) :: evs' => t :: failed_terms evs'
  | _ :: evs' => failed_terms evs'
  end.


(** A call of [requests.post]. *)
Definition post_event (ev : event) : Prop :=
  match ev with EvPost _ _ _ => True | _ => False end.

(** An event of the candidate loop of keyword [kw]. *)
Definition row_event (kw : pystr) (ev : event) : Prop :=
  match ev with
  | EvInsert k _ _ | EvDelete k _ => k = kw
  | EvPost _ _ _ => True
  | EvSearch _ | EvSleep | EvPrint _ => False
  end.

(** What every run of the candidate loop of [kw] from [w] to [w'] with
    new events [evs] satisfies: the trace grows, the keywords table and
    the rows of other keywords stay, uniqueness is kept, and the table
    grows by one row per delivery. *)
Definition keyword_step (kw : pystr) (w w' : world) (evs : list event) : Prop :=
  trace w' = trace w ++ evs ∧
  Forall (row_event kw) evs ∧
  keywords (store w') = keywords (store w) ∧
  (seen_unique (store w) → seen_unique (store w')) ∧
  (∀ kw' fp', kw' ≠ kw →
     has_seen kw' fp' (store w') ↔ has_seen kw' fp' (store w)) ∧
  length (seen_papers (store w')) =
    (length (seen_papers (store w)) + delivered evs)%nat.

(** What every run of the keyword loop over [ts] satisfies. *)
Definition cycle_step (ts : list pystr) (w w' : world) (evs : list event) : Prop :=
  trace w' = trace w ++ evs ∧
  searched evs = ts ∧
  keywords (store w') = keywords (store w) ∧
  (seen_unique (store w) → seen_unique (store w')) ∧
  (∀ kw fp, kw ∉ ts → has_seen kw fp (store w') ↔ has_seen kw fp (store w)) ∧
  length (seen_papers (store w')) =
    (length (seen_papers (store w)) + delivered evs)%nat ∧
  (NoDup ts → ∀ k f, EvDelete k f ∈ evs → ¬ has_seen k f (store w')).

(** ** A concrete run

    Three keywords: the provider fails for [bad]; for [gnn] the webhook
    accepts the first candidate and answers 500 to the second, the
    third is never reached; for [zeta] all three are delivered. *)

Module Scenario.

Definition hook : pystr := lit "https://discord.example/api/webhooks/1/token".

Definition pubA : bib :=
  Bib (Some (lit "Paper A")) (Some (lit "http://a"))
      (Some [lit "X"; lit "Y"]) (Some (lit "2024")).
Definition pubB : bib := Bib (Some (lit "Paper B")) None None None.
Definition pubC : bib :=
  Bib (Some (lit "Paper C")) (Some (lit "http://c")) (Some [lit "Z"]) None.

Definition paperA : paper :=
  Paper (lit "Paper A") (lit "http://a") (lit "X, Y") (lit "2024").
Definition paperB : paper := Paper (lit "Paper B") [] [] [].
Definition paperC : paper := Paper (lit "Paper C") (lit "http://c") (lit "Z") [].

Definition bad : pystr := lit "bad".
Definition gnn : pystr := lit "gnn".
Definition zeta : pystr := lit "zeta".

Definition search (t : nat) (kw : pystr) : res pubstream :=
  if bool_decide (kw = bad) then Raise (OtherError (lit "MaxTriesExceededException"))
  else Ok (NextPub pubA (NextPub pubB (NextPub pubC StopIteration))).

Definition post (t : nat) (endpoint content : pystr) : post_outcome :=
  if bool_decide (content = discord_content gnn paperB) then Response 500
  else Response 204.

Definition clock (t : nat) : pystr := lit "2026-01-01T00:00:00+00:00".

Definition limit : Z := 10.

(** The world after the three keywords were added to a fresh database. *)
Definition w0 : world := World init_db [].
Definition w3 : world :=
  (add_keyword clock zeta
     (add_keyword clock (lit "  gnn ")
        (add_keyword clock bad w0).2).2).2.

(** The world with the keyword [gnn] alone. *)
Definition w1 : world := (add_keyword clock gnn w0).2.

(** The cycle on [w3] once [bad] has failed: [gnn] is searched, its
    first candidate is processed, the second is claimed and its
    notification raises. *)
Definition w_bad : world :=
  World (store w3) [EvSearch bad; EvPrint (error_line bad (OtherError (lit "MaxTriesExceededException")))].
Definition w_gnn : world :=
  (fetch_scholar_results search gnn limit w_bad).2.
Definition w_gnnA : world :=
  (process_rows hook post clock gnn [paperA] 0%nat w_gnn).2.
Definition fpB : pystr := Eval vm_compute in default [] (fp_of paperB).
Definition dbB : database :=
  (claim gnn fpB paperB (clock (length (trace w_gnnA))) (store w_gnnA)).2.
Definition w_gnnB : world :=
  (send_to_discord hook post gnn paperB
     (World dbB (trace w_gnnA ++ [EvInsert gnn fpB true]))).2.


(** The scenario of the spec: the keyword [zeta] alone; a first cycle,
    a second cycle, the keyword deleted and added again, a third cycle. *)
Definition cycle_of (w : world) : res nat * world :=
  run_cycle hook limit search post clock w.
Definition z0 : world := (add_keyword clock zeta w0).2.
Definition z1 : world := (cycle_of z0).2.
Definition z2 : world := (cycle_of z1).2.
Definition z3 : world := (delete_keyword 1 z2).2.
Definition z4 : world := (add_keyword clock zeta z3).2.
Definition z5 : world := (cycle_of z4).2.

End Scenario.

(** Unfolding the operations of [M]. *)
Ltac munfold :=
  unfold mbind, M_bind, mret, M_ret, raise, try_except, emit, ticks,
    get_store, put_store in *.

(** ** Configuration (source lines 67-71) *)

(** [s.split(sep)] for a separator of one character: never an empty
    list, one more part than there are separators. *)
Fixpoint split_on (sep : N) (s : pystr) : list pystr :=
  match s with
  | [] => [[]]
  | c :: s' =>
      if c =? sep then [] :: split_on sep s'
      else match split_on sep s' with
           | [] => [[c]]
           | part :: parts => (c :: part) :: parts
           end
  end.

Definition comma : N := 44.

(** [DEFAULT_KEYWORDS], computed from the value of the variable
    [KEYWORDS]: [[kw.strip() for kw in KEYWORDS.split(",") if kw.strip()]],
    or the empty list when the variable is empty. *)
Definition default_keywords (KEYWORDS : pystr) : list pystr :=
  if truthy KEYWORDS
  then filter (λ kw, truthy kw = true) (strip <$> split_on comma KEYWORDS)
  else [].

(** ** Parameter binding

    [conn.execute(sql, params)] binds each parameter before the
    statement runs, and sqlite3 raises when a value has no SQLite form. *)

(** An [int] that fits SQLite's signed 64-bit INTEGER. *)
Definition int64 (n : Z) : Prop := (- 2 ^ 63 <= n < 2 ^ 63)%Z.

Global Instance scalar_dec c : Decision (scalar c).
Proof. unfold scalar. apply _. Defined.

Global Instance int64_dec n : Decision (int64 n).
Proof. unfold int64. apply _. Defined.

(** [OverflowError], an exception of Python itself. *)
Definition OverflowError : exn := OtherError (lit "OverflowError").

(** Binding a [str]: it is passed as UTF-8, so a string that
    [encode("utf-8")] refuses (a lone surrogate) raises
    UnicodeEncodeError. *)
Definition bind_text (s : pystr) : res unit :=
  match encode_utf8 s with
  | Some _ => Ok ()
  | None => Raise UnicodeEncodeError
  end.

(** Binding an [int]: OverflowError unless it fits SQLite's signed
    64-bit INTEGER. *)
Definition bind_int (n : Z) : res unit :=
  if ((- 2 ^ 63 <=? n) && (n <? 2 ^ 63))%Z then Ok ()
  else Raise OverflowError.

(** A result as a computation that leaves the world alone. *)
Definition of_res {A} (r : res A) : M A :=
  match r with
  | Ok a => mret a
  | Raise e => raise e
  end.

(** ** Startup and the two POST handlers (source lines 332-356, 463-473)

    The part of [on_startup] that writes the database: the loop that
    inserts the default keywords, each INSERT in its own [try] with
    [except sqlite3.IntegrityError: pass]. The calls that hand
    [run_cycle] to the scheduler are not part of this model.

    [Endpoint.add_keyword] and [Endpoint.delete_keyword] are the two
    handlers as Python functions, called with any [str] and any [int]:
    they add the parameter binding to [add_keyword] and
    [delete_keyword] above, which are the handlers on parameters that
    bind. *)
Section Startup.

Variable utcnow_iso : nat → pystr.

(** [conn.execute("INSERT INTO keywords (term, created_at) VALUES (?, ?)",
    (kw, datetime.now(timezone.utc).isoformat()))]; the timestamp is
    ASCII and always binds. *)
Definition execute_insert_keyword (kw : pystr) : M unit :=
  n ← ticks;
  _ ← of_res (bind_text kw);
  db ← get_store;
  match insert_keywords kw (utcnow_iso n) db with
  | Ok db' => put_store db'
  | Raise e => raise e
  end.

Fixpoint preload_loop (kws : list pystr) : M unit :=
  match kws with
  | [] => mret ()
  | kw :: kws' =>
      _ ← try_except (execute_insert_keyword kw)
            (λ e, if is_IntegrityError e then Some (mret ()) else None);
      preload_loop kws'
  end.

Definition on_startup_keywords (DEFAULT_KEYWORDS : list pystr) : M unit :=
  match DEFAULT_KEYWORDS with
  | [] => mret ()
  | _ => preload_loop DEFAULT_KEYWORDS
  end.

End Startup.

Module Endpoint.

Section Handlers.

Variable utcnow_iso : nat → pystr.

(** [add_keyword] (source lines 333-344) *)
Definition add_keyword (term : pystr) : M unit :=
  let term := strip term in
  if truthy term then
    try_except (execute_insert_keyword utcnow_iso term)
      (λ e, if is_IntegrityError e then Some (mret ()) else None)
  else mret ().

(** [SELECT term FROM keywords WHERE id=?] for an [int]: the ids of the
    table are positive. *)
Definition select_term_by_int (kid : Z) (db : database) : option pystr :=
  if (0 <=? kid)%Z then select_term_by_id (Z.to_N kid) db else None.

(** [delete_keyword] (source lines 348-356); the term of the second
    DELETE was read from the table and binds. *)
Definition delete_keyword (kid : Z) : M unit :=
  _ ← of_res (bind_int kid);
  db ← get_store;
  match select_term_by_int kid db with
  | Some t =>
      put_store (delete_seen_term t (delete_keywords_id (Z.to_N kid) db))
  | None => mret ()
  end.

End Handlers.

End Endpoint.

(** ** Invariants of the keywords table *)

(** Every stored term is non-empty and carries no outer whitespace. *)
Definition clean_term (t : pystr) : Prop := t ≠ [] ∧ strip t = t.

Definition terms_clean (db : database) : Prop :=
  Forall (λ r, clean_term (term r)) (keywords db).

(** PRIMARY KEY AUTOINCREMENT: the ids are distinct and none is above
    the counter. *)
Definition keyword_ids_ok (db : database) : Prop :=
  NoDup (id <$> keywords db) ∧
  Forall (λ r, id r <= keywords_seq db) (keywords db).

(** The registered terms. *)
Definition terms_of (db : database) : list pystr := term <$> keywords db.

(** ** The provider's generator, read as a whole *)

(** The publications a generator yields before it stops or raises. *)
Fixpoint stream_pubs (s : pubstream) : list bib :=
  match s with
  | NextPub pub rest => pub :: stream_pubs rest
  | StopIteration | NextRaises _ => []
  end.

(** How the generator ends: [None] for StopIteration. *)
Fixpoint stream_end (s : pubstream) : option exn :=
  match s with
  | StopIteration => None
  | NextRaises e => Some e
  | NextPub _ rest => stream_end rest
  end.

(** ** HTML (source lines 311-321) *)

(** [s.replace(old, new)] for an [old] of one character. *)
Definition replace_char (old : N) (new : pystr) (s : pystr) : pystr :=
  mjoin ((λ c, if c =? old then new else [c]) <$> s).

(** [html.escape(s)] with its default [quote=True]: the ampersand first,
    then the angle brackets, then the two quotes. *)
Definition html_escape (s : pystr) : pystr :=
  replace_char 39 (lit "&#x27;")
    (replace_char 34 (lit "&quot;")
       (replace_char 62 (lit "&gt;")
          (replace_char 60 (lit "&lt;")
             (replace_char 38 (lit "&amp;") s)))).

(** What [html.escape] makes of one character. *)
Definition escape_char (c : N) : pystr :=
  if c =? 38 then lit "&amp;"
  else if c =? 60 then lit "&lt;"
  else if c =? 62 then lit "&gt;"
  else if c =? 34 then lit "&quot;"
  else if c =? 39 then lit "&#x27;"
  else [c].

(** The characters that [html.escape] leaves in no output: the angle
    brackets and the two quotes. *)
Definition markup (c : N) : Prop := c = 60 ∨ c = 62 ∨ c = 34 ∨ c = 39.

(** [str(n)] for a non-negative [int]. *)
Definition str_of_int (n : N) : pystr :=
  lit (NilZero.string_of_uint (N.to_uint n)).

Definition row_term_le (a b : keyword_row) : Prop := pystr_le (term a) (term b).

Global Instance row_term_le_dec : RelDecision row_term_le.
Proof. intros a b. unfold row_term_le. apply _. Defined.

(** [SELECT id, term FROM keywords ORDER BY term] *)
Definition select_id_term (db : database) : list (N * pystr) :=
  (λ r, (id r, term r)) <$> merge_sort row_term_le (keywords db).

(** One row of the keywords table of the options page. *)
Definition index_row (row : N * pystr) : pystr :=
  lit "<tr><td>" ++ html_escape row.2 ++ lit "</td>" ++
  lit "<td class='right'><form method='post' action='/delete' style='display:inline'>" ++
  lit "<input type='hidden' name='id' value='" ++ str_of_int row.1 ++ lit "'/>" ++
  lit "<button class='del' type='submit'>Delete</button>" ++
  lit "</form></td></tr>".

(** [rows_html] of [index]: the rows joined, or the placeholder row when
    the join is empty. *)
Definition index_rows_html (db : database) : pystr :=
  or_else (mjoin (index_row <$> select_id_term db))
    (lit "<tr><td colspan='2' class='muted'>No keywords yet.</td></tr>").

(** How often a character occurs. *)
Definition occurrences (c : N) (s : list N) : nat :=
  length (filter (λ x, x = c) s).

(** ** Health (source lines 365-373) *)

(** [health]: the body and the status code. *)
Definition health (DISCORD_WEBHOOK_URL SERPAPI_KEY : pystr) : pystr * N :=
  let ok_bits :=
    [(lit "discord", truthy DISCORD_WEBHOOK_URL);
     (lit "serpapi", truthy SERPAPI_KEY)] in
  let status := forallb snd ok_bits in
  let lines :=
    (λ kv : pystr * bool,
       kv.1 ++ lit ": " ++ (if kv.2 then lit "ok" else lit "missing"))
      <$> ok_bits in
  (if status then lit "OK" ++ nl ++ join nl lines
   else lit "NOT OK" ++ nl ++ join nl lines,
   if status then 200 else 503).

(** Whitespace only. *)
Definition blank (s : pystr) : Prop := Forall (λ c, isspace c = true) s.

(** An event other than a call of [requests.post]. *)
Definition silent (evs : list event) : Prop :=
  Forall (λ ev, ¬ post_event ev) evs.

(** The events of a candidate loop in which every claim was refused. *)
Definition refused (kw : pystr) (ps : list paper) : list event :=
  (λ p, EvInsert kw (default [] (fp_of p)) false) <$> ps.

(** The keywords table after an INSERT of [t] whose IntegrityError is
    passed over. *)
Definition registered (now t : pystr) (db : database) : database :=
  match insert_keywords t now db with
  | Ok db' => db'
  | Raise _ => db
  end.

(** The three invariants of the keywords table together. *)
Definition keywords_ok (db : database) : Prop :=
  keywords_unique db ∧ terms_clean db ∧ keyword_ids_ok db.

(** ** Invariant of the stored rows *)

(** The candidate a stored row was made from. *)
Definition row_paper (r : seen_row) : paper :=
  Paper (title r) (url r) (authors r) (year r).

(** The fingerprint of a row is the fingerprint of the row's own fields. *)
Definition row_consistent (r : seen_row) : Prop :=
  fp_of (row_paper r) = Some (fingerprint r).

Definition seen_consistent (db : database) : Prop :=
  Forall row_consistent (seen_papers db).

(** ** Counting the calls of a cycle *)

(** The calls of [requests.post]. *)
Fixpoint posts (evs : list event) : nat :=
  match evs with
  | [] => 0
  | EvPost _ _ _ :: evs' => S (posts evs')
  | _ :: evs' => posts evs'
  end.

(** The calls of [time.sleep]. *)
Fixpoint sleeps (evs : list event) : nat :=
  match evs with
  | [] => 0
  | EvSleep :: evs' => S (sleeps evs')
  | _ :: evs' => sleeps evs'
  end.

(** An event that ends a keyword in the loop of [run_cycle]: the sleep,
    or an error line for that keyword. *)
Definition closes (t : pystr) (ev : event) : Prop :=
  ev = EvSleep ∨ ∃ e, ev = EvPrint (error_line t e).

(** The events of the keyword loop over [ts], keyword by keyword: the
    search for the keyword, then events of its candidate loop only,
    with at most [LIMIT] posts among them, then the one event that ends
    the keyword. *)
Fixpoint keyword_segments (LIMIT : Z) (ts : list pystr) (evs : list event)
    : Prop :=
  match ts with
  | [] => evs = []
  | t :: ts' =>
      ∃ seg close rest,
        evs = EvSearch t :: seg ++ close :: rest ∧
        Forall (row_event t) seg ∧
        (posts seg ≤ Z.to_nat LIMIT)%nat ∧
        closes t close ∧
        keyword_segments LIMIT ts' rest
  end.

(** * Properties *)

(** ** The store: claim and release *)

Section Store.

Implicit Types (db : database) (kw fp now : pystr) (p : paper).

Lemma filter_all {A} (P : A → Prop) `{∀ x, Decision (P x)} (l : list A) :
  Forall P l → filter P l = l.
Proof.
  induction 1 as [|x l Hx _ IH]; [done|].
  by rewrite filter_cons_True, IH.
Qed.

Lemma filter_none {A} (P : A → Prop) `{∀ x, Decision (P x)} (l : list A) :
  Forall (λ x, ¬ P x) l → filter P l = [].
Proof.
  induction 1 as [|x l Hx _ IH]; [done|].
  by rewrite filter_cons_False.
Qed.

Lemma has_seen_key kw fp db :
  has_seen kw fp db ↔ (kw, fp) ∈ seen_key <$> seen_papers db.
Proof.
  unfold has_seen. rewrite Exists_exists, list_elem_of_fmap.
  split.
  - intros (r & Hr & Hk & Hf). exists r. unfold seen_key. by rewrite Hk, Hf.
  - intros (r & Heq & Hr). exists r. split; [done|].
    unfold seen_key in Heq. by inversion Heq.
Qed.

Lemma insert_seen_taken kw fp p now db :
  has_seen kw fp db → insert_seen_papers kw fp p now db = Raise IntegrityError.
Proof. intros H. unfold insert_seen_papers. by rewrite decide_True. Qed.

Lemma insert_seen_fresh kw fp p now db :
  ¬ has_seen kw fp db →
  insert_seen_papers kw fp p now db =
    Ok (Database (keywords db) (keywords_seq db)
          (seen_papers db ++
             [SeenRow (seen_papers_seq db + 1) kw fp
                (p_title p) (p_url p) (p_authors p) (p_year p) now])
          (seen_papers_seq db + 1)).
Proof. intros H. unfold insert_seen_papers. by rewrite decide_False. Qed.

Lemma insert_seen_inv kw fp p now db db' :
  insert_seen_papers kw fp p now db = Ok db' →
  ¬ has_seen kw fp db ∧
  keywords db' = keywords db ∧
  seen_papers db' =
    seen_papers db ++
      [SeenRow (seen_papers_seq db + 1) kw fp
         (p_title p) (p_url p) (p_authors p) (p_year p) now].
Proof.
  unfold insert_seen_papers. case_decide; [done|].
  intros [= <-]. done.
Qed.

Lemma insert_seen_has kw fp p now db db' :
  insert_seen_papers kw fp p now db = Ok db' → has_seen kw fp db'.
Proof.
  intros (_ & _ & Hs)%insert_seen_inv. unfold has_seen. rewrite Hs.
  apply Exists_app. right. by constructor.
Qed.

Lemma insert_seen_other kw fp p now db db' kw' fp' :
  insert_seen_papers kw fp p now db = Ok db' →
  has_seen kw' fp' db' ↔ has_seen kw' fp' db ∨ (kw' = kw ∧ fp' = fp).
Proof.
  intros (_ & _ & Hs)%insert_seen_inv. unfold has_seen. rewrite Hs, Exists_app.
  split; (intros [H|H]; [by left|right]).
  - apply Exists_cons in H as [[??]|H]; [done|by apply Exists_nil in H].
  - destruct H as [-> ->]. by constructor.
Qed.

Lemma insert_seen_unique kw fp p now db db' :
  insert_seen_papers kw fp p now db = Ok db' →
  seen_unique db → seen_unique db'.
Proof.
  intros Hi Hu. pose proof Hi as (Hn & _ & Hs)%insert_seen_inv.
  unfold seen_unique in *. rewrite Hs, fmap_app. apply NoDup_app.
  split; [done|]. split.
  - intros k Hk [->|[]%elem_of_nil]%elem_of_cons.
    by apply Hn, has_seen_key.
  - apply NoDup_singleton.
Qed.

Lemma claim_seen kw fp p now db :
  has_seen kw fp db → claim kw fp p now db = (AlreadySeen, db).
Proof. intros H. unfold claim. by rewrite insert_seen_taken. Qed.

Lemma claim_fresh kw fp p now db :
  ¬ has_seen kw fp db →
  ∃ db', insert_seen_papers kw fp p now db = Ok db' ∧
         claim kw fp p now db = (Claimed, db').
Proof.
  intros H. unfold claim. rewrite insert_seen_fresh by done. eauto.
Qed.

Lemma claim_unique kw fp p now db :
  seen_unique db → seen_unique (claim kw fp p now db).2.
Proof.
  intros Hu. unfold claim.
  destruct (insert_seen_papers kw fp p now db) eqn:Hi; simpl; [|done].
  by eapply insert_seen_unique.
Qed.

Lemma release_gone kw fp db : ¬ has_seen kw fp (release kw fp db).
Proof.
  unfold has_seen, release, delete_seen_pair. simpl.
  rewrite Exists_exists. intros (r & Hr & Hp).
  by apply list_elem_of_filter in Hr as [Hn _].
Qed.

Lemma release_other kw fp db kw' fp' :
  has_seen kw' fp' (release kw fp db) ↔
  has_seen kw' fp' db ∧ ¬ (kw' = kw ∧ fp' = fp).
Proof.
  unfold has_seen, release, delete_seen_pair. simpl.
  rewrite !Exists_exists. split.
  - intros (r & [Hn Hr]%list_elem_of_filter & [Hk Hf]). split; [by exists r|].
    intros [-> ->]. by apply Hn.
  - intros [(r & Hr & [Hk Hf]) Hne]. exists r. split; [|done].
    apply list_elem_of_filter. split; [|done].
    intros [Hk' Hf']. apply Hne. by rewrite <-Hk, <-Hf.
Qed.

Lemma release_absent kw fp db : ¬ has_seen kw fp db → release kw fp db = db.
Proof.
  intros H. destruct db as [ks kq ss sq]. unfold release, delete_seen_pair.
  simpl. f_equal. apply filter_all.
  by apply Forall_Exists_neg.
Qed.

Lemma release_release kw fp db :
  release kw fp (release kw fp db) = release kw fp db.
Proof. apply release_absent, release_gone. Qed.

Lemma release_unique kw fp db : seen_unique db → seen_unique (release kw fp db).
Proof.
  unfold seen_unique, release, delete_seen_pair. simpl. intros Hu.
  eapply sublist_NoDup; [done|]. apply fmap_sublist, sublist_filter.
Qed.

Lemma release_keywords kw fp db : keywords (release kw fp db) = keywords db.
Proof. done. Qed.

(** Undoing a fresh insert restores the rows of the table. *)
Lemma release_insert kw fp p now db db' :
  insert_seen_papers kw fp p now db = Ok db' →
  seen_papers (release kw fp db') = seen_papers db.
Proof.
  intros (Hn & _ & Hs)%insert_seen_inv. unfold release, delete_seen_pair.
  simpl. rewrite Hs, filter_app, filter_cons_False, filter_nil.
  - rewrite app_nil_r. apply filter_all. by apply Forall_Exists_neg.
  - intros H. by apply H.
Qed.

Lemma run_claims_seen kw fp payloads db :
  has_seen kw fp db →
  run_claims kw fp payloads db = (replicate (length payloads) AlreadySeen, db).
Proof.
  intros H. induction payloads as [|[p now] rest IH]; [done|].
  simpl. by rewrite claim_seen, IH.
Qed.

Lemma rows_of_fresh_insert kw fp p now db db' :
  insert_seen_papers kw fp p now db = Ok db' →
  rows_of kw fp db' =
    [SeenRow (seen_papers_seq db + 1) kw fp
       (p_title p) (p_url p) (p_authors p) (p_year p) now].
Proof.
  intros (Hn & _ & Hs)%insert_seen_inv. unfold rows_of.
  rewrite Hs, filter_app, filter_cons_True, filter_nil by done.
  rewrite filter_none; [done|]. by apply Forall_Exists_neg.
Qed.

End Store.

(** ** The notifier *)

Section Notifier.

Variable DISCORD_WEBHOOK_URL : pystr.
Variable requests_post : nat → pystr → pystr → post_outcome.

Local Abbreviation send := (send_to_discord DISCORD_WEBHOOK_URL requests_post).

Lemma raise_for_status_ok r w :
  post_ok r = true → raise_for_status r w = (Ok (), w).
Proof.
  destruct r as [s|]; simpl; [|done].
  intros H%negb_true_iff. by rewrite H.
Qed.

Lemma raise_for_status_fail r w :
  post_ok r = false →
  ∃ e, raise_for_status r w = (Raise e, w) ∧ is_IntegrityError e = false.
Proof.
  destruct r as [s|]; simpl.
  - intros H%negb_false_iff. rewrite H. by eexists.
  - intros _. by eexists.
Qed.

Lemma truthy_nil (s : pystr) : truthy s = false ↔ s = [].
Proof. by destruct s. Qed.

Lemma send_unconfigured kw p w :
  DISCORD_WEBHOOK_URL = [] →
  send kw p w =
    (Raise (RuntimeError (lit "DISCORD_WEBHOOK_URL missing; set it in .env")), w).
Proof. intros H. unfold send_to_discord. by rewrite H. Qed.

Lemma send_configured kw p w :
  DISCORD_WEBHOOK_URL ≠ [] →
  let content := discord_content kw p in
  let r := requests_post (length (trace w)) DISCORD_WEBHOOK_URL content in
  send kw p w =
    raise_for_status r
      (World (store w) (trace w ++ [EvPost DISCORD_WEBHOOK_URL content r])).
Proof.
  intros H. unfold send_to_discord.
  destruct (truthy DISCORD_WEBHOOK_URL) eqn:Ht.
  - done.
  - by apply truthy_nil in Ht.
Qed.

(** The notifier never touches the database, and what it raises is
    never [sqlite3.IntegrityError]. *)
Lemma send_summary kw p w r w' :
  send kw p w = (r, w') →
  store w' = store w ∧
  ∃ evs, trace w' = trace w ++ evs ∧ Forall post_event evs ∧
    match r with
    | Ok _ => delivered evs = 1%nat
    | Raise e => delivered evs = 0%nat ∧ is_IntegrityError e = false
    end.
Proof.
  destruct (decide (DISCORD_WEBHOOK_URL = [])) as [Hu|Hu].
  - rewrite send_unconfigured by done. intros [= <- <-].
    split; [done|]. exists []. by rewrite app_nil_r.
  - rewrite send_configured by done.
    set (c := discord_content kw p).
    set (o := requests_post _ _ _).
    destruct (post_ok o) eqn:Ho.
    + rewrite raise_for_status_ok by done. intros [= <- <-].
      split; [done|]. exists [EvPost DISCORD_WEBHOOK_URL c o]. simpl.
      rewrite Ho. split; [done|]. split; [|done].
      by repeat constructor.
    + destruct (raise_for_status_fail o
        (World (store w) (trace w ++ [EvPost DISCORD_WEBHOOK_URL c o])) Ho)
        as (e & -> & He).
      intros [= <- <-]. split; [done|].
      exists [EvPost DISCORD_WEBHOOK_URL c o]. simpl. rewrite Ho.
      split; [done|]. split; [|done].
      by repeat constructor.
Qed.

End Notifier.

(** ** One candidate *)

Section Cycle.

Variable DISCORD_WEBHOOK_URL : pystr.
Variable PER_KEYWORD_LIMIT : Z.
Variable search_pubs : nat → pystr → res pubstream.
Variable requests_post : nat → pystr → pystr → post_outcome.
Variable utcnow_iso : nat → pystr.

Local Abbreviation send := (send_to_discord DISCORD_WEBHOOK_URL requests_post).
Local Abbreviation row :=
  (process_row DISCORD_WEBHOOK_URL requests_post utcnow_iso).
Local Abbreviation rows :=
  (process_rows DISCORD_WEBHOOK_URL requests_post utcnow_iso).
Local Abbreviation keyword :=
  (process_keyword DISCORD_WEBHOOK_URL PER_KEYWORD_LIMIT search_pubs
     requests_post utcnow_iso).
Local Abbreviation terms_loop :=
  (run_terms DISCORD_WEBHOOK_URL PER_KEYWORD_LIMIT search_pubs
     requests_post utcnow_iso).
Local Abbreviation cycle :=
  (run_cycle DISCORD_WEBHOOK_URL PER_KEYWORD_LIMIT search_pubs
     requests_post utcnow_iso).

Lemma row_unencodable kw p n w :
  fp_of p = None → row kw p n w = (Raise UnicodeEncodeError, w).
Proof.
  unfold process_row, fingerprint_of. intros ->. by munfold.
Qed.

Lemma row_seen kw p n w fp :
  fp_of p = Some fp → has_seen kw fp (store w) →
  row kw p n w = (Ok n, World (store w) (trace w ++ [EvInsert kw fp false])).
Proof.
  unfold process_row, fingerprint_of, execute_insert.
  intros -> Hs. munfold. simpl. by rewrite insert_seen_taken.
Qed.

Lemma row_delivered kw p n w fp db' w2 :
  fp_of p = Some fp →
  insert_seen_papers kw fp p (utcnow_iso (length (trace w))) (store w) = Ok db' →
  send kw p (World db' (trace w ++ [EvInsert kw fp true])) = (Ok (), w2) →
  row kw p n w = (Ok (n + 1)%nat, w2).
Proof.
  unfold process_row, fingerprint_of, execute_insert.
  intros -> Hi Hs. munfold. simpl. rewrite Hi. simpl. by rewrite Hs.
Qed.

Lemma row_rollback kw p n w fp db' e w2 :
  fp_of p = Some fp →
  insert_seen_papers kw fp p (utcnow_iso (length (trace w))) (store w) = Ok db' →
  send kw p (World db' (trace w ++ [EvInsert kw fp true])) = (Raise e, w2) →
  row kw p n w =
    (Raise e, World (release kw fp (store w2)) (trace w2 ++ [EvDelete kw fp])).
Proof.
  unfold process_row, fingerprint_of, execute_insert, execute_delete.
  intros -> Hi Hs. munfold. simpl. rewrite Hi. simpl. rewrite Hs. simpl.
  apply send_summary in Hs as (_ & _ & _ & _ & _ & ->). done.
Qed.

Lemma post_row_events kw evs : Forall post_event evs → Forall (row_event kw) evs.
Proof. intros H. eapply Forall_impl; [done|]. by intros []. Qed.

Lemma post_events_no_delete evs k f : Forall post_event evs → EvDelete k f ∉ evs.
Proof. intros Hf Hin. rewrite Forall_forall in Hf. by apply Hf in Hin. Qed.

Lemma delivered_app evs1 evs2 :
  delivered (evs1 ++ evs2) = (delivered evs1 + delivered evs2)%nat.
Proof.
  induction evs1 as [|[] evs1 IH]; simpl; rewrite ?IH; lia.
Qed.

Lemma keyword_step_refl kw w : keyword_step kw w w [].
Proof.
  unfold keyword_step. rewrite app_nil_r. simpl.
  split_and!; auto with lia.
Qed.

Lemma keyword_step_trans kw w1 w2 w3 evs1 evs2 :
  keyword_step kw w1 w2 evs1 → keyword_step kw w2 w3 evs2 →
  keyword_step kw w1 w3 (evs1 ++ evs2).
Proof.
  intros (Ht1 & Hf1 & Hk1 & Hu1 & Ho1 & Hl1) (Ht2 & Hf2 & Hk2 & Hu2 & Ho2 & Hl2).
  unfold keyword_step. split_and!.
  - by rewrite Ht2, Ht1, app_assoc.
  - by apply Forall_app.
  - congruence.
  - auto.
  - intros kw' fp' Hne. by rewrite Ho2, Ho1.
  - rewrite delivered_app. lia.
Qed.

(** A step that leaves the rows of [seen_papers] as they were. *)
Lemma keyword_step_same_rows kw w w' evs :
  trace w' = trace w ++ evs → Forall (row_event kw) evs →
  keywords (store w') = keywords (store w) →
  seen_papers (store w') = seen_papers (store w) →
  delivered evs = 0%nat →
  keyword_step kw w w' evs.
Proof.
  intros Ht Hf Hk Hs Hd. unfold keyword_step, seen_unique, has_seen.
  rewrite Hs, Hd. split_and!; auto with lia.
Qed.

Lemma row_summary kw p n w r w' :
  row kw p n w = (r, w') →
  ∃ evs, keyword_step kw w w' evs ∧
    match r with
    | Ok m =>
        m = (n + delivered evs)%nat ∧ (delivered evs ≤ 1)%nat ∧
        ∀ k f, EvDelete k f ∉ evs
    | Raise e =>
        (∀ k f, EvDelete k f ∈ evs → ¬ has_seen k f (store w')) ∧
        delivered evs = 0%nat ∧
        seen_papers (store w') = seen_papers (store w)
    end.
Proof.
  destruct (fp_of p) as [fp|] eqn:Hfp.
  2:{ rewrite row_unencodable by done. intros [= <- <-]. exists [].
      split; [apply keyword_step_refl|]. split; [|done].
      by intros k f ?%elem_of_nil. }
  destruct (decide (has_seen kw fp (store w))) as [Hs|Hs].
  { rewrite (row_seen _ _ _ _ fp) by done. intros [= <- <-].
    exists [EvInsert kw fp false]. split.
    - apply keyword_step_same_rows; try done. by repeat constructor.
    - split_and!; [simpl; lia|simpl; lia|].
      intros k f [?|[]%elem_of_nil]%elem_of_cons. done. }
  destruct (claim_fresh kw fp p (utcnow_iso (length (trace w))) (store w) Hs)
    as (db' & Hi & _).
  pose proof Hi as (_ & Hk & Hrows)%insert_seen_inv.
  destruct (send kw p (World db' (trace w ++ [EvInsert kw fp true])))
    as [[[]|e] w2] eqn:Hsend.
  - rewrite (row_delivered _ _ _ _ fp db' w2) by done. intros [= <- <-].
    apply send_summary in Hsend as (Hst & evs & Htr & Hev & Hd).
    simpl in Hst, Htr. exists (EvInsert kw fp true :: evs). split.
    + unfold keyword_step. rewrite Hst, Htr, <-app_assoc. simpl.
      split_and!; try done.
      * constructor; [done|]. by apply post_row_events.
      * by eapply insert_seen_unique.
      * intros kw' fp' Hne. rewrite (insert_seen_other _ _ _ _ _ _ kw' fp' Hi).
        split; [intros [?|[??]]; done|by left].
      * rewrite Hrows, length_app, Hd. simpl. lia.
    + simpl. split_and!; [lia|lia|].
      intros k f [?|Hin]%elem_of_cons; [done|].
      by eapply post_events_no_delete.
  - rewrite (row_rollback _ _ _ _ fp db' e w2) by done. intros [= <- <-].
    apply send_summary in Hsend as (Hst & evs & Htr & Hev & Hd & _).
    simpl in Hst, Htr. rewrite Hst, Htr. simpl.
    exists (EvInsert kw fp true :: evs ++ [EvDelete kw fp]).
    assert (Hsame : seen_papers (release kw fp db') = seen_papers (store w))
      by by eapply release_insert.
    split_and!.
    + apply keyword_step_same_rows; simpl.
      * by rewrite <-!app_assoc.
      * constructor; [done|]. apply Forall_app. split.
        -- by apply post_row_events.
        -- by repeat constructor.
      * done.
      * done.
      * rewrite delivered_app, Hd. done.
    + intros k f [?|Hin]%elem_of_cons; [done|].
      apply elem_of_app in Hin as [Hin|Hin].
      * by eapply post_events_no_delete in Hin.
      * apply list_elem_of_singleton in Hin as [= -> ->].
        apply release_gone.
    + simpl. rewrite delivered_app, Hd. done.
    + done.
Qed.

(** ** The candidates of one keyword *)

Lemma rows_nil kw n w : rows kw [] n w = (Ok n, w).
Proof. done. Qed.

Lemma rows_cons kw p ps n w :
  rows kw (p :: ps) n w =
    match row kw p n w with
    | (Ok m, w1) => rows kw ps m w1
    | (Raise e, w1) => (Raise e, w1)
    end.
Proof. simpl. munfold. by destruct (row kw p n w) as [[]]. Qed.

Lemma rows_summary kw ps n w r w' :
  rows kw ps n w = (r, w') →
  ∃ evs, keyword_step kw w w' evs ∧
    match r with
    | Ok m => m = (n + delivered evs)%nat ∧ ∀ k f, EvDelete k f ∉ evs
    | Raise e => ∀ k f, EvDelete k f ∈ evs → ¬ has_seen k f (store w')
    end.
Proof.
  revert n w. induction ps as [|p ps IH]; intros n w.
  - rewrite rows_nil. intros [= <- <-]. exists [].
    split; [apply keyword_step_refl|]. split; [simpl; lia|].
    by intros k f ?%elem_of_nil.
  - rewrite rows_cons.
    destruct (row kw p n w) as [[m|e] w1] eqn:Hrow;
      apply row_summary in Hrow as (evs1 & Hstep1 & Hr1).
    + intros (evs2 & Hstep2 & Hr2)%IH. exists (evs1 ++ evs2).
      split; [by eapply keyword_step_trans|].
      destruct Hr1 as (-> & _ & Hnd1). destruct r as [m'|e'].
      * destruct Hr2 as [-> Hnd2]. rewrite delivered_app. split; [lia|].
        intros k f [H|H]%elem_of_app; [by apply Hnd1 in H|by apply Hnd2 in H].
      * intros k f [H|H]%elem_of_app; [by apply Hnd1 in H|by apply Hr2].
    + intros [= <- <-]. exists evs1. split; [done|]. by destruct Hr1.
Qed.

(** After the first candidate that raises, the loop is left: the
    candidates behind it are not looked at. *)
Lemma rows_stop kw pre p post n w m w1 e w2 :
  rows kw pre n w = (Ok m, w1) →
  row kw p m w1 = (Raise e, w2) →
  rows kw (pre ++ p :: post) n w = (Raise e, w2).
Proof.
  revert n w. induction pre as [|q pre IH]; intros n w.
  - rewrite rows_nil. intros [= <- <-] Hrow. simpl app.
    by rewrite rows_cons, Hrow.
  - simpl app. rewrite !rows_cons.
    destruct (row kw q n w) as [[k|e'] w']; [|done]. apply IH.
Qed.

Lemma fetch_world kw num w :
  (fetch_scholar_results search_pubs kw num w).2 =
    World (store w) (trace w ++ [EvSearch kw]).
Proof.
  unfold fetch_scholar_results. munfold. simpl.
  destruct (search_pubs _ _) as [s|e]; [|done].
  by destruct (take_pubs _ _ _).
Qed.

Lemma keyword_unfold kw w :
  keyword kw w =
    match fetch_scholar_results search_pubs kw PER_KEYWORD_LIMIT w with
    | (Ok ps, w0) => rows kw ps 0%nat w0
    | (Raise e, w0) => (Raise e, w0)
    end.
Proof.
  unfold process_keyword. munfold.
  by destruct (fetch_scholar_results _ _ _ _) as [[]].
Qed.

Lemma keyword_summary kw w r w' :
  keyword kw w = (r, w') →
  ∃ evs, keyword_step kw (World (store w) (trace w ++ [EvSearch kw])) w' evs ∧
    match r with
    | Ok m => m = delivered evs ∧ ∀ k f, EvDelete k f ∉ evs
    | Raise e => ∀ k f, EvDelete k f ∈ evs → ¬ has_seen k f (store w')
    end.
Proof.
  rewrite keyword_unfold. pose proof (fetch_world kw PER_KEYWORD_LIMIT w) as Hw.
  destruct (fetch_scholar_results _ _ _ _) as [[ps|e] w0]; simpl in Hw; subst w0.
  - intros (evs & Hstep & Hr)%rows_summary. exists evs. split; [done|].
    destruct r; [|done]. by destruct Hr as [-> ?].
  - intros [= <- <-]. exists []. split; [apply keyword_step_refl|].
    by intros k f ?%elem_of_nil.
Qed.

(** ** The keyword loop *)

Lemma searched_app evs1 evs2 :
  searched (evs1 ++ evs2) = searched evs1 ++ searched evs2.
Proof. induction evs1 as [|[] evs1 IH]; simpl; by rewrite ?IH. Qed.

Lemma failed_terms_app evs1 evs2 :
  failed_terms (evs1 ++ evs2) = failed_terms evs1 ++ failed_terms evs2.
Proof. induction evs1 as [|[| | | | |[]] evs1 IH]; simpl; by rewrite ?IH. Qed.

Lemma row_events_searched kw evs : Forall (row_event kw) evs → searched evs = [].
Proof. induction 1 as [|[] evs Hx _ IH]; simpl; done. Qed.

Lemma row_events_failed kw evs :
  Forall (row_event kw) evs → failed_terms evs = [].
Proof. induction 1 as [|[] evs Hx _ IH]; simpl; done. Qed.

Lemma row_events_completed kw evs rest pending :
  Forall (row_event kw) evs →
  delivered_completed (evs ++ rest) pending =
    delivered_completed rest (pending + delivered evs).
Proof.
  intros Hf. revert pending.
  induction Hf as [|[] evs Hx _ IH]; intros pending; simpl; try done.
  - by rewrite Nat.add_0_r.
  - rewrite IH. destruct (post_ok r); f_equal; lia.
Qed.

Lemma delivered_completed_le evs pending :
  (delivered_completed evs pending ≤ pending + delivered evs)%nat.
Proof.
  revert pending. induction evs as [|[? |? ? ? |? ? |? ? r| |l] evs IH]; intros pending;
    simpl; try lia; try (specialize (IH pending); lia).
  - destruct (post_ok r).
    + specialize (IH (S pending)). lia.
    + specialize (IH pending). lia.
  - specialize (IH 0%nat). lia.
  - destruct (is_error_line l).
    + specialize (IH 0%nat). lia.
    + specialize (IH pending). lia.
Qed.

Lemma is_error_line_error t e : is_error_line (error_line t e) = true.
Proof. unfold error_line. by destruct (is_HTTPError e). Qed.

Lemma failed_terms_error t e evs :
  failed_terms (EvPrint (error_line t e) :: evs) = t :: failed_terms evs.
Proof. unfold error_line. by destruct (is_HTTPError e). Qed.

Lemma completed_error t e evs pending :
  delivered_completed (EvPrint (error_line t e) :: evs) pending =
    delivered_completed evs 0.
Proof. simpl. by rewrite is_error_line_error. Qed.

Lemma terms_nil n w : terms_loop [] n w = (Ok n, w).
Proof. done. Qed.

Lemma terms_cons t ts n w :
  terms_loop (t :: ts) n w =
    match keyword t w with
    | (Ok k, w1) =>
        terms_loop ts (n + k)%nat (World (store w1) (trace w1 ++ [EvSleep]))
    | (Raise e, w1) =>
        terms_loop ts n
          (World (store w1) (trace w1 ++ [EvPrint (error_line t e)]))
    end.
Proof.
  simpl. munfold.
  by destruct (keyword t w) as [[k|e] w1].
Qed.

Lemma terms_summary ts n w r w' :
  terms_loop ts n w = (r, w') →
  ∃ evs, cycle_step ts w w' evs ∧
    r = Ok (n + delivered_completed evs 0)%nat ∧
    (failed_terms evs = [] → delivered_completed evs 0 = delivered evs) ∧
    failed_terms evs ⊆ ts.
Proof.
  revert n w. induction ts as [|t ts IH]; intros n w.
  { rewrite terms_nil. intros [= <- <-]. exists []. split_and!.
    - unfold cycle_step. rewrite app_nil_r. simpl.
      split_and!; auto with lia. by intros _ k f ?%elem_of_nil.
    - simpl. f_equal. lia.
    - done.
    - done. }
  rewrite terms_cons.
  destruct (keyword t w) as [[k|e] w1] eqn:Hkw;
    apply keyword_summary in Hkw as (evs1 & Hstep1 & Hr1);
    destruct Hstep1 as (Ht1 & Hf1 & Hk1 & Hu1 & Ho1 & Hl1);
    simpl in Ht1, Hk1, Hu1, Ho1, Hl1;
    intros (evs2 & Hstep2 & -> & Hnf2 & Hsub2)%IH;
    destruct Hstep2 as (Ht2 & Hs2 & Hk2 & Hu2 & Ho2 & Hl2 & Hd2);
    simpl in Ht2, Hk2, Hu2, Ho2, Hl2, Hd2.
  - destruct Hr1 as [-> Hnd1].
    exists (EvSearch t :: evs1 ++ EvSleep :: evs2). split_and!.
    + unfold cycle_step. split_and!.
      * rewrite Ht2, Ht1. by rewrite <-!app_assoc.
      * simpl. rewrite searched_app. simpl.
        by rewrite (row_events_searched t), Hs2.
      * congruence.
      * auto.
      * intros kw fp [Hne Hni]%not_elem_of_cons. by rewrite Ho2, Ho1.
      * simpl. rewrite delivered_app. simpl. lia.
      * intros [Hnt Hnd]%NoDup_cons k f [?|Hin]%elem_of_cons; [done|].
        apply elem_of_app in Hin as [Hin|Hin]; [by apply Hnd1 in Hin|].
        apply elem_of_cons in Hin as [?|Hin]; [done|]. by apply Hd2.
    + simpl. rewrite (row_events_completed t) by done. simpl. f_equal. lia.
    + simpl. rewrite failed_terms_app, (row_events_failed t) by done. simpl.
      intros Hnf. rewrite (row_events_completed t) by done. simpl.
      rewrite delivered_app. simpl. rewrite Hnf2 by done. lia.
    + simpl. rewrite failed_terms_app, (row_events_failed t) by done. simpl.
      intros x Hx. apply elem_of_cons. right. by apply Hsub2.
  - exists (EvSearch t :: evs1 ++ EvPrint (error_line t e) :: evs2). split_and!.
    + unfold cycle_step. split_and!.
      * rewrite Ht2, Ht1. by rewrite <-!app_assoc.
      * simpl. rewrite searched_app. simpl.
        by rewrite (row_events_searched t), Hs2.
      * congruence.
      * auto.
      * intros kw fp [Hne Hni]%not_elem_of_cons. by rewrite Ho2, Ho1.
      * simpl. rewrite delivered_app. simpl. lia.
      * intros [Hnt Hnd]%NoDup_cons k f [?|Hin]%elem_of_cons; [done|].
        apply elem_of_app in Hin as [Hin|Hin].
        -- assert (k = t) as ->.
           { rewrite Forall_forall in Hf1. by apply Hf1 in Hin. }
           rewrite Ho2 by done. by apply Hr1.
        -- apply elem_of_cons in Hin as [?|Hin]; [done|]. by apply Hd2.
    + simpl. rewrite (row_events_completed t) by done.
      by rewrite completed_error.
    + simpl. rewrite failed_terms_app, (row_events_failed t) by done.
      by rewrite failed_terms_error.
    + simpl. rewrite failed_terms_app, (row_events_failed t) by done.
      rewrite failed_terms_error.
      intros x [->|Hx]%elem_of_cons; apply elem_of_cons; [by left|].
      right. by apply Hsub2.
Qed.

Lemma terms_app pre ts n w :
  terms_loop (pre ++ ts) n w =
    match terms_loop pre n w with
    | (Ok m, w1) => terms_loop ts m w1
    | (Raise e, w1) => (Raise e, w1)
    end.
Proof.
  revert n w. induction pre as [|t pre IH]; intros n w; [done|].
  simpl app. rewrite !terms_cons. by destruct (keyword t w) as [[k|e] w1].
Qed.

(** ** One cycle *)

Lemma select_terms_perm db : select_terms db ≡ₚ term <$> keywords db.
Proof. apply merge_sort_Permutation. Qed.

Lemma select_terms_NoDup db : keywords_unique db → NoDup (select_terms db).
Proof. unfold keywords_unique. by rewrite select_terms_perm. Qed.

Lemma cycle_unfold w :
  cycle w =
    match terms_loop (select_terms (store w)) 0%nat w with
    | (Ok total, w1) =>
        (Ok total,
         if (0 <? total)%nat
         then World (store w1) (trace w1 ++ [EvPrint (LogNewPapers total)])
         else w1)
    | (Raise e, w1) => (Raise e, w1)
    end.
Proof.
  unfold run_cycle. munfold. simpl.
  destruct (terms_loop _ _ _) as [[total|e] w1]; [|done].
  by destruct (0 <? total)%nat.
Qed.

Lemma searched_snoc_print evs l : searched (evs ++ [EvPrint l]) = searched evs.
Proof. by rewrite searched_app, app_nil_r. Qed.

Lemma delivered_snoc_print evs l : delivered (evs ++ [EvPrint l]) = delivered evs.
Proof. rewrite delivered_app. simpl. lia. Qed.

Lemma completed_snoc_new evs n pending :
  delivered_completed (evs ++ [EvPrint (LogNewPapers n)]) pending =
    delivered_completed evs pending.
Proof.
  revert pending.
  induction evs as [|[? |? ? ? |? ? |? ? r| |l] evs IH]; intros pending;
    simpl; by rewrite ?IH.
Qed.

Lemma failed_snoc_new evs n :
  failed_terms (evs ++ [EvPrint (LogNewPapers n)]) = failed_terms evs.
Proof. by rewrite failed_terms_app, app_nil_r. Qed.

Lemma cycle_summary w r w' :
  cycle w = (r, w') →
  ∃ evs, cycle_step (select_terms (store w)) w w' evs ∧
    r = Ok (delivered_completed evs 0) ∧
    (failed_terms evs = [] → delivered_completed evs 0 = delivered evs) ∧
    failed_terms evs ⊆ select_terms (store w).
Proof.
  rewrite cycle_unfold.
  destruct (terms_loop _ _ _) as [r1 w1] eqn:Hloop.
  apply terms_summary in Hloop as (evs & Hstep & -> & Hnf & Hsub).
  simpl. destruct (0 <? _)%nat; intros [= <- <-].
  - destruct Hstep as (Ht & Hs & Hk & Hu & Ho & Hl & Hd).
    exists (evs ++ [EvPrint (LogNewPapers (delivered_completed evs 0))]).
    rewrite completed_snoc_new, failed_snoc_new, delivered_snoc_print.
    split_and!; try done. unfold cycle_step. simpl.
    rewrite searched_snoc_print, delivered_snoc_print, Ht, app_assoc.
    split_and!; try done.
    intros Hnd k f [Hin|Hin]%elem_of_app; [by apply Hd|].
    by apply list_elem_of_singleton in Hin.
  - by exists evs.
Qed.

(** ** The claims about the cycle *)

(** C1 (claim-notify atomicity). When the claim of a candidate returns
    [Claimed] and the notification that follows raises, the loop body
    deletes exactly that (keyword, fingerprint) pair and only then lets
    the exception out: the candidate loop ends with that exception, so
    no count is returned for the item, the pair is not stored, and the
    rows of [seen_papers] are those from before the claim. For a whole
    cycle over a keywords table with unique terms: every pair released
    during the cycle is absent from the store when the cycle ends, the
    returned total never exceeds the number of delivered notifications,
    and the table grew by exactly one row per delivered notification. *)
Theorem claim_notify_atomicity :
  (∀ kw p n w fp db' e w2,
     fp_of p = Some fp →
     claim kw fp p (utcnow_iso (length (trace w))) (store w) = (Claimed, db') →
     send kw p (World db' (trace w ++ [EvInsert kw fp true])) = (Raise e, w2) →
     let w' := World (release kw fp db') (trace w2 ++ [EvDelete kw fp]) in
     row kw p n w = (Raise e, w') ∧
     (∀ rest, rows kw (p :: rest) n w = (Raise e, w')) ∧
     ¬ has_seen kw fp (store w') ∧
     seen_papers (store w') = seen_papers (store w)) ∧
  (∀ w r w',
     keywords_unique (store w) →
     cycle w = (r, w') →
     ∃ total evs,
       r = Ok total ∧ trace w' = trace w ++ evs ∧
       (∀ kw fp, EvDelete kw fp ∈ evs → ¬ has_seen kw fp (store w')) ∧
       (total ≤ delivered evs)%nat ∧
       length (seen_papers (store w')) =
         (length (seen_papers (store w)) + delivered evs)%nat).
Proof.
  split.
  - intros kw p n w fp db' e w2 Hfp Hclaim Hsend.
    assert (Hins : insert_seen_papers kw fp p
                     (utcnow_iso (length (trace w))) (store w) = Ok db').
    { unfold claim in Hclaim.
      by destruct (insert_seen_papers _ _ _ _ _); inversion Hclaim. }
    pose proof (row_rollback _ _ n _ _ _ _ _ Hfp Hins Hsend) as Hrow.
    apply send_summary in Hsend as (Hst & _). simpl in Hst.
    rewrite Hst in Hrow. split_and!.
    + done.
    + intros rest. by rewrite rows_cons, Hrow.
    + apply release_gone.
    + by eapply release_insert.
  - intros w r w' Hku (evs & Hstep & -> & _ & _)%cycle_summary.
    destruct Hstep as (Ht & _ & _ & _ & _ & Hl & Hd).
    exists (delivered_completed evs 0), evs. split_and!; try done.
    + by apply Hd, select_terms_NoDup.
    + apply (delivered_completed_le evs 0).
Qed.

(** The count returned by a cycle, as the code computes it. The
    counter of a candidate loop that ends normally went up by exactly
    one per candidate that was claimed and notified, which is also the
    number of rows added. [run_cycle] returns the sum of these counters
    over the keywords whose processing ended normally, which is at most
    the number of delivered notifications and equals it when no keyword
    raised. *)
Theorem run_cycle_counts_completed_keywords :
  (∀ kw p n w m w',
     row kw p n w = (Ok m, w') →
     ∃ evs, trace w' = trace w ++ evs ∧
       m = (n + delivered evs)%nat ∧ (delivered evs ≤ 1)%nat ∧
       length (seen_papers (store w')) =
         (length (seen_papers (store w)) + delivered evs)%nat) ∧
  (∀ kw ps n w m w',
     rows kw ps n w = (Ok m, w') →
     ∃ evs, trace w' = trace w ++ evs ∧
       m = (n + delivered evs)%nat ∧
       length (seen_papers (store w')) =
         (length (seen_papers (store w)) + delivered evs)%nat) ∧
  (∀ w r w',
     cycle w = (r, w') →
     ∃ evs, trace w' = trace w ++ evs ∧
       r = Ok (delivered_completed evs 0) ∧
       (delivered_completed evs 0 ≤ delivered evs)%nat ∧
       (failed_terms evs = [] → r = Ok (delivered evs))).
Proof.
  split_and!.
  - intros kw p n w m w' Hrow.
    pose proof Hrow as (evs & Hstep & -> & Hle & _)%row_summary.
    destruct Hstep as (Ht & _ & _ & _ & _ & Hl).
    by exists evs.
  - intros kw ps n w m w' (evs & Hstep & -> & _)%rows_summary.
    destruct Hstep as (Ht & _ & _ & _ & _ & Hl). by exists evs.
  - intros w r w' (evs & Hstep & -> & Hnf & _)%cycle_summary.
    destruct Hstep as (Ht & _). exists evs. split_and!; try done.
    + apply (delivered_completed_le evs 0).
    + intros H. by rewrite Hnf.
Qed.


(** C10 (a notification failure ends the keyword). When a candidate is
    claimed and its notification raises, the candidate loop of that
    keyword ends there: its result is the same whatever candidates come
    behind the failing one, the trace ends with the claim, the failed
    post and the release of the failing candidate, and the rows stored
    are those stored before it. The keyword loop prints the error and
    goes on with the next keyword, and the remaining keywords are all
    searched and counted. *)
Theorem notify_failure_stops_keyword :
  ∀ kw pre p post ts total w0 w m w1 fp db' e w2,
    fetch_scholar_results search_pubs kw PER_KEYWORD_LIMIT w0 =
      (Ok (pre ++ p :: post), w) →
    rows kw pre 0%nat w = (Ok m, w1) →
    fp_of p = Some fp →
    claim kw fp p (utcnow_iso (length (trace w1))) (store w1) = (Claimed, db') →
    send kw p (World db' (trace w1 ++ [EvInsert kw fp true])) = (Raise e, w2) →
    let w' := World (release kw fp db') (trace w2 ++ [EvDelete kw fp]) in
    let w'' := World (store w') (trace w' ++ [EvPrint (error_line kw e)]) in
    (∀ post', rows kw (pre ++ p :: post') 0%nat w = (Raise e, w')) ∧
    seen_papers (store w') = seen_papers (store w1) ∧
    (∃ posts, Forall post_event posts ∧ delivered posts = 0%nat ∧
       trace w' =
         trace w1 ++ [EvInsert kw fp true] ++ posts ++ [EvDelete kw fp]) ∧
    keyword kw w0 = (Raise e, w') ∧
    terms_loop (kw :: ts) total w0 = terms_loop ts total w'' ∧
    ∃ evs w3,
      terms_loop ts total w'' =
        (Ok (total + delivered_completed evs 0)%nat, w3) ∧
      trace w3 = trace w'' ++ evs ∧ searched evs = ts.
Proof.
  intros kw pre p post ts total w0 w m w1 fp db' e w2
    Hfetch Hpre Hfp Hclaim Hsend w' w''.
  assert (Hins : insert_seen_papers kw fp p
                   (utcnow_iso (length (trace w1))) (store w1) = Ok db').
  { unfold claim in Hclaim.
    by destruct (insert_seen_papers _ _ _ _ _); inversion Hclaim. }
  pose proof (row_rollback _ _ m _ _ _ _ _ Hfp Hins Hsend) as Hrow.
  pose proof Hsend as (Hst & posts & Htr & Hposts & Hd & _)%send_summary.
  simpl in Hst, Htr. rewrite Hst in Hrow. fold w' in Hrow.
  assert (Hstop : ∀ post', rows kw (pre ++ p :: post') 0%nat w = (Raise e, w'))
    by (intros post'; by eapply rows_stop).
  assert (Hkw : keyword kw w0 = (Raise e, w'))
    by by rewrite keyword_unfold, Hfetch.
  split_and!; try done.
  - by eapply release_insert.
  - exists posts. split_and!; try done.
    subst w'. simpl. by rewrite Htr, <-!app_assoc.
  - by rewrite terms_cons, Hkw.
  - destruct (terms_loop ts total w'') as [r w3] eqn:Hrest.
    apply terms_summary in Hrest as (evs & Hstep & -> & _).
    destruct Hstep as (Ht & Hs & _). by exists evs, w3.
Qed.

End Cycle.

(** C1, at the second candidate of [gnn] in the concrete run, and for
    the whole cycle on [w3]. *)
Lemma claim_notify_atomicity_witness :
  (process_row Scenario.hook Scenario.post Scenario.clock
     Scenario.gnn Scenario.paperB 1 Scenario.w_gnnA).1 =
    Raise (HTTPError 500) ∧
  ¬ has_seen Scenario.gnn Scenario.fpB
      (store (process_row Scenario.hook Scenario.post Scenario.clock
                Scenario.gnn Scenario.paperB 1 Scenario.w_gnnA).2) ∧
  ∃ total evs,
    (run_cycle Scenario.hook Scenario.limit Scenario.search Scenario.post
       Scenario.clock Scenario.w3).1 = Ok total ∧
    trace (run_cycle Scenario.hook Scenario.limit Scenario.search
             Scenario.post Scenario.clock Scenario.w3).2 =
      trace Scenario.w3 ++ evs ∧
    (∀ kw fp, EvDelete kw fp ∈ evs →
       ¬ has_seen kw fp
           (store (run_cycle Scenario.hook Scenario.limit Scenario.search
                     Scenario.post Scenario.clock Scenario.w3).2)) ∧
    (total ≤ delivered evs)%nat.
Proof.
  destruct (claim_notify_atomicity Scenario.hook Scenario.limit
              Scenario.search Scenario.post Scenario.clock)
    as [Hstep Hcycle].
  destruct (Hstep Scenario.gnn Scenario.paperB 1%nat Scenario.w_gnnA
              Scenario.fpB Scenario.dbB (HTTPError 500) Scenario.w_gnnB)
    as (Hrow & _ & Hgone & _); [vm_compute; reflexivity..|].
  rewrite Hrow. 
  split; [reflexivity|]. 
  split; [exact Hgone|].
  destruct (Hcycle Scenario.w3 _ _
              ltac:(apply (bool_decide_unpack _); vm_compute; exact I)
              (surjective_pairing _))
    as (total & evs & Hr & Ht & Hd & Hle & _).
  exists total, evs.
  exact (conj Hr (conj Ht (conj Hd Hle))).
Defined.

(** C3 (a defect of the code). On the world with the keyword [gnn]
    alone the first candidate is claimed and delivered, the counter of
    the candidate loop goes up to 1 and the row stays; the notification
    of the second candidate raises, [process_keyword] is left by the
    re-raise without returning its counter, and the cycle returns 0
    although one item was newly delivered. *)
Lemma run_cycle_loses_delivered_count :
  trace Scenario.w1 = [] ∧
  (process_rows Scenario.hook Scenario.post Scenario.clock Scenario.gnn
     [Scenario.paperA] 0
     (fetch_scholar_results Scenario.search Scenario.gnn Scenario.limit
        Scenario.w1).2).1 = Ok 1%nat ∧
  (process_keyword Scenario.hook Scenario.limit Scenario.search
     Scenario.post Scenario.clock Scenario.gnn Scenario.w1).1 =
    Raise (HTTPError 500) ∧
  (run_cycle Scenario.hook Scenario.limit Scenario.search Scenario.post
     Scenario.clock Scenario.w1).1 = Ok 0%nat ∧
  delivered
    (trace (run_cycle Scenario.hook Scenario.limit Scenario.search
              Scenario.post Scenario.clock Scenario.w1).2) = 1%nat ∧
  length
    (seen_papers
       (store (run_cycle Scenario.hook Scenario.limit Scenario.search
                 Scenario.post Scenario.clock Scenario.w1).2)) = 1%nat.
Proof. vm_compute. repeat (split; [reflexivity|]). reflexivity. Qed.

(** The returned count at the first candidate of [gnn] and for the
    cycle on [w3], which returns 3 while 4 notifications were
    delivered. *)
Lemma run_cycle_counts_completed_keywords_witness :
  (∃ evs,
     trace (process_row Scenario.hook Scenario.post Scenario.clock
              Scenario.gnn Scenario.paperA 0 Scenario.w_gnn).2 =
       trace Scenario.w_gnn ++ evs ∧
     1%nat = (0 + delivered evs)%nat) ∧
  (∃ evs,
     trace (run_cycle Scenario.hook Scenario.limit Scenario.search
              Scenario.post Scenario.clock Scenario.w3).2 =
       trace Scenario.w3 ++ evs ∧
     (run_cycle Scenario.hook Scenario.limit Scenario.search
        Scenario.post Scenario.clock Scenario.w3).1 =
       Ok (delivered_completed evs 0) ∧
     (delivered_completed evs 0 ≤ delivered evs)%nat) ∧
  (run_cycle Scenario.hook Scenario.limit Scenario.search
     Scenario.post Scenario.clock Scenario.w3).1 = Ok 3%nat.
Proof.
  destruct (run_cycle_counts_completed_keywords Scenario.hook Scenario.limit
              Scenario.search Scenario.post Scenario.clock)
    as (Hrow & _ & Hcycle).
  split; [|split].
  - destruct (Hrow Scenario.gnn Scenario.paperA 0%nat Scenario.w_gnn 1%nat
                (process_row Scenario.hook Scenario.post Scenario.clock
                   Scenario.gnn Scenario.paperA 0 Scenario.w_gnn).2)
      as (evs & Ht & Hm & _); [vm_compute; reflexivity|].
    exists evs. exact (conj Ht Hm).
  - destruct (Hcycle Scenario.w3 _ _ (surjective_pairing _))
      as (evs & Ht & Hr & Hle & _).
    exists evs. exact (conj Ht (conj Hr Hle)).
  - vm_compute. reflexivity.
Defined.


(** C10 on the concrete run: the second candidate of [gnn] fails, the
    third is not reached, [zeta] is processed. *)
Lemma notify_failure_stops_keyword_witness :
  (∀ post',
     process_rows Scenario.hook Scenario.post Scenario.clock Scenario.gnn
       ([Scenario.paperA] ++ Scenario.paperB :: post') 0 Scenario.w_gnn =
     (Raise (HTTPError 500),
      World (release Scenario.gnn Scenario.fpB Scenario.dbB)
        (trace Scenario.w_gnnB ++ [EvDelete Scenario.gnn Scenario.fpB]))) ∧
  process_keyword Scenario.hook Scenario.limit Scenario.search Scenario.post
    Scenario.clock Scenario.gnn Scenario.w_bad =
    (Raise (HTTPError 500),
     World (release Scenario.gnn Scenario.fpB Scenario.dbB)
       (trace Scenario.w_gnnB ++ [EvDelete Scenario.gnn Scenario.fpB])).
Proof.
  destruct (notify_failure_stops_keyword Scenario.hook Scenario.limit
              Scenario.search Scenario.post Scenario.clock
              Scenario.gnn [Scenario.paperA] Scenario.paperB [Scenario.paperC]
              [Scenario.zeta] 0%nat Scenario.w_bad Scenario.w_gnn 1%nat
              Scenario.w_gnnA Scenario.fpB Scenario.dbB (HTTPError 500)
              Scenario.w_gnnB)
    as (Hstop & _ & _ & Hkw & _); [vm_compute; reflexivity..|].
  exact (conj Hstop Hkw).
Defined.

(** ** The store contract *)

Lemma rows_of_le_1 db kw fp :
  seen_unique db → (length (rows_of kw fp db) ≤ 1)%nat.
Proof.
  unfold seen_unique, rows_of. induction (seen_papers db) as [|r l IH].
  - intros _. simpl. lia.
  - rewrite fmap_cons. intros [Hni Hnd]%NoDup_cons.
    destruct (decide (same_pair kw fp r)) as [[Hk Hf]|Hne].
    + rewrite filter_cons_True by done.
      rewrite filter_none; [simpl; lia|].
      apply Forall_forall. intros r' Hr' [Hk' Hf']. apply Hni.
      apply list_elem_of_fmap. exists r'. split; [|done].
      unfold seen_key. congruence.
    + rewrite filter_cons_False by done. by apply IH.
Qed.

Lemma delete_keyword_world kid w :
  delete_keyword kid w =
    (Ok (),
     match select_term_by_id kid (store w) with
     | Some t =>
         World (delete_seen_term t (delete_keywords_id kid (store w))) (trace w)
     | None => w
     end).
Proof.
  unfold delete_keyword. munfold. simpl.
  by destruct (select_term_by_id kid (store w)).
Qed.

Lemma delete_keyword_unique kid w :
  seen_unique (store w) → seen_unique (store (delete_keyword kid w).2).
Proof.
  rewrite delete_keyword_world. simpl.
  destruct (select_term_by_id kid (store w)); [|done].
  unfold seen_unique. simpl. intros Hu.
  eapply sublist_NoDup; [done|]. apply fmap_sublist, sublist_filter.
Qed.

Lemma add_keyword_seen clock t w :
  (add_keyword clock t w).1 = Ok () ∧
  seen_papers (store (add_keyword clock t w).2) = seen_papers (store w).
Proof.
  unfold add_keyword. munfold. simpl.
  destruct (truthy (strip t)); [|done].
  unfold insert_keywords. by case_decide.
Qed.

Lemma keyword_unique URL LIMIT search post clock kw w :
  seen_unique (store w) →
  seen_unique (store (process_keyword URL LIMIT search post clock kw w).2).
Proof.
  destruct (process_keyword _ _ _ _ _ _ _) as [r w'] eqn:Hk.
  apply keyword_summary in Hk as (evs & Hstep & _).
  by destruct Hstep as (_ & _ & _ & Hu & _).
Qed.

Lemma cycle_unique URL LIMIT search post clock w :
  seen_unique (store w) →
  seen_unique (store (run_cycle URL LIMIT search post clock w).2).
Proof.
  destruct (run_cycle _ _ _ _ _ _) as [r w'] eqn:Hc.
  apply cycle_summary in Hc as (evs & Hstep & _).
  by destruct Hstep as (_ & _ & _ & Hu & _).
Qed.

Lemma run_ops_seen kw fp ops db :
  Forall (λ op, ¬ releases kw fp op) ops →
  has_seen kw fp db →
  times_claimed kw fp (run_ops ops db).1 = 0%nat ∧
  has_seen kw fp (run_ops ops db).2.
Proof.
  intros Hnr. revert db.
  induction Hnr as [|[k f p now|k f] ops Hop _ IH]; intros db Hs; [done|..].
  - simpl. unfold claim.
    destruct (insert_seen_papers k f p now db) as [db1|e] eqn:Hi.
    + assert (Hs1 : has_seen kw fp db1)
        by (apply (insert_seen_other _ _ _ _ _ _ kw fp Hi); by left).
      destruct (IH db1 Hs1) as [Hc Hs2].
      destruct (run_ops ops db1) as [won db2]. simpl in *. split; [|done].
      unfold times_claimed in *. rewrite filter_cons_False; [done|].
      intros [= -> ->]. by apply insert_seen_inv in Hi as [Hn _].
    + destruct (IH db Hs) as [Hc Hs2].
      by destruct (run_ops ops db) as [won db2].
  - simpl. apply IH. apply release_other. split; [done|].
    intros [-> ->]. by apply Hop.
Qed.

Lemma run_ops_at_most_once kw fp ops db :
  Forall (λ op, ¬ releases kw fp op) ops →
  (times_claimed kw fp (run_ops ops db).1 ≤ 1)%nat ∧
  (¬ has_seen kw fp db → Exists (claims kw fp) ops →
   times_claimed kw fp (run_ops ops db).1 = 1%nat).
Proof.
  intros Hnr. revert db.
  induction Hnr as [|[k f p now|k f] ops Hop Hnr IH]; intros db.
  { split; [unfold times_claimed; simpl; lia|]. by intros _ ?%Exists_nil. }
  - destruct (decide (has_seen kw fp db)) as [Hs|Hs].
    { destruct (run_ops_seen kw fp (OpClaim k f p now :: ops) db) as [-> _];
        [by constructor|done|]. split; [lia|done]. }
    simpl. unfold claim.
    destruct (insert_seen_papers k f p now db) as [db1|e] eqn:Hi.
    + destruct (decide (k = kw ∧ f = fp)) as [[-> ->]|Hne].
      * destruct (run_ops_seen kw fp ops db1 Hnr) as [Hc _];
          [by eapply insert_seen_has|].
        destruct (run_ops ops db1) as [won db2]. simpl in *.
        unfold times_claimed in *. rewrite filter_cons_True by done.
        simpl. rewrite Hc. split; [lia|done].
      * assert (Hs1 : ¬ has_seen kw fp db1).
        { rewrite (insert_seen_other _ _ _ _ _ _ kw fp Hi).
          intros [?|[??]]; [done|]. apply Hne. done. }
        destruct (IH db1) as [Hle Hone].
        destruct (run_ops ops db1) as [won db2]. simpl in *.
        unfold times_claimed in *. rewrite filter_cons_False.
        -- split; [done|]. intros _ [Hc|Hex]%Exists_cons; [done|]. auto.
        -- intros [= -> ->]. by apply Hne.
    + assert (Hkf : ¬ (k = kw ∧ f = fp)).
      { intros [-> ->]. unfold insert_seen_papers in Hi. by case_decide. }
      destruct (IH db) as [Hle Hone].
      destruct (run_ops ops db) as [won db2]. simpl in *.
      split; [done|]. intros _ [Hc|Hex]%Exists_cons; [done|]. auto.
  - simpl. destruct (IH (release k f db)) as [Hle Hone]. split; [done|].
    intros Hs [[]|Hex]%Exists_cons. apply Hone; [|done].
    rewrite release_other. tauto.
Qed.

(** C2 (at-most-once persisted record). In a run of claims on one
    (keyword, fingerprint) pair that starts on a store not holding the
    pair, with no release in between, the first claim returns [Claimed]
    and inserts the one row of the pair, and every later claim returns
    [AlreadySeen] and leaves the store as it is; on a store that holds
    the pair every claim returns [AlreadySeen] and changes nothing. The
    same holds when claims and releases of other pairs come in between:
    without a release of the pair, at most one of its claims returns
    [Claimed], exactly one when the pair was not stored and is claimed
    at all, and none when it was stored. The
    store of [init_db] holds no pair twice, a store that holds no pair
    twice has at most one row per pair, and claim, release,
    [delete_keyword], [add_keyword], [process_keyword] and [run_cycle]
    keep it so. *)
Theorem at_most_once_record :
  (∀ kw fp p now payloads db,
     ¬ has_seen kw fp db →
     ∃ db',
       claim kw fp p now db = (Claimed, db') ∧
       run_claims kw fp ((p, now) :: payloads) db =
         (Claimed :: replicate (length payloads) AlreadySeen, db') ∧
       length (rows_of kw fp db') = 1%nat ∧
       length (seen_papers db') = S (length (seen_papers db))) ∧
  (∀ kw fp payloads db,
     has_seen kw fp db →
     run_claims kw fp payloads db =
       (replicate (length payloads) AlreadySeen, db)) ∧
  (∀ kw fp ops db,
     Forall (λ op, ¬ releases kw fp op) ops →
     (times_claimed kw fp (run_ops ops db).1 ≤ 1)%nat ∧
     (¬ has_seen kw fp db → Exists (claims kw fp) ops →
      times_claimed kw fp (run_ops ops db).1 = 1%nat) ∧
     (has_seen kw fp db →
      times_claimed kw fp (run_ops ops db).1 = 0%nat)) ∧
  seen_unique init_db ∧
  (∀ db kw fp, seen_unique db → (length (rows_of kw fp db) ≤ 1)%nat) ∧
  (∀ db kw fp p now, seen_unique db → seen_unique (claim kw fp p now db).2) ∧
  (∀ db kw fp, seen_unique db → seen_unique (release kw fp db)) ∧
  (∀ w kid, seen_unique (store w) → seen_unique (store (delete_keyword kid w).2)) ∧
  (∀ clock w t,
     seen_unique (store w) → seen_unique (store (add_keyword clock t w).2)) ∧
  (∀ URL LIMIT search post clock w kw,
     seen_unique (store w) →
     seen_unique (store (process_keyword URL LIMIT search post clock kw w).2)) ∧
  (∀ URL LIMIT search post clock w,
     seen_unique (store w) →
     seen_unique (store (run_cycle URL LIMIT search post clock w).2)).
Proof.
  split_and!.
  - intros kw fp p now payloads db Hn.
    destruct (claim_fresh kw fp p now db Hn) as (db' & Hi & Hc).
    exists db'. split_and!.
    + done.
    + simpl. rewrite Hc, run_claims_seen; [done|].
      by eapply insert_seen_has.
    + by erewrite rows_of_fresh_insert.
    + apply insert_seen_inv in Hi as (_ & _ & ->).
      rewrite length_app. simpl. lia.
  - intros kw fp payloads db. apply run_claims_seen.
  - intros kw fp ops db Hnr.
    destruct (run_ops_at_most_once kw fp ops db Hnr) as [Hle Hone].
    split_and!; [done..|]. intros Hs. by apply run_ops_seen.
  - apply NoDup_nil_2.
  - intros db kw fp. apply rows_of_le_1.
  - intros db kw fp p now. apply claim_unique.
  - intros db kw fp. apply release_unique.
  - intros w kid. apply delete_keyword_unique.
  - intros clock w t. unfold seen_unique.
    by destruct (add_keyword_seen clock t w) as [_ ->].
  - intros URL LIMIT search post clock w kw. apply keyword_unique.
  - intros URL LIMIT search post clock w. apply cycle_unique.
Qed.

(** C2 on a fresh database: three claims of one pair. *)
Lemma at_most_once_record_witness :
  ∃ db',
    run_claims Scenario.gnn Scenario.fpB
      [(Scenario.paperB, Scenario.clock 0); (Scenario.paperB, Scenario.clock 1);
       (Scenario.paperA, Scenario.clock 2)] init_db =
      ([Claimed; AlreadySeen; AlreadySeen], db') ∧
    length (rows_of Scenario.gnn Scenario.fpB db') = 1%nat.
Proof.
  destruct at_most_once_record as (Hrun & _).
  destruct (Hrun Scenario.gnn Scenario.fpB Scenario.paperB (Scenario.clock 0)
              [(Scenario.paperB, Scenario.clock 1);
               (Scenario.paperA, Scenario.clock 2)] init_db)
    as (db' & _ & Hr & Hl & _).
  - intros H. apply Exists_nil in H. exact H.
  - exists db'. exact (conj Hr Hl).
Defined.

(** C7 (release is idempotent and re-enabling). The DELETE of a pair
    that is not stored changes nothing; releasing twice is releasing
    once; after a release the pair is not stored, every other pair is
    stored exactly when it was before, the keywords table is untouched,
    and the next claim of the pair returns [Claimed]. The statement as
    [process_keyword] runs it never raises. *)
Theorem release_idempotent :
  (∀ kw fp db, ¬ has_seen kw fp db → release kw fp db = db) ∧
  (∀ kw fp db, release kw fp (release kw fp db) = release kw fp db) ∧
  (∀ kw fp db, ¬ has_seen kw fp (release kw fp db)) ∧
  (∀ kw fp db, rows_of kw fp (release kw fp db) = []) ∧
  (∀ kw fp db kw' fp',
     has_seen kw' fp' (release kw fp db) ↔
     has_seen kw' fp' db ∧ ¬ (kw' = kw ∧ fp' = fp)) ∧
  (∀ kw fp db, keywords (release kw fp db) = keywords db) ∧
  (∀ kw fp db p now,
     ∃ db', claim kw fp p now (release kw fp db) = (Claimed, db') ∧
            has_seen kw fp db') ∧
  (∀ kw fp w,
     execute_delete kw fp w =
       (Ok (), World (release kw fp (store w)) (trace w ++ [EvDelete kw fp]))).
Proof.
  split_and!.
  - apply release_absent.
  - apply release_release.
  - apply release_gone.
  - intros kw fp db. unfold rows_of. apply filter_none.
    apply Forall_Exists_neg, release_gone.
  - apply release_other.
  - done.
  - intros kw fp db p now.
    destruct (claim_fresh kw fp p now (release kw fp db)) as (db' & Hi & Hc).
    + apply release_gone.
    + exists db'. split; [done|]. by eapply insert_seen_has.
  - done.
Qed.

(** C7 on a fresh database, where the pair is not stored. *)
Lemma release_idempotent_witness :
  release Scenario.gnn Scenario.fpB init_db = init_db.
Proof.
  destruct release_idempotent as (Habsent & _).
  apply (Habsent Scenario.gnn Scenario.fpB init_db).
  intros H. apply Exists_nil in H. exact H.
Defined.

(** ** Deleting a keyword *)

Lemma select_term_inv kid db t :
  select_term_by_id kid db = Some t →
  ∃ r, r ∈ keywords db ∧ id r = kid ∧ term r = t.
Proof.
  unfold select_term_by_id.
  destruct (head (filter _ (keywords db))) as [r|] eqn:Hh; [|done].
  intros [= <-]. apply head_Some_elem_of in Hh.
  apply list_elem_of_filter in Hh as [Hid Hin]. by exists r.
Qed.

Lemma NoDup_fmap_eq {A B} (f : A → B) (l : list A) x y :
  NoDup (f <$> l) → x ∈ l → y ∈ l → f x = f y → x = y.
Proof.
  induction l as [|a l IH]; [by intros _ ?%elem_of_nil|].
  rewrite fmap_cons. intros [Hni Hnd]%NoDup_cons.
  intros [->|Hx]%elem_of_cons [->|Hy]%elem_of_cons Hf; auto.
  - destruct Hni. rewrite Hf. by apply list_elem_of_fmap_2.
  - destruct Hni. rewrite <-Hf. by apply list_elem_of_fmap_2.
Qed.

Lemma has_seen_delete_term t db k fp :
  has_seen k fp (delete_seen_term t db) ↔ has_seen k fp db ∧ k ≠ t.
Proof.
  unfold has_seen, delete_seen_term. simpl. rewrite !Exists_exists. split.
  - intros (r & [Hne Hr]%list_elem_of_filter & [Hk Hf]).
    split; [by exists r|]. congruence.
  - intros [(r & Hr & [Hk Hf]) Hne]. exists r. split; [|done].
    apply list_elem_of_filter. split; [congruence|done].
Qed.

(** C8 (cascade delete). Deleting the keyword with a given id, on a
    keywords table with unique terms, removes its row, so that no row
    with that id or that term remains and the term is no longer part of
    a cycle's snapshot; it removes every [seen_papers] row of that term
    and no row of another term, and keeps the other keywords. When the
    same term is added again it is part of the snapshot, and the claim
    of any fingerprint under it, also one stored before the delete,
    returns [Claimed]. *)
Theorem cascade_delete :
  ∀ w kid t,
    keywords_unique (store w) →
    select_term_by_id kid (store w) = Some t →
    let w' := (delete_keyword kid w).2 in
    (delete_keyword kid w).1 = Ok () ∧
    (∀ r, r ∈ keywords (store w') ↔ r ∈ keywords (store w) ∧ id r ≠ kid) ∧
    (∀ r, r ∈ keywords (store w') → term r ≠ t) ∧
    (t ∉ select_terms (store w')) ∧
    (∀ fp, ¬ has_seen t fp (store w')) ∧
    (∀ k fp, k ≠ t → has_seen k fp (store w') ↔ has_seen k fp (store w)) ∧
    (∀ clock,
       strip t = t → t ≠ [] →
       let w'' := (add_keyword clock t w').2 in
       t ∈ select_terms (store w'') ∧
       seen_papers (store w'') = seen_papers (store w') ∧
       ∀ fp p now, ∃ db', claim t fp p now (store w'') = (Claimed, db')).
Proof.
  intros w kid t Hu Hsel w'.
  assert (Hw' : w' = World (delete_seen_term t
                              (delete_keywords_id kid (store w))) (trace w)).
  { subst w'. by rewrite delete_keyword_world, Hsel. }
  destruct (select_term_inv _ _ _ Hsel) as (r0 & Hr0 & Hid0 & Ht0).
  assert (Hrows : ∀ r, r ∈ keywords (store w') → id r ≠ kid ∧ term r ≠ t).
  { intros r. rewrite Hw'. simpl.
    intros [Hne Hr]%list_elem_of_filter. split; [done|].
    intros Ht. apply Hne.
    assert (r = r0) as ->; [|done].
    apply (NoDup_fmap_eq term (keywords (store w))); [done..|congruence]. }
  assert (Hgone : ∀ fp, ¬ has_seen t fp (store w')).
  { intros fp. rewrite Hw'. simpl. rewrite has_seen_delete_term. tauto. }
  split_and!.
  - by rewrite delete_keyword_world.
  - intros r. rewrite Hw'. simpl. rewrite list_elem_of_filter. tauto.
  - intros r Hr. by destruct (Hrows r Hr).
  - rewrite select_terms_perm. intros (r & Ht & Hr)%list_elem_of_fmap.
    by destruct (Hrows r Hr).
  - done.
  - intros k fp Hne. rewrite Hw'. simpl. rewrite has_seen_delete_term.
    unfold has_seen. simpl. tauto.
  - intros clock Hstrip Hne w''.
    assert (Hadd : store w'' =
              Database (keywords (store w') ++
                          [KeywordRow (keywords_seq (store w') + 1) t
                             (clock (length (trace w')))])
                (keywords_seq (store w') + 1)
                (seen_papers (store w')) (seen_papers_seq (store w'))).
    { subst w''. unfold add_keyword. munfold. rewrite Hstrip.
      destruct t; [done|]. simpl. unfold insert_keywords.
      rewrite decide_False; [done|].
      intros (r & Hr & Ht)%Exists_exists. by destruct (Hrows r Hr). }
    split_and!.
    + rewrite select_terms_perm, Hadd. simpl. rewrite fmap_app.
      apply elem_of_app. right. by apply list_elem_of_singleton.
    + by rewrite Hadd.
    + intros fp p now.
      destruct (claim_fresh t fp p now (store w'')) as (db' & _ & Hc);
        [|by exists db'].
      unfold has_seen. rewrite Hadd. simpl. apply Hgone.
Qed.

(** C8 on the concrete run: after a cycle on [w3] the keyword [zeta],
    whose id is 3, is deleted. *)
Lemma cascade_delete_witness :
  (∀ fp,
     ¬ has_seen Scenario.zeta fp
         (store (delete_keyword 3
                   (run_cycle Scenario.hook Scenario.limit Scenario.search
                      Scenario.post Scenario.clock Scenario.w3).2).2)) ∧
  Scenario.zeta ∉
    select_terms
      (store (delete_keyword 3
                (run_cycle Scenario.hook Scenario.limit Scenario.search
                   Scenario.post Scenario.clock Scenario.w3).2).2).
Proof.
  destruct (cascade_delete
              (run_cycle Scenario.hook Scenario.limit Scenario.search
                 Scenario.post Scenario.clock Scenario.w3).2
              3 Scenario.zeta)
    as (_ & _ & _ & Hsel & Hgone & _).
  - apply (bool_decide_unpack _). vm_compute. exact I.
  - vm_compute. reflexivity.
  - exact (conj Hgone Hsel).
Defined.

(** The scenario of the spec, run: the first cycle reports three new
    items and stores three rows, the second reports none, the delete
    leaves no row, and after the keyword is added again the third cycle
    reports the same three items as new. *)
Example cascade_delete_scenario :
  (Scenario.cycle_of Scenario.z0).1 = Ok 3%nat ∧
  length (seen_papers (store Scenario.z1)) = 3%nat ∧
  (Scenario.cycle_of Scenario.z1).1 = Ok 0%nat ∧
  length (seen_papers (store Scenario.z2)) = 3%nat ∧
  seen_papers (store Scenario.z3) = [] ∧
  keywords (store Scenario.z3) = [] ∧
  (Scenario.cycle_of Scenario.z4).1 = Ok 3%nat ∧
  length (seen_papers (store Scenario.z5)) = 3%nat.
Proof. vm_compute. repeat (split; [reflexivity|]). reflexivity. Qed.


(** ** The notifier *)

(** C9 (notifier contract). With an empty webhook URL [send_to_discord]
    raises its RuntimeError and the world is unchanged: no post was
    made. With a webhook URL it makes exactly one post, of the composed
    message, and returns normally exactly when the response is not a
    4xx or 5xx status. The message holds the keyword, and an empty
    title, year or authors string is replaced by "Untitled",
    "Year n/a" or "Unknown authors". *)
Theorem notifier_contract :
  ∀ URL post kw p w,
    (URL = [] →
       send_to_discord URL post kw p w =
         (Raise (RuntimeError
                   (lit "DISCORD_WEBHOOK_URL missing; set it in .env")), w)) ∧
    (URL ≠ [] →
       let content := discord_content kw p in
       let r := post (length (trace w)) URL content in
       (send_to_discord URL post kw p w).2 =
         World (store w) (trace w ++ [EvPost URL content r]) ∧
       ((send_to_discord URL post kw p w).1 = Ok () ↔ post_ok r = true)) ∧
    (∃ pre suf, discord_content kw p = pre ++ kw ++ suf) ∧
    (p_title p = [] →
       discord_content kw p =
         discord_content kw
           (Paper (lit "Untitled") (p_url p) (p_authors p) (p_year p))) ∧
    (p_year p = [] →
       discord_content kw p =
         discord_content kw
           (Paper (p_title p) (p_url p) (p_authors p) (lit "Year n/a"))) ∧
    (p_authors p = [] →
       discord_content kw p =
         discord_content kw
           (Paper (p_title p) (p_url p) (lit "Unknown authors") (p_year p))) ∧
    (p_title p ≠ [] → p_year p ≠ [] → p_authors p ≠ [] →
       discord_content kw p =
         lit "**New paper found** for **" ++ kw ++ lit "**" ++ nl ++
         lit "**" ++ p_title p ++ lit "** (" ++ p_year p ++ lit ")" ++ nl ++
         lit "*" ++ p_authors p ++ lit "*" ++ nl ++ p_url p).
Proof.
  intros URL post kw p w. split_and!.
  - apply send_unconfigured.
  - intros Hu content r. rewrite send_configured by done.
    fold content. fold r. destruct (post_ok r) eqn:Ho.
    + by rewrite raise_for_status_ok.
    + destruct (raise_for_status_fail r
        (World (store w) (trace w ++ [EvPost URL content r])) Ho)
        as (e & -> & _). done.
  - unfold discord_content. by eexists _, _.
  - unfold discord_content. simpl. by intros ->.
  - unfold discord_content. simpl. by intros ->.
  - unfold discord_content. simpl. by intros ->.
  - unfold discord_content.
    destruct (p_title p), (p_year p), (p_authors p), (p_url p); done.
Qed.

(** C9 with no webhook configured, and with the webhook of the
    concrete run on a candidate that has a title only. *)
Lemma notifier_contract_witness :
  send_to_discord [] Scenario.post Scenario.gnn Scenario.paperB Scenario.w1 =
    (Raise (RuntimeError (lit "DISCORD_WEBHOOK_URL missing; set it in .env")),
     Scenario.w1) ∧
  discord_content Scenario.gnn Scenario.paperB =
    discord_content Scenario.gnn
      (Paper (lit "Paper B") [] (lit "Unknown authors") (lit "Year n/a")) ∧
  (send_to_discord Scenario.hook Scenario.post Scenario.zeta Scenario.paperB
     Scenario.w1).1 = Ok ().
Proof.
  destruct (notifier_contract [] Scenario.post Scenario.gnn Scenario.paperB
              Scenario.w1) as (Hmissing & _ & _ & _ & Hyear & _).
  destruct (notifier_contract [] Scenario.post Scenario.gnn
              (Paper (lit "Paper B") [] [] (lit "Year n/a")) Scenario.w1)
    as (_ & _ & _ & _ & _ & Hauthors & _).
  destruct (notifier_contract Scenario.hook Scenario.post Scenario.zeta
              Scenario.paperB Scenario.w1) as (_ & Hconf & _).
  split; [exact (Hmissing eq_refl)|]. split.
  - exact (eq_trans (Hyear eq_refl) (Hauthors eq_refl)).
  - destruct Hconf as [_ Hok]; [discriminate|].
    apply Hok. vm_compute. reflexivity.
Defined.


(** ** The fingerprint *)

Lemma utf8_char_scalar c : is_Some (utf8_char c) ↔ scalar c.
Proof.
  unfold utf8_char, scalar.
  destruct (N.ltb_spec c 0x80); [split; [intros _; lia|by eexists]|].
  destruct (N.ltb_spec c 0x800); [split; [intros _; lia|by eexists]|].
  destruct (N.ltb_spec c 0x10000).
  - destruct (N.leb_spec 0xD800 c), (N.leb_spec c 0xDFFF); simpl;
      (split; [intros [? Hs]; try done; lia|intros [? Hs]; try by eexists]).
    destruct Hs. lia.
  - destruct (N.ltb_spec c 0x110000).
    + split; [intros _; lia|by eexists].
    + split; [by intros [? ?]|lia].
Qed.

Lemma encode_utf8_scalar s : is_Some (encode_utf8 s) ↔ Forall scalar s.
Proof.
  induction s as [|c s IH]; simpl.
  - split; [by constructor|by eexists].
  - rewrite Forall_cons, <-IH, <-utf8_char_scalar.
    destruct (utf8_char c), (encode_utf8 s); split;
      try (intros [? ?]; done); try (intros [[? ?] [? ?]]; done);
      by eexists.
Qed.

Lemma lor_add_small a x k : a mod 2 ^ k = 0 → x < 2 ^ k → N.lor a x = a + x.
Proof.
  intros Ha Hx.
  assert (Hland : N.land a x = 0).
  { rewrite <-(N.mod_small x (2 ^ k)) by done.
    rewrite <-N.land_ones, (N.land_comm x), N.land_assoc, N.land_ones, Ha.
    apply N.land_0_l. }
  rewrite <-N.lxor_lor by done. symmetry. by apply N.add_nocarry_lxor.
Qed.

Lemma cont_byte x : N.lor 0x80 (N.land x 0x3F) = 0x80 + x mod 64.
Proof.
  change 0x3F with (N.ones 6). rewrite N.land_ones.
  apply (lor_add_small _ _ 6); [done|]. by apply N.mod_lt.
Qed.

Lemma shiftr_6 x : N.shiftr x 6 = x / 64.
Proof. by rewrite N.shiftr_div_pow2. Qed.

Lemma shiftr_12 x : N.shiftr x 12 = x / 64 / 64.
Proof. change 12 with (6 + 6). by rewrite <-N.shiftr_shiftr, !shiftr_6. Qed.

Lemma shiftr_18 x : N.shiftr x 18 = x / 64 / 64 / 64.
Proof. change 18 with (6 + 12). by rewrite <-N.shiftr_shiftr, shiftr_12, shiftr_6. Qed.

Lemma div_64_lt x n : x < 64 * n → x / 64 < n.
Proof. intros H. apply N.Div0.div_lt_upper_bound. lia. Qed.

Lemma div_mod_64_eq x y : x / 64 = y / 64 → x mod 64 = y mod 64 → x = y.
Proof.
  intros Hd Hm. rewrite (N.div_mod x 64), (N.div_mod y 64) by done.
  by rewrite Hd, Hm.
Qed.

Lemma utf8_char_arith c :
  utf8_char c =
    if c <? 0x80 then Some [c]
    else if c <? 0x800 then Some [0xC0 + c / 64; 0x80 + c mod 64]
    else if c <? 0x10000 then
      if (0xD800 <=? c) && (c <=? 0xDFFF) then None
      else Some [0xE0 + c / 64 / 64; 0x80 + (c / 64) mod 64; 0x80 + c mod 64]
    else if c <? 0x110000 then
      Some [0xF0 + c / 64 / 64 / 64; 0x80 + (c / 64 / 64) mod 64;
            0x80 + (c / 64) mod 64; 0x80 + c mod 64]
    else None.
Proof.
  unfold utf8_char. rewrite !cont_byte, shiftr_18, shiftr_12, !shiftr_6.
  destruct (N.ltb_spec c 0x80); [done|].
  destruct (N.ltb_spec c 0x800).
  { rewrite (lor_add_small _ _ 5); [done|done|].
    apply div_64_lt. by change (64 * 2 ^ 5) with 0x800. }
  destruct (N.ltb_spec c 0x10000).
  { destruct (_ && _); [done|].
    rewrite (lor_add_small _ _ 4); [done|done|].
    do 2 apply div_64_lt. by change (64 * (64 * 2 ^ 4)) with 0x10000. }
  destruct (N.ltb_spec c 0x110000); [|done].
  rewrite (lor_add_small _ _ 3); [done|done|].
  do 3 apply div_64_lt. change (64 * (64 * (64 * 2 ^ 3))) with 0x200000. lia.
Qed.

Lemma utf8_char_prefix c c' bs bs' r r' :
  utf8_char c = Some bs → utf8_char c' = Some bs' →
  bs ++ r = bs' ++ r' → c = c' ∧ r = r'.
Proof.
  rewrite !utf8_char_arith.
  assert (Hb1 : ∀ x, x < 0x800 → x / 64 < 32)
    by (intros x Hx; by apply div_64_lt).
  assert (Hb2 : ∀ x, x < 0x10000 → x / 64 / 64 < 16)
    by (intros x Hx; by do 2 apply div_64_lt).
  assert (Hb3 : ∀ x, x < 0x110000 → x / 64 / 64 / 64 < 8)
    by (intros x Hx; do 3 apply div_64_lt; lia).
  pose proof (Hb1 c). pose proof (Hb1 c').
  pose proof (Hb2 c). pose proof (Hb2 c').
  pose proof (Hb3 c). pose proof (Hb3 c').
  pose proof (N.mod_lt c 64). pose proof (N.mod_lt c' 64).
  destruct (N.ltb_spec c 0x80), (N.ltb_spec c' 0x80).
  all: destruct (N.ltb_spec c 0x800), (N.ltb_spec c' 0x800); try lia.
  all: destruct (N.ltb_spec c 0x10000), (N.ltb_spec c' 0x10000); try lia.
  all: destruct (N.ltb_spec c 0x110000), (N.ltb_spec c' 0x110000); try lia.
  all: repeat (match goal with
               | |- context [if ?b then _ else _] => destruct b
               end); try done.
  all: intros [= <-] [= <-]; simpl; intros Heq; injection Heq; clear Heq;
    intros; try (exfalso; lia).
  all: try (split; [|done]; repeat (apply div_mod_64_eq; [|lia]); lia).
  all: exfalso; clear Hb1 Hb2 Hb3.
  all: repeat match goal with H : _ = _ :: _ |- _ => clear H end.
  all: repeat match goal with
              | H : context [N.div ?a 64] |- _ =>
                  let q := fresh "q" in set (q := N.div a 64) in *; clearbody q
              | H : context [N.modulo ?a 64] |- _ =>
                  let q := fresh "q" in set (q := N.modulo a 64) in *; clearbody q
              end.
  all: lia.
Qed.

Lemma utf8_char_nonempty c : utf8_char c ≠ Some [].
Proof.
  unfold utf8_char.
  repeat (match goal with |- context [if ?b then _ else _] => destruct b end);
    done.
Qed.

Lemma encode_cons_inv c s m :
  encode_utf8 (c :: s) = Some m →
  ∃ b bs r,
    utf8_char c = Some (b :: bs) ∧ encode_utf8 s = Some r ∧ m = b :: bs ++ r.
Proof.
  simpl. destruct (utf8_char c) as [[|b bs]|] eqn:Hc.
  - by apply utf8_char_nonempty in Hc.
  - destruct (encode_utf8 s) as [r|]; [|done].
    intros [= <-]. by exists b, bs, r.
  - done.
Qed.

Lemma encode_utf8_inj s s' m :
  encode_utf8 s = Some m → encode_utf8 s' = Some m → s = s'.
Proof.
  revert s' m. induction s as [|c s IH]; intros [|c' s'] m.
  - done.
  - intros [= <-] (b & bs & r & _ & _ & [=])%encode_cons_inv.
  - intros (b & bs & r & _ & _ & ->)%encode_cons_inv [=].
  - intros (b & bs & r & Hc & Hs & ->)%encode_cons_inv.
    intros (b' & bs' & r' & Hc' & Hs' & Happ)%encode_cons_inv.
    destruct (utf8_char_prefix c c' (b :: bs) (b' :: bs') r r' Hc Hc' Happ)
      as [-> ->].
    f_equal. by eapply IH.
Qed.

Lemma fingerprint_base_join t a y u :
  fingerprint_base t a y u = join (lit "|") (strip <$> [t; a; y; u]).
Proof. reflexivity. Qed.

Lemma fingerprint_refines t a y u :
  _fingerprint t a y u = spec_fingerprint t a y u.
Proof.
  unfold _fingerprint, spec_fingerprint. rewrite fingerprint_base_join.
  by destruct (encode_utf8 _).
Qed.

Lemma fingerprint_some t a y u fp :
  _fingerprint t a y u = Some fp ↔
  ∃ m, encode_utf8 (fingerprint_base t a y u) = Some m ∧
       fp = Sha256.sha256_hex m.
Proof.
  unfold _fingerprint. destruct (encode_utf8 _) as [m|]; split.
  - intros [= <-]. by exists m.
  - by intros (m' & [= <-] & ->).
  - done.
  - by intros (m' & [=] & _).
Qed.

Lemma land_15_lt x : N.land x 15 < 16.
Proof.
  change 15 with (N.ones 4). rewrite N.land_ones.
  by apply N.mod_lt.
Qed.

Lemma hexdigit_is_hex d : d < 16 → is_hex (Sha256.hexdigit d).
Proof.
  intros Hd. unfold is_hex, Sha256.hexdigit.
  destruct (N.ltb_spec d 10); lia.
Qed.

Lemma hex8_is_hex w : Forall is_hex (Sha256.hex8 w).
Proof.
  unfold Sha256.hex8.
  repeat (constructor; [apply hexdigit_is_hex, land_15_lt|]). constructor.
Qed.

Lemma sha256_hex_shape m :
  length (Sha256.sha256_hex m) = 64%nat ∧ Forall is_hex (Sha256.sha256_hex m).
Proof.
  unfold Sha256.sha256_hex, Sha256.hexdigest. split.
  - by rewrite !length_app.
  - repeat (apply Forall_app; split; [apply hex8_is_hex|]). apply hex8_is_hex.
Qed.

Lemma scalar_bar : scalar 124.
Proof. unfold scalar. lia. Qed.

Lemma fingerprint_base_scalar t a y u :
  Forall scalar (fingerprint_base t a y u) ↔
  Forall scalar (strip t) ∧ Forall scalar (strip a) ∧
  Forall scalar (strip y) ∧ Forall scalar (strip u).
Proof.
  unfold fingerprint_base. change (lit "|") with [124].
  rewrite !Forall_app, !Forall_singleton.
  pose proof scalar_bar. tauto.
Qed.

(** C5, amended (the fingerprint is the SHA-256 of the trimmed join).
    [_fingerprint] computes what the spec describes: the SHA-256 digest,
    in hexadecimal, of the UTF-8 encoding of the four trimmed fields
    joined with "|" in the order title, authors, year, url. It returns a
    digest exactly when the trimmed fields hold Unicode scalar values
    only (a lone surrogate makes [encode] raise); a digest has 64
    lower-case hexadecimal digits; and tuples whose trimmed fields agree
    have the same result. *)
Theorem fingerprint_is_sha256_of_trimmed_join :
  ∀ t a y u,
    _fingerprint t a y u = spec_fingerprint t a y u ∧
    (is_Some (_fingerprint t a y u) ↔
       Forall scalar (strip t) ∧ Forall scalar (strip a) ∧
       Forall scalar (strip y) ∧ Forall scalar (strip u)) ∧
    (∀ fp, _fingerprint t a y u = Some fp →
       length fp = 64%nat ∧ Forall is_hex fp ∧
       ∃ m, encode_utf8 (strip t ++ lit "|" ++ strip a ++ lit "|" ++
                         strip y ++ lit "|" ++ strip u) = Some m ∧
            fp = Sha256.sha256_hex m) ∧
    (∀ t' a' y' u',
       strip t = strip t' → strip a = strip a' →
       strip y = strip y' → strip u = strip u' →
       _fingerprint t a y u = _fingerprint t' a' y' u').
Proof.
  intros t a y u. split_and!.
  - apply fingerprint_refines.
  - rewrite <-fingerprint_base_scalar, <-encode_utf8_scalar.
    unfold _fingerprint. destruct (encode_utf8 _); split;
      try (by intros [? ?]); by eexists.
  - intros fp (m & Hm & ->)%fingerprint_some.
    destruct (sha256_hex_shape m) as [Hl Hh]. split_and!; [done..|].
    by exists m.
  - intros t' a' y' u' Ht Ha Hy Hu. unfold _fingerprint, fingerprint_base.
    by rewrite Ht, Ha, Hy, Hu.
Qed.

Lemma split_at_bar (a a' r r' : pystr) :
  124 ∉ a → 124 ∉ a' → a ++ 124 :: r = a' ++ 124 :: r' → a = a' ∧ r = r'.
Proof.
  revert a'. induction a as [|x a IH]; intros [|x' a'] Ha Ha'; simpl.
  - by intros [= ->].
  - intros [= <- _]. destruct Ha'. by left.
  - intros [= -> _]. destruct Ha. by left.
  - intros [= -> Hrest].
    apply not_elem_of_cons in Ha as [_ Ha].
    apply not_elem_of_cons in Ha' as [_ Ha'].
    destruct (IH a' Ha Ha' Hrest) as [-> ->]. done.
Qed.

Lemma fingerprint_base_inj t a y u t' a' y' u' :
  124 ∉ strip t → 124 ∉ strip a → 124 ∉ strip y →
  124 ∉ strip t' → 124 ∉ strip a' → 124 ∉ strip y' →
  fingerprint_base t a y u = fingerprint_base t' a' y' u' →
  strip t = strip t' ∧ strip a = strip a' ∧
  strip y = strip y' ∧ strip u = strip u'.
Proof.
  intros Ht Ha Hy Ht' Ha' Hy'. unfold fingerprint_base.
  change (lit "|") with [124]. simpl.
  intros [-> H1]%split_at_bar; [|done..].
  apply split_at_bar in H1 as [-> H2]; [|done..].
  apply split_at_bar in H2 as [-> H3]; [|done..].
  done.
Qed.

(** C6, amended (fingerprint separation). For two tuples on which
    [_fingerprint] returns, and whose trimmed title, authors and year
    hold no "|": when a trimmed field differs, the two fingerprints are
    the SHA-256 digests of two different byte strings, so that they
    coincide only if these two messages collide under SHA-256. *)
Theorem fingerprint_separation :
  ∀ t a y u t' a' y' u' fp fp',
    124 ∉ strip t → 124 ∉ strip a → 124 ∉ strip y →
    124 ∉ strip t' → 124 ∉ strip a' → 124 ∉ strip y' →
    _fingerprint t a y u = Some fp →
    _fingerprint t' a' y' u' = Some fp' →
    (strip t, strip a, strip y, strip u) ≠
      (strip t', strip a', strip y', strip u') →
    ∃ m m',
      encode_utf8 (fingerprint_base t a y u) = Some m ∧
      encode_utf8 (fingerprint_base t' a' y' u') = Some m' ∧
      fp = Sha256.sha256_hex m ∧ fp' = Sha256.sha256_hex m' ∧
      m ≠ m' ∧
      (fp = fp' → Sha256.sha256_hex m = Sha256.sha256_hex m').
Proof.
  intros t a y u t' a' y' u' fp fp' Ht Ha Hy Ht' Ha' Hy'
    (m & Hm & ->)%fingerprint_some (m' & Hm' & ->)%fingerprint_some Hne.
  exists m, m'. split_and!; try done.
  intros <-. apply Hne.
  pose proof (encode_utf8_inj _ _ _ Hm Hm') as Hbase.
  apply fingerprint_base_inj in Hbase as (-> & -> & -> & ->); done.
Qed.

(** The fuel of [chunks] is enough: the blocks hashed are the whole
    padded message. *)
Lemma chunks_concat fuel size (l : list N) :
  (0 < size)%nat → (length l ≤ fuel)%nat →
  concat (Sha256.chunks fuel size l) = l.
Proof.
  intros Hsize. revert l. induction fuel as [|fuel IH]; intros l Hl.
  - destruct l; [done|simpl in Hl; lia].
  - destruct l as [|x l]; [done|].
    change (Sha256.chunks (S fuel) size (x :: l))
      with (take size (x :: l) :: Sha256.chunks fuel size (drop size (x :: l))).
    simpl concat. rewrite IH.
    + apply take_drop.
    + rewrite length_drop. simpl in *. lia.
Qed.

Lemma sha256_blocks msg :
  concat (Sha256.chunks (length (Sha256.pad msg)) 64 (Sha256.pad msg)) =
    Sha256.pad msg.
Proof. apply chunks_concat; lia. Qed.

(** SHA-256 on the test messages of the standard, and [_fingerprint] on
    a tuple whose digest was taken from [hashlib]. *)
Example sha256_vectors :
  Sha256.sha256_hex [] =
    lit "e3b0c44298fc1c149afbf4c8996fb92427ae41e4649b934ca495991b7852b855" ∧
  Sha256.sha256_hex (lit "abc") =
    lit "ba7816bf8f01cfea414140de5dae2223b00361a396177a9cb410ff61f20015ad" ∧
  Sha256.sha256_hex
    (lit "abcdbcdecdefdefgefghfghighijhijkijkljklmklmnlmnomnopnopq") =
    lit "248d6a61d20638b8e5c026930c3e6039a33ce45964ff2167f6ecedd419db06c1".
Proof. vm_compute. split; [|split]; reflexivity. Qed.

Example fingerprint_vector :
  _fingerprint (lit " T ") (lit "A") (lit "2020  ") (lit "http://x") =
    Some (lit "e904a0337cbd16d3b85574e4aa74f5f900624defbbc3d227027985c0cdd10de8") ∧
  _fingerprint [0xe9] [0xdf] (lit "2020") [0x1d4b3] =
    Some (lit "3e4dcc75a0722b11bc736dae1d90905e938763435ca16c8221ebf863f847e84b").
Proof. vm_compute. split; reflexivity. Qed.

(** C5 as stated fails: a title that is a lone surrogate is a Python
    string, and [_fingerprint] raises on it instead of returning. *)
Lemma fingerprint_surrogate_counterexample :
  _fingerprint [0xD800] [] [] [] = None ∧
  spec_fingerprint [0xD800] [] [] [] = None.
Proof. vm_compute. split; reflexivity. Qed.

(** C5 amended, on a tuple with surrounding whitespace. *)
Lemma fingerprint_is_sha256_of_trimmed_join_witness :
  _fingerprint (lit " T ") (lit "A") (lit "2020  ") (lit "http://x") =
    _fingerprint (lit "T") (lit "A") (lit "2020") (lit "http://x") ∧
  length (default [] (_fingerprint (lit " T ") (lit "A") (lit "2020  ")
                        (lit "http://x"))) = 64%nat.
Proof.
  destruct (fingerprint_is_sha256_of_trimmed_join
              (lit " T ") (lit "A") (lit "2020  ") (lit "http://x"))
    as (_ & _ & Hshape & Hsame).
  split.
  - apply Hsame; vm_compute; reflexivity.
  - destruct (Hshape (default [] (_fingerprint (lit " T ") (lit "A")
                                    (lit "2020  ") (lit "http://x"))))
      as (Hl & _); [vm_compute; reflexivity|exact Hl].
Defined.

(** C6 as stated fails: the separator may be part of a field. *)
Lemma fingerprint_separation_counterexample :
  strip (lit "a|b") ≠ strip (lit "a") ∧
  strip (lit "c") ≠ strip (lit "b|c") ∧
  is_Some (_fingerprint (lit "a|b") (lit "c") [] []) ∧
  _fingerprint (lit "a|b") (lit "c") [] [] =
    _fingerprint (lit "a") (lit "b|c") [] [].
Proof.
  vm_compute. split; [discriminate|]. split; [discriminate|].
  split; [by eexists|reflexivity].
Qed.

(** C6 amended, on two tuples that differ in the year. *)
Lemma fingerprint_separation_witness :
  encode_utf8 (fingerprint_base (lit "Paper A") (lit "X") (lit "2024") (lit "http://a")) ≠
  encode_utf8 (fingerprint_base (lit "Paper A") (lit "X") (lit "2025") (lit "http://a")).
Proof.
  destruct (fingerprint_separation
              (lit "Paper A") (lit "X") (lit "2024") (lit "http://a")
              (lit "Paper A") (lit "X") (lit "2025") (lit "http://a")
              (default [] (_fingerprint (lit "Paper A") (lit "X") (lit "2024")
                             (lit "http://a")))
              (default [] (_fingerprint (lit "Paper A") (lit "X") (lit "2025")
                             (lit "http://a"))))
    as (m & m' & Hm & Hm' & _ & _ & Hne & _).
  - apply (bool_decide_unpack _). vm_compute. exact I.
  - apply (bool_decide_unpack _). vm_compute. exact I.
  - apply (bool_decide_unpack _). vm_compute. exact I.
  - apply (bool_decide_unpack _). vm_compute. exact I.
  - apply (bool_decide_unpack _). vm_compute. exact I.
  - apply (bool_decide_unpack _). vm_compute. exact I.
  - vm_compute. reflexivity.
  - vm_compute. reflexivity.
  - vm_compute. discriminate.
  - rewrite Hm, Hm'. intros [= Heq]. exact (Hne Heq).
Defined.

(** * Further properties of the code *)

(** ** [str.strip] *)

Lemma lstrip_cons_nonspace c s : isspace c = false → lstrip (c :: s) = c :: s.
Proof. intros H. simpl. by rewrite H. Qed.

Lemma lstrip_head s c r : lstrip s = c :: r → isspace c = false.
Proof.
  induction s as [|x s IH]; [done|]. simpl.
  destruct (isspace x) eqn:Hx; [done|]. by intros [= <- _].
Qed.

Lemma lstrip_idem s : lstrip (lstrip s) = lstrip s.
Proof.
  destruct (lstrip s) as [|c r] eqn:Hs; [done|].
  apply lstrip_cons_nonspace. by eapply lstrip_head.
Qed.

Lemma lstrip_blank_app ws s : blank ws → lstrip (ws ++ s) = lstrip s.
Proof. induction 1 as [|c ws Hc _ IH]; [done|]. simpl. by rewrite Hc. Qed.

Lemma lstrip_nil_blank s : lstrip s = [] ↔ blank s.
Proof.
  unfold blank. induction s as [|c s IH]; simpl.
  - split; [by constructor|done].
  - destruct (isspace c) eqn:Hc.
    + rewrite IH. split; [by constructor|by intros [_ ?]%Forall_cons].
    + split; [done|]. intros [? _]%Forall_cons. congruence.
Qed.

Lemma lstrip_app s t : lstrip s ≠ [] → lstrip (s ++ t) = lstrip s ++ t.
Proof.
  induction s as [|c s IH]; [done|]. simpl.
  destruct (isspace c); [done|]. done.
Qed.

Lemma lstrip_decomp s : ∃ ws, blank ws ∧ s = ws ++ lstrip s.
Proof.
  induction s as [|c s (ws & Hws & IH)];
    [exists []; split; [constructor|done]|]. simpl.
  destruct (isspace c) eqn:Hc.
  - exists (c :: ws). split; [by constructor|]. simpl. by rewrite <-IH.
  - exists []. split; [constructor|done].
Qed.

Lemma blank_rev ws : blank ws → blank (rev ws).
Proof.
  unfold blank. rewrite !Forall_forall. intros H x Hx. apply H.
  by apply list_elem_of_In, in_rev, list_elem_of_In.
Qed.

Lemma rstrip_app_blank s ws : blank ws → rstrip (s ++ ws) = rstrip s.
Proof.
  intros H. unfold rstrip. rewrite rev_app_distr, lstrip_blank_app; [done|].
  by apply blank_rev.
Qed.

Lemma rstrip_cons_nonspace c s : isspace c = false → rstrip (c :: s) = c :: rstrip s.
Proof.
  intros Hc. unfold rstrip. simpl rev.
  destruct (lstrip (rev s)) as [|x r] eqn:Hs.
  - apply lstrip_nil_blank in Hs. rewrite lstrip_blank_app by done.
    simpl. by rewrite Hc.
  - rewrite lstrip_app by (by rewrite Hs). rewrite Hs.
    by rewrite rev_app_distr.
Qed.

Lemma rstrip_decomp s : ∃ ws, blank ws ∧ s = rstrip s ++ ws.
Proof.
  destruct (lstrip_decomp (rev s)) as (ws & Hws & Hs).
  exists (rev ws). split; [by apply blank_rev|].
  unfold rstrip. by rewrite <-rev_app_distr, <-Hs, rev_involutive.
Qed.

Lemma rstrip_idem s : rstrip (rstrip s) = rstrip s.
Proof. unfold rstrip. by rewrite rev_involutive, lstrip_idem. Qed.

Lemma strip_idem s : strip (strip s) = strip s.
Proof.
  unfold strip. destruct (lstrip s) as [|c r] eqn:Hs; [done|].
  assert (Hc : isspace c = false) by by eapply lstrip_head.
  rewrite rstrip_cons_nonspace by done.
  rewrite lstrip_cons_nonspace by done.
  by rewrite rstrip_cons_nonspace, rstrip_idem.
Qed.

Lemma strip_pad ws1 s ws2 :
  blank ws1 → blank ws2 → strip (ws1 ++ s ++ ws2) = strip s.
Proof.
  intros H1 H2. unfold strip. rewrite lstrip_blank_app by done.
  destruct (lstrip s) as [|c r] eqn:Hs.
  - apply lstrip_nil_blank in Hs.
    assert (Hb : blank (s ++ ws2)) by by apply Forall_app.
    apply lstrip_nil_blank in Hb. by rewrite Hb.
  - rewrite lstrip_app by (by rewrite Hs). rewrite Hs.
    by apply rstrip_app_blank.
Qed.

Lemma strip_decomp s :
  ∃ ws1 ws2, blank ws1 ∧ blank ws2 ∧ s = ws1 ++ strip s ++ ws2.
Proof.
  destruct (lstrip_decomp s) as (ws1 & H1 & Hs1).
  destruct (rstrip_decomp (lstrip s)) as (ws2 & H2 & Hs2).
  exists ws1, ws2. split_and!; [done..|]. unfold strip.
  by rewrite <-Hs2.
Qed.

Lemma strip_elem x s : x ∈ strip s → x ∈ s.
Proof.
  destruct (strip_decomp s) as (ws1 & ws2 & _ & _ & Hs). intros Hx.
  rewrite Hs. apply elem_of_app. right. apply elem_of_app. by left.
Qed.

Lemma strip_head s c r : strip s = c :: r → isspace c = false.
Proof.
  unfold strip. destruct (lstrip s) as [|x l] eqn:Hs; [done|].
  assert (Hx : isspace x = false) by by eapply lstrip_head.
  rewrite rstrip_cons_nonspace by done. by intros [= <- _].
Qed.

Lemma last_rev {A} (l : list A) : last (rev l) = head l.
Proof. destruct l; [done|]. simpl. apply last_snoc. Qed.

Lemma strip_last s c : last (strip s) = Some c → isspace c = false.
Proof.
  unfold strip, rstrip. rewrite last_rev.
  destruct (lstrip (rev (lstrip s))) as [|x l] eqn:Hs; [done|].
  intros [= <-]. by eapply lstrip_head.
Qed.

Lemma strip_clean s : strip s ≠ [] → clean_term (strip s).
Proof. intros H. split; [done|apply strip_idem]. Qed.

Lemma strip_nil_blank s : strip s = [] ↔ blank s.
Proof.
  split.
  - intros Hs. destruct (strip_decomp s) as (ws1 & ws2 & H1 & H2 & Heq).
    rewrite Hs in Heq. rewrite Heq. apply Forall_app. split; [done|].
    by apply Forall_app.
  - intros Hb. rewrite <-(app_nil_r s), <-(app_nil_r (s ++ [])), <-app_assoc.
    rewrite strip_pad; [done|done|constructor].
Qed.

(** X1. Whitespace around a field never changes the fingerprint: a
    field and the same field with blanks before and behind it give the
    same result, stripping the fields beforehand changes nothing, and
    what [strip] returns neither starts nor ends with whitespace. *)
Theorem fingerprint_ignores_outer_whitespace :
  ∀ t a y u,
    (∀ wt1 wt2 wa1 wa2 wy1 wy2 wu1 wu2,
       blank wt1 → blank wt2 → blank wa1 → blank wa2 →
       blank wy1 → blank wy2 → blank wu1 → blank wu2 →
       _fingerprint (wt1 ++ t ++ wt2) (wa1 ++ a ++ wa2)
                    (wy1 ++ y ++ wy2) (wu1 ++ u ++ wu2) =
         _fingerprint t a y u) ∧
    _fingerprint (strip t) (strip a) (strip y) (strip u) =
      _fingerprint t a y u ∧
    (∀ s ws1 ws2, blank ws1 → blank ws2 → strip (ws1 ++ s ++ ws2) = strip s) ∧
    (∀ s, ∃ ws1 ws2, blank ws1 ∧ blank ws2 ∧ s = ws1 ++ strip s ++ ws2) ∧
    (∀ s c, head (strip s) = Some c ∨ last (strip s) = Some c →
            isspace c = false).
Proof.
  intros t a y u. split_and!.
  - intros. unfold _fingerprint, fingerprint_base.
    by rewrite !strip_pad.
  - unfold _fingerprint, fingerprint_base. by rewrite !strip_idem.
  - intros. by apply strip_pad.
  - apply strip_decomp.
  - intros s c [Hh|Hl]; [|by eapply strip_last].
    destruct (strip s) as [|x r] eqn:Hs; [done|].
    injection Hh as ->. by eapply strip_head.
Qed.

(** X1 on a title between a tab and a no-break space. *)
Lemma fingerprint_ignores_outer_whitespace_witness :
  _fingerprint ([9] ++ lit "T" ++ [0xA0]) ([] ++ lit "A" ++ [])
               ([] ++ lit "2020" ++ [32; 32]) ([] ++ lit "http://x" ++ []) =
    _fingerprint (lit "T") (lit "A") (lit "2020") (lit "http://x").
Proof.
  destruct (fingerprint_ignores_outer_whitespace
              (lit "T") (lit "A") (lit "2020") (lit "http://x"))
    as (Hpad & _).
  apply Hpad; repeat constructor.
Defined.

(** ** The provider *)

Lemma take_pubs_acc n s acc :
  take_pubs n s acc =
    match take_pubs n s [] with
    | Ok r => Ok (acc ++ r)
    | Raise e => Raise e
    end.
Proof.
  revert s acc. induction n as [|n IH]; intros s acc; simpl.
  - by rewrite app_nil_r.
  - destruct s as [|e|pub rest]; [by rewrite app_nil_r|done|].
    rewrite (IH rest (acc ++ _)), (IH rest [_]).
    destruct (take_pubs n rest []); [|done]. by rewrite <-app_assoc.
Qed.

Lemma take_pubs_enough n s :
  (n ≤ length (stream_pubs s))%nat →
  take_pubs n s [] = Ok (paper_of_pub <$> take n (stream_pubs s)).
Proof.
  revert s. induction n as [|n IH]; intros s Hn; [done|].
  destruct s as [|e|pub rest]; simpl in Hn; [lia..|].
  simpl. rewrite take_pubs_acc, IH by lia. done.
Qed.

Lemma take_pubs_short n s :
  (length (stream_pubs s) < n)%nat →
  take_pubs n s [] =
    match stream_end s with
    | None => Ok (paper_of_pub <$> stream_pubs s)
    | Some e => Raise e
    end.
Proof.
  revert s. induction n as [|n IH]; intros s Hn; [lia|].
  destruct s as [|e|pub rest]; [done..|]. simpl in Hn.
  simpl. rewrite take_pubs_acc, IH by lia.
  by destruct (stream_end rest).
Qed.

Lemma take_pubs_length n s ps :
  take_pubs n s [] = Ok ps → (length ps ≤ n)%nat.
Proof.
  destruct (decide (n ≤ length (stream_pubs s))%nat) as [Hn|Hn].
  - rewrite take_pubs_enough by done. intros [= <-].
    rewrite length_fmap, length_take. lia.
  - rewrite take_pubs_short by lia.
    destruct (stream_end s); [done|]. intros [= <-].
    rewrite length_fmap. lia.
Qed.

Lemma fetch_unfold search kw num w :
  fetch_scholar_results search kw num w =
    (match search (length (trace w)) kw with
     | Ok s => take_pubs (Z.to_nat num) s []
     | Raise e => Raise e
     end,
     World (store w) (trace w ++ [EvSearch kw])).
Proof.
  unfold fetch_scholar_results. munfold. simpl.
  destruct (search _ _) as [s|e]; [|done].
  by destruct (take_pubs _ _ _).
Qed.

(** X2. [fetch_scholar_results] makes one search call and changes
    nothing else. It returns the first [num] publications of the
    generator in their order, or all of them when the generator stops
    earlier; an exception of the generator is raised only when it comes
    before [num] publications were yielded, and one behind them is never
    met. A result never has more than [num] entries, and for [num] at
    most 0 it is empty. *)
Theorem fetch_first_results :
  ∀ search kw num w,
    (fetch_scholar_results search kw num w).2 =
      World (store w) (trace w ++ [EvSearch kw]) ∧
    (∀ e, search (length (trace w)) kw = Raise e →
       (fetch_scholar_results search kw num w).1 = Raise e) ∧
    (∀ s, search (length (trace w)) kw = Ok s →
       ((Z.to_nat num ≤ length (stream_pubs s))%nat →
        (fetch_scholar_results search kw num w).1 =
          Ok (paper_of_pub <$> take (Z.to_nat num) (stream_pubs s))) ∧
       ((length (stream_pubs s) < Z.to_nat num)%nat →
        (fetch_scholar_results search kw num w).1 =
          match stream_end s with
          | None => Ok (paper_of_pub <$> stream_pubs s)
          | Some e => Raise e
          end) ∧
       ((num ≤ 0)%Z → (fetch_scholar_results search kw num w).1 = Ok [])) ∧
    (∀ ps, (fetch_scholar_results search kw num w).1 = Ok ps →
       (length ps ≤ Z.to_nat num)%nat).
Proof.
  intros search kw num w. rewrite fetch_unfold. simpl. split_and!.
  - done.
  - by intros e ->.
  - intros s ->. split_and!.
    + apply take_pubs_enough.
    + apply take_pubs_short.
    + intros Hn. by replace (Z.to_nat num) with 0%nat by lia.
  - intros ps. destruct (search _ _) as [s|e]; [|done].
    apply take_pubs_length.
Qed.

(** X2 on the provider of the concrete run, asked for two results of
    three, and on a generator that raises behind its second result. *)
Lemma fetch_first_results_witness :
  (fetch_scholar_results Scenario.search Scenario.gnn 2 Scenario.w1).1 =
    Ok [Scenario.paperA; Scenario.paperB] ∧
  (fetch_scholar_results
     (λ _ _, Ok (NextPub Scenario.pubA
                   (NextPub Scenario.pubB (NextRaises RequestException))))
     Scenario.gnn 2 Scenario.w1).1 =
    Ok [Scenario.paperA; Scenario.paperB] ∧
  (fetch_scholar_results
     (λ _ _, Ok (NextPub Scenario.pubA
                   (NextPub Scenario.pubB (NextRaises RequestException))))
     Scenario.gnn 3 Scenario.w1).1 = Raise RequestException.
Proof.
  split; [|split].
  - destruct (fetch_first_results Scenario.search Scenario.gnn 2 Scenario.w1)
      as (_ & _ & Hs & _).
    destruct (Hs (NextPub Scenario.pubA
                    (NextPub Scenario.pubB
                       (NextPub Scenario.pubC StopIteration))))
      as (Henough & _); [reflexivity|].
    apply Henough. vm_compute. lia.
  - destruct (fetch_first_results
                (λ _ _, Ok (NextPub Scenario.pubA
                              (NextPub Scenario.pubB
                                 (NextRaises RequestException))))
                Scenario.gnn 2 Scenario.w1) as (_ & _ & Hs & _).
    destruct (Hs _ eq_refl) as (Henough & _).
    apply Henough. vm_compute. lia.
  - destruct (fetch_first_results
                (λ _ _, Ok (NextPub Scenario.pubA
                              (NextPub Scenario.pubB
                                 (NextRaises RequestException))))
                Scenario.gnn 3 Scenario.w1) as (_ & _ & Hs & _).
    destruct (Hs _ eq_refl) as (_ & Hshort & _).
    apply Hshort. vm_compute. lia.
Defined.

(** ** Lifting a property of one candidate to a cycle *)

Section Lifting.

Variable DISCORD_WEBHOOK_URL : pystr.
Variable PER_KEYWORD_LIMIT : Z.
Variable search_pubs : nat → pystr → res pubstream.
Variable requests_post : nat → pystr → pystr → post_outcome.
Variable utcnow_iso : nat → pystr.

Local Abbreviation send := (send_to_discord DISCORD_WEBHOOK_URL requests_post).
Local Abbreviation row :=
  (process_row DISCORD_WEBHOOK_URL requests_post utcnow_iso).
Local Abbreviation rows :=
  (process_rows DISCORD_WEBHOOK_URL requests_post utcnow_iso).
Local Abbreviation keyword :=
  (process_keyword DISCORD_WEBHOOK_URL PER_KEYWORD_LIMIT search_pubs
     requests_post utcnow_iso).
Local Abbreviation terms_loop :=
  (run_terms DISCORD_WEBHOOK_URL PER_KEYWORD_LIMIT search_pubs
     requests_post utcnow_iso).
Local Abbreviation cycle :=
  (run_cycle DISCORD_WEBHOOK_URL PER_KEYWORD_LIMIT search_pubs
     requests_post utcnow_iso).

(** A relation between the world before and after, kept by doing
    nothing, by doing two things in a row, by a search, a sleep or a
    print, and by the processing of one candidate. *)
Variable R : world → world → Prop.
Hypothesis R_refl : ∀ w, R w w.
Hypothesis R_trans : ∀ w1 w2 w3, R w1 w2 → R w2 w3 → R w1 w3.
Hypothesis R_emit :
  ∀ w ev, ¬ post_event ev → R w (World (store w) (trace w ++ [ev])).
Hypothesis R_row : ∀ kw p n w r w', row kw p n w = (r, w') → R w w'.

Lemma rows_lift kw ps n w r w' : rows kw ps n w = (r, w') → R w w'.
Proof.
  revert n w. induction ps as [|p ps IH]; intros n w.
  - rewrite rows_nil. by intros [= <- <-].
  - rewrite rows_cons. destruct (row kw p n w) as [[m|e] w1] eqn:Hrow.
    + intros H%IH. eapply R_trans; [by eapply R_row|done].
    + intros [= <- <-]. by eapply R_row.
Qed.

Lemma keyword_lift kw w r w' : keyword kw w = (r, w') → R w w'.
Proof.
  rewrite keyword_unfold, fetch_unfold.
  destruct (match search_pubs _ _ with Ok _ => _ | Raise _ => _ end)
    as [ps|e].
  - intros H%rows_lift. eapply R_trans; [|done]. apply R_emit; simpl; tauto.
  - intros [= <- <-]. apply R_emit; simpl; tauto.
Qed.

Lemma terms_lift ts n w r w' : terms_loop ts n w = (r, w') → R w w'.
Proof.
  revert n w. induction ts as [|t ts IH]; intros n w.
  - rewrite terms_nil. by intros [= <- <-].
  - rewrite terms_cons. destruct (keyword t w) as [[k|e] w1] eqn:Hkw;
      apply keyword_lift in Hkw; intros H%IH;
      (eapply R_trans; [done|]); (eapply R_trans; [|done]); apply R_emit; simpl; tauto.
Qed.

Lemma cycle_lift w r w' : cycle w = (r, w') → R w w'.
Proof.
  rewrite cycle_unfold.
  destruct (terms_loop _ _ _) as [[total|e] w1] eqn:Hloop;
    apply terms_lift in Hloop; [|by intros [= <- <-]].
  destruct (0 <? total)%nat; intros [= <- <-]; [|done].
  eapply R_trans; [done|]. apply R_emit; simpl; tauto.
Qed.

End Lifting.

(** ** What a cycle does to the store *)

Lemma row_cases URL post clock kw p n w :
  (fp_of p = None ∧
   process_row URL post clock kw p n w = (Raise UnicodeEncodeError, w)) ∨
  (∃ fp, fp_of p = Some fp ∧ has_seen kw fp (store w) ∧
     process_row URL post clock kw p n w =
       (Ok n, World (store w) (trace w ++ [EvInsert kw fp false]))) ∨
  (∃ fp db' evs,
     fp_of p = Some fp ∧ ¬ has_seen kw fp (store w) ∧
     insert_seen_papers kw fp p (clock (length (trace w))) (store w) = Ok db' ∧
     Forall post_event evs ∧ (URL = [] → evs = []) ∧
     (process_row URL post clock kw p n w =
        (Ok (n + 1)%nat, World db' (trace w ++ EvInsert kw fp true :: evs)) ∧
      delivered evs = 1%nat ∧ URL ≠ [] ∨
      ∃ e, process_row URL post clock kw p n w =
             (Raise e, World (release kw fp db')
                         (trace w ++ EvInsert kw fp true :: evs ++
                            [EvDelete kw fp])) ∧
           delivered evs = 0%nat)).
Proof.
  destruct (fp_of p) as [fp|] eqn:Hfp; [|left; by rewrite row_unencodable].
  right. destruct (decide (has_seen kw fp (store w))) as [Hs|Hs].
  { left. exists fp. by rewrite (row_seen _ _ _ _ _ _ _ fp). }
  right.
  destruct (claim_fresh kw fp p (clock (length (trace w))) (store w) Hs)
    as (db' & Hi & _).
  destruct (send_to_discord URL post kw p
              (World db' (trace w ++ [EvInsert kw fp true])))
    as [[[]|e] w2] eqn:Hsend;
    pose proof Hsend as (Hst & evs & Htr & Hev & Hd)%send_summary;
    simpl in Hst, Htr;
    (assert (Hnil : URL = [] → evs = []);
     [intros ->; rewrite send_unconfigured in Hsend by done;
      injection Hsend as _ <-; simpl in Htr;
      rewrite <-(app_nil_r (trace w ++ _)) in Htr at 1;
      by apply app_inv_head in Htr|]);
    exists fp, db', evs; split_and!; try done.
  - left. rewrite (row_delivered _ _ _ _ _ _ _ fp db' w2) by done.
    destruct w2 as [st tr]. simpl in *. subst.
    rewrite <-app_assoc. split_and!; [done..|].
    intros ->. by rewrite send_unconfigured in Hsend.
  - right. exists e. destruct Hd as [Hd _].
    rewrite (row_rollback _ _ _ _ _ _ _ fp db' e w2) by done.
    rewrite Hst, Htr, <-!app_assoc. done.
Qed.

Lemma cycle_appends URL LIMIT search post clock w r w' :
  run_cycle URL LIMIT search post clock w = (r, w') →
  seen_papers (store w) `prefix_of` seen_papers (store w') ∧
  keywords (store w') = keywords (store w) ∧
  keywords_seq (store w') = keywords_seq (store w) ∧
  (seen_papers_seq (store w) <= seen_papers_seq (store w')).
Proof.
  apply (cycle_lift URL LIMIT search post clock
           (λ w w', seen_papers (store w) `prefix_of` seen_papers (store w') ∧
                    keywords (store w') = keywords (store w) ∧
                    keywords_seq (store w') = keywords_seq (store w) ∧
                    (seen_papers_seq (store w) <= seen_papers_seq (store w')))).
  - intros w0. split_and!; [done..|lia].
  - intros w1 w2 w3 (Hp1 & Hk1 & Hq1 & Hs1) (Hp2 & Hk2 & Hq2 & Hs2).
    split_and!; [by etrans|congruence..|lia].
  - intros w0 ev _. simpl. split_and!; [done..|lia].
  - intros kw p n w0 r0 w0' Hrow.
    destruct (row_cases URL post clock kw p n w0)
      as [[_ H]|[(fp & _ & _ & H)|(fp & db' & evs & _ & _ & Hi & _ & _ & H)]].
    + rewrite H in Hrow. injection Hrow as _ <-. split_and!; [done..|lia].
    + rewrite H in Hrow. injection Hrow as _ <-. simpl.
      split_and!; [done..|lia].
    + pose proof (release_insert _ _ _ _ _ _ Hi) as Hrel.
      unfold insert_seen_papers in Hi. case_decide; [done|].
      injection Hi as <-.
      destruct H as [(H & _)|(e & H & _)]; rewrite H in Hrow;
        injection Hrow as _ <-; simpl in *.
      * split_and!; [by apply prefix_app_r|done..|lia].
      * rewrite Hrel. split_and!; [done..|lia].
Qed.

Lemma has_seen_prefix k f db db' :
  seen_papers db `prefix_of` seen_papers db' → has_seen k f db → has_seen k f db'.
Proof.
  intros [rest Hrest]. unfold has_seen. rewrite Hrest, Exists_app. by left.
Qed.

Lemma terms_of_select t db : t ∈ select_terms db ↔ t ∈ terms_of db.
Proof. unfold terms_of. by rewrite select_terms_perm. Qed.

(** X3. A cycle only appends to [seen_papers]: the rows stored before
    it are all still there, unchanged and in their order, so no pair
    that was seen is forgotten. It never touches the keywords table, and
    under a term that is not a registered keyword nothing new is
    stored. *)
Theorem cycle_only_appends_seen_rows :
  ∀ URL LIMIT search post clock w,
    let w' := (run_cycle URL LIMIT search post clock w).2 in
    seen_papers (store w) `prefix_of` seen_papers (store w') ∧
    (∀ k f, has_seen k f (store w) → has_seen k f (store w')) ∧
    keywords (store w') = keywords (store w) ∧
    keywords_seq (store w') = keywords_seq (store w) ∧
    (∀ k f, k ∉ terms_of (store w) →
       has_seen k f (store w') → has_seen k f (store w)).
Proof.
  intros URL LIMIT search post clock w w'.
  destruct (run_cycle URL LIMIT search post clock w) as [r w1] eqn:Hc.
  subst w'. simpl.
  pose proof (cycle_appends _ _ _ _ _ _ _ _ Hc) as (Hp & Hk & Hq & _).
  split_and!; try done.
  - intros k f. by apply has_seen_prefix.
  - apply cycle_summary in Hc as (evs & Hstep & _).
    destruct Hstep as (_ & _ & _ & _ & Ho & _).
    intros k f Hk'. rewrite Ho; [done|]. by rewrite terms_of_select.
Qed.

(** X3 on the concrete run: the rows stored by a first cycle on [w3]
    are the first rows after a second cycle. *)
Lemma cycle_only_appends_seen_rows_witness :
  seen_papers
    (store (run_cycle Scenario.hook Scenario.limit Scenario.search
              Scenario.post Scenario.clock Scenario.w3).2)
  `prefix_of`
  seen_papers
    (store (run_cycle Scenario.hook Scenario.limit Scenario.search
              Scenario.post Scenario.clock
              (run_cycle Scenario.hook Scenario.limit Scenario.search
                 Scenario.post Scenario.clock Scenario.w3).2).2).
Proof.
  destruct (cycle_only_appends_seen_rows Scenario.hook Scenario.limit
              Scenario.search Scenario.post Scenario.clock
              (run_cycle Scenario.hook Scenario.limit Scenario.search
                 Scenario.post Scenario.clock Scenario.w3).2)
    as (Hp & _).
  exact Hp.
Defined.

Lemma silent_delivered evs : silent evs → delivered evs = 0%nat.
Proof.
  induction 1 as [|[] evs Hev _ IH]; simpl; done.
Qed.

Lemma silent_post_free evs : Forall post_event evs → silent evs → evs = [].
Proof.
  intros Hp Hs. destruct evs as [|ev evs]; [done|].
  apply Forall_cons in Hp as [Hp _]. apply Forall_cons in Hs as [Hs _]. done.
Qed.

Lemma cycle_unconfigured LIMIT search post clock w r w' :
  run_cycle [] LIMIT search post clock w = (r, w') →
  seen_papers (store w') = seen_papers (store w) ∧
  ∃ evs, trace w' = trace w ++ evs ∧ silent evs.
Proof.
  apply (cycle_lift [] LIMIT search post clock
           (λ w w', seen_papers (store w') = seen_papers (store w) ∧
                    ∃ evs, trace w' = trace w ++ evs ∧ silent evs)).
  - intros w0. split; [done|]. exists []. split; [by rewrite app_nil_r|constructor].
  - intros w1 w2 w3 (Hs1 & e1 & Ht1 & He1) (Hs2 & e2 & Ht2 & He2).
    split; [congruence|]. exists (e1 ++ e2).
    split; [by rewrite Ht2, Ht1, app_assoc|by apply Forall_app].
  - intros w0 ev Hev. split; [done|]. exists [ev]. split; [done|].
    by repeat constructor.
  - intros kw p n w0 r0 w0' Hrow.
    destruct (row_cases [] post clock kw p n w0)
      as [[_ H]|[(fp & _ & _ & H)|(fp & db' & evs & _ & _ & Hi & _ & Hnil & H)]].
    + rewrite H in Hrow. injection Hrow as _ <-. split; [done|].
      exists []. split; [by rewrite app_nil_r|constructor].
    + rewrite H in Hrow. injection Hrow as _ <-. split; [done|].
      exists [EvInsert kw fp false]. split; [done|].
      constructor; [simpl; tauto|constructor].
    + destruct H as [(_ & _ & Hne)|(e & H & Hd)]; [done|].
      rewrite H in Hrow. injection Hrow as _ <-. simpl.
      split; [by eapply release_insert|].
      rewrite (Hnil eq_refl).
      exists [EvInsert kw fp true; EvDelete kw fp]. split; [done|].
      repeat constructor; simpl; tauto.
Qed.

Lemma unconfigured_cycle_result LIMIT search post clock w :
  (run_cycle [] LIMIT search post clock w).1 = Ok 0%nat ∧
  seen_papers (store (run_cycle [] LIMIT search post clock w).2) =
    seen_papers (store w).
Proof.
  destruct (run_cycle [] LIMIT search post clock w) as [r w'] eqn:Hc. simpl.
  pose proof (cycle_unconfigured _ _ _ _ _ _ _ Hc) as (Hs & evs & Ht & Hev).
  apply cycle_summary in Hc as (evs0 & Hstep & -> & _).
  destruct Hstep as (Ht0 & _).
  rewrite Ht in Ht0. apply app_inv_head in Ht0 as <-.
  split; [|done].
  pose proof (delivered_completed_le evs 0) as Hle.
  rewrite (silent_delivered evs Hev) in Hle. f_equal. lia.
Qed.

(** X4. With no webhook configured a cycle stores nothing: it returns
    0, the rows of [seen_papers] are exactly those from before (every
    claim it made was released again), the keywords table is untouched,
    and no post was made. *)
Theorem unconfigured_webhook_stores_nothing :
  ∀ LIMIT search post clock w,
    (run_cycle [] LIMIT search post clock w).1 = Ok 0%nat ∧
    seen_papers (store (run_cycle [] LIMIT search post clock w).2) =
      seen_papers (store w) ∧
    keywords (store (run_cycle [] LIMIT search post clock w).2) =
      keywords (store w) ∧
    ∃ evs,
      trace (run_cycle [] LIMIT search post clock w).2 = trace w ++ evs ∧
      silent evs.
Proof.
  intros LIMIT search post clock w.
  destruct (run_cycle [] LIMIT search post clock w) as [r w'] eqn:Hc. simpl.
  pose proof (cycle_unconfigured _ _ _ _ _ _ _ Hc) as (Hs & evs & Ht & Hev).
  pose proof (cycle_appends _ _ _ _ _ _ _ _ Hc) as (_ & Hk & _).
  apply cycle_summary in Hc as (evs0 & Hstep & -> & _).
  destruct Hstep as (Ht0 & _).
  rewrite Ht in Ht0. apply app_inv_head in Ht0 as <-.
  split_and!; [|done..|by exists evs].
  pose proof (delivered_completed_le evs 0) as Hle.
  rewrite (silent_delivered evs Hev) in Hle. f_equal. lia.
Qed.

(** ** Candidates that were processed before *)

Lemma rows_appends URL post clock kw ps n w r w' :
  process_rows URL post clock kw ps n w = (r, w') →
  seen_papers (store w) `prefix_of` seen_papers (store w').
Proof.
  apply (rows_lift URL post clock
           (λ w w', seen_papers (store w) `prefix_of` seen_papers (store w'))).
  - done.
  - intros w1 w2 w3 ??. by etrans.
  - intros kw0 p n0 w0 r0 w0' Hrow.
    destruct (row_cases URL post clock kw0 p n0 w0)
      as [[_ H]|[(fp & _ & _ & H)|(fp & db' & evs & _ & _ & Hi & _ & _ & H)]].
    + rewrite H in Hrow. by injection Hrow as _ <-.
    + rewrite H in Hrow. by injection Hrow as _ <-.
    + pose proof (release_insert _ _ _ _ _ _ Hi) as Hrel.
      apply insert_seen_inv in Hi as (_ & _ & Hrows).
      destruct H as [(H & _)|(e & H & _)]; rewrite H in Hrow;
        injection Hrow as _ <-; cbn [store].
      * rewrite Hrows. by apply prefix_app_r.
      * by rewrite Hrel.
Qed.

Lemma rows_ok_seen URL post clock kw ps n w m w' :
  process_rows URL post clock kw ps n w = (Ok m, w') →
  Forall (λ p, ∃ fp, fp_of p = Some fp ∧ has_seen kw fp (store w')) ps.
Proof.
  revert n w. induction ps as [|p ps IH]; intros n w; [by constructor|].
  rewrite rows_cons.
  destruct (process_row URL post clock kw p n w) as [[k|e] w1] eqn:Hrow;
    [|done].
  intros Hrest. constructor; [|by eapply IH].
  apply rows_appends in Hrest.
  destruct (row_cases URL post clock kw p n w)
    as [[_ H]|[(fp & Hfp & Hs & H)|(fp & db' & evs & Hfp & _ & Hi & _ & _ & H)]].
  - by rewrite H in Hrow.
  - rewrite H in Hrow. injection Hrow as _ <-. exists fp. split; [done|].
    by eapply has_seen_prefix.
  - destruct H as [(H' & _)|(e & H' & _)]; rewrite H' in Hrow; [|done].
    injection Hrow as _ <-. exists fp. split; [done|].
    eapply has_seen_prefix; [done|]. by eapply insert_seen_has.
Qed.

Lemma rows_refused URL post clock kw ps n w :
  Forall (λ p, ∃ fp, fp_of p = Some fp ∧ has_seen kw fp (store w)) ps →
  process_rows URL post clock kw ps n w =
    (Ok n, World (store w) (trace w ++ refused kw ps)).
Proof.
  intros Hps. revert n w Hps. induction ps as [|p ps IH]; intros n w Hps.
  - rewrite rows_nil. unfold refused. simpl. rewrite app_nil_r. by destruct w.
  - apply Forall_cons in Hps as [(fp & Hfp & Hs) Hps].
    rewrite rows_cons, (row_seen _ _ _ _ _ _ _ fp) by done.
    rewrite IH by done. simpl. unfold refused. simpl. rewrite Hfp. simpl.
    by rewrite <-app_assoc.
Qed.

(** X5. Candidates that a candidate loop has processed to its end are
    never announced again: when the loop runs on any of them later, on a
    store that still holds what the first run left, with whatever
    webhook, it claims nothing, posts nothing, leaves the store as it is
    and returns its counter unchanged. *)
Theorem rerun_sends_nothing :
  ∀ URL post clock URL' post' clock' kw ps ps' n w m w1 n' w2,
    process_rows URL post clock kw ps n w = (Ok m, w1) →
    (∀ fp, has_seen kw fp (store w1) → has_seen kw fp (store w2)) →
    ps' ⊆ ps →
    process_rows URL' post' clock' kw ps' n' w2 =
      (Ok n', World (store w2) (trace w2 ++ refused kw ps')).
Proof.
  intros URL post clock URL' post' clock' kw ps ps' n w m w1 n' w2
    Hfirst Hkeep Hsub.
  apply rows_refused. apply rows_ok_seen in Hfirst.
  rewrite Forall_forall in Hfirst. apply Forall_forall. intros p Hp.
  destruct (Hfirst p (Hsub p Hp)) as (fp & Hfp & Hs). exists fp. auto.
Qed.

(** X6. A candidate whose fingerprint cannot be computed ends the
    processing of its keyword with [UnicodeEncodeError] before anything
    is claimed or posted for it: the candidate loop and
    [process_keyword] raise it in the world the candidates before it
    left, and the candidates behind it are not looked at. The keyword
    loop of [run_cycle] catches it, prints the line "Error processing"
    for the keyword, does not sleep, keeps its counter and goes on with
    the next keyword. *)
Theorem unencodable_candidate_stops_keyword :
  ∀ URL LIMIT search post clock kw pre p post_ ts total w0 w m w1,
    fp_of p = None →
    fetch_scholar_results search kw LIMIT w0 = (Ok (pre ++ p :: post_), w) →
    process_rows URL post clock kw pre 0 w = (Ok m, w1) →
    process_row URL post clock kw p m w1 = (Raise UnicodeEncodeError, w1) ∧
    (∀ post',
       process_rows URL post clock kw (pre ++ p :: post') 0 w =
         (Raise UnicodeEncodeError, w1)) ∧
    process_keyword URL LIMIT search post clock kw w0 =
      (Raise UnicodeEncodeError, w1) ∧
    run_terms URL LIMIT search post clock (kw :: ts) total w0 =
      run_terms URL LIMIT search post clock ts total
        (World (store w1)
           (trace w1 ++ [EvPrint (LogError kw UnicodeEncodeError)])).
Proof.
  intros URL LIMIT search post clock kw pre p post_ ts total w0 w m w1
    Hfp Hfetch Hpre.
  assert (Hrow : process_row URL post clock kw p m w1 =
                   (Raise UnicodeEncodeError, w1))
    by by apply row_unencodable.
  assert (Hstop : ∀ post',
            process_rows URL post clock kw (pre ++ p :: post') 0 w =
              (Raise UnicodeEncodeError, w1))
    by (intros post'; by eapply rows_stop).
  assert (Hkw : process_keyword URL LIMIT search post clock kw w0 =
                  (Raise UnicodeEncodeError, w1))
    by by rewrite keyword_unfold, Hfetch.
  split_and!; [done..|].
  by rewrite terms_cons, Hkw.
Qed.

(** X5 on the concrete run: the three candidates of [zeta] are
    processed on a fresh database, then two of them again with no
    webhook configured. *)
Lemma rerun_sends_nothing_witness :
  process_rows [] Scenario.post Scenario.clock Scenario.zeta
    [Scenario.paperC; Scenario.paperA] 5
    (process_rows Scenario.hook Scenario.post Scenario.clock Scenario.zeta
       [Scenario.paperA; Scenario.paperB; Scenario.paperC] 0 Scenario.w0).2 =
  (Ok 5%nat,
   World
     (store (process_rows Scenario.hook Scenario.post Scenario.clock
               Scenario.zeta
               [Scenario.paperA; Scenario.paperB; Scenario.paperC] 0
               Scenario.w0).2)
     (trace (process_rows Scenario.hook Scenario.post Scenario.clock
               Scenario.zeta
               [Scenario.paperA; Scenario.paperB; Scenario.paperC] 0
               Scenario.w0).2 ++
      refused Scenario.zeta [Scenario.paperC; Scenario.paperA])).
Proof.
  apply (rerun_sends_nothing Scenario.hook Scenario.post Scenario.clock
           [] Scenario.post Scenario.clock Scenario.zeta
           [Scenario.paperA; Scenario.paperB; Scenario.paperC]
           [Scenario.paperC; Scenario.paperA] 0%nat Scenario.w0 3%nat
           (process_rows Scenario.hook Scenario.post Scenario.clock
              Scenario.zeta
              [Scenario.paperA; Scenario.paperB; Scenario.paperC] 0
              Scenario.w0).2).
  - vm_compute. reflexivity.
  - intros fp H. exact H.
  - intros x Hx. apply elem_of_cons in Hx as [->|Hx].
    + apply list_elem_of_further, list_elem_of_further, list_elem_of_here.
    + apply list_elem_of_singleton in Hx as ->. apply list_elem_of_here.
Defined.

(** X6 on a search whose second result has a lone surrogate as its
    title, for the keyword [zeta] on a new database: the first result
    is delivered, then the error line is printed. *)
Lemma unencodable_candidate_stops_keyword_witness :
  run_terms Scenario.hook Scenario.limit
    (λ _ _, Ok (NextPub Scenario.pubA
                  (NextPub (Bib (Some [0xD800]) None None None)
                     (NextPub Scenario.pubB StopIteration))))
    Scenario.post Scenario.clock [Scenario.zeta] 0 Scenario.z0 =
  (Ok 0%nat,
   World
     (store (process_rows Scenario.hook Scenario.post Scenario.clock
               Scenario.zeta [Scenario.paperA] 0
               (World (store Scenario.z0) [EvSearch Scenario.zeta])).2)
     (trace (process_rows Scenario.hook Scenario.post Scenario.clock
               Scenario.zeta [Scenario.paperA] 0
               (World (store Scenario.z0) [EvSearch Scenario.zeta])).2 ++
      [EvPrint (LogError Scenario.zeta UnicodeEncodeError)])).
Proof.
  destruct (unencodable_candidate_stops_keyword Scenario.hook Scenario.limit
              (λ _ _, Ok (NextPub Scenario.pubA
                            (NextPub (Bib (Some [0xD800]) None None None)
                               (NextPub Scenario.pubB StopIteration))))
              Scenario.post Scenario.clock Scenario.zeta [Scenario.paperA]
              (Paper [0xD800] [] [] []) [Scenario.paperB] [] 0%nat
              Scenario.z0
              (World (store Scenario.z0) [EvSearch Scenario.zeta])
              1%nat
              (process_rows Scenario.hook Scenario.post Scenario.clock
                 Scenario.zeta [Scenario.paperA] 0
                 (World (store Scenario.z0) [EvSearch Scenario.zeta])).2)
    as (_ & _ & _ & Hloop); [vm_compute; reflexivity..|].
  rewrite Hloop. reflexivity.
Defined.

(** ** The order of a cycle *)

Lemma pystr_leb_refl a : pystr_leb a a = true.
Proof.
  induction a as [|x a IH]; [done|]. simpl.
  rewrite N.ltb_irrefl, N.eqb_refl. done.
Qed.

Lemma pystr_leb_total a b : pystr_leb a b = true ∨ pystr_leb b a = true.
Proof.
  revert b. induction a as [|x a IH]; intros [|y b]; simpl; auto.
  destruct (N.ltb_spec x y), (N.ltb_spec y x), (N.eqb_spec x y),
    (N.eqb_spec y x); simpl; auto; lia.
Qed.

Lemma pystr_leb_trans a b c :
  pystr_leb a b = true → pystr_leb b c = true → pystr_leb a c = true.
Proof.
  revert b c. induction a as [|x a IH]; intros [|y b] [|z c]; simpl; try done.
  destruct (N.ltb_spec x y), (N.ltb_spec y z), (N.ltb_spec x z),
    (N.eqb_spec x y), (N.eqb_spec y z), (N.eqb_spec x z);
    simpl; try done; try lia.
  apply IH.
Qed.

Lemma pystr_leb_antisym a b :
  pystr_leb a b = true → pystr_leb b a = true → a = b.
Proof.
  revert b. induction a as [|x a IH]; intros [|y b]; simpl; try done.
  destruct (N.ltb_spec x y), (N.ltb_spec y x), (N.eqb_spec x y),
    (N.eqb_spec y x); simpl; try done; try lia.
  intros Hab Hba. subst. f_equal. by apply IH.
Qed.

Lemma pystr_le_trans : Transitive pystr_le.
Proof. intros a b c. apply pystr_leb_trans. Qed.

Lemma pystr_le_total : Total pystr_le.
Proof. intros a b. apply pystr_leb_total. Qed.

Lemma pystr_le_antisym : AntiSymm eq pystr_le.
Proof. intros a b. apply pystr_leb_antisym. Qed.

Lemma select_terms_sorted db : StronglySorted pystr_le (select_terms db).
Proof.
  apply (@StronglySorted_merge_sort _ pystr_le _ pystr_le_trans pystr_le_total).
Qed.

(** X7. A cycle searches the registered terms in ascending order of
    their code points, each as often as the table holds it: the order
    does not depend on the order in which the keywords were added. With
    an empty keywords table a cycle does nothing at all. *)
Theorem cycle_searches_in_term_order :
  ∀ URL LIMIT search post clock w,
    (∃ evs,
       trace (run_cycle URL LIMIT search post clock w).2 = trace w ++ evs ∧
       searched evs ≡ₚ terms_of (store w) ∧
       StronglySorted pystr_le (searched evs) ∧
       ∀ w2, terms_of (store w2) ≡ₚ terms_of (store w) →
             select_terms (store w2) = searched evs) ∧
    (keywords (store w) = [] →
     run_cycle URL LIMIT search post clock w = (Ok 0%nat, w)).
Proof.
  intros URL LIMIT search post clock w. split.
  - destruct (run_cycle URL LIMIT search post clock w) as [r w'] eqn:Hc.
    apply cycle_summary in Hc as (evs & Hstep & _).
    destruct Hstep as (Ht & Hs & _). exists evs. rewrite Hs.
    split_and!.
    + done.
    + apply select_terms_perm.
    + apply select_terms_sorted.
    + intros w2 Hperm.
      apply (@StronglySorted_unique _ pystr_le pystr_le_antisym);
        [apply select_terms_sorted..|].
      unfold terms_of in Hperm. by rewrite !select_terms_perm.
  - intros Hk. rewrite cycle_unfold. unfold select_terms. rewrite Hk.
    simpl. by destruct w.
Qed.

(** X7 on the concrete run, whose keywords were added in the order
    bad, gnn, zeta, and on a fresh database. *)
Lemma cycle_searches_in_term_order_witness :
  select_terms
    (store (add_keyword Scenario.clock Scenario.bad
              (add_keyword Scenario.clock Scenario.gnn
                 (add_keyword Scenario.clock Scenario.zeta Scenario.w0).2).2).2) =
    [Scenario.bad; Scenario.gnn; Scenario.zeta] ∧
  run_cycle Scenario.hook Scenario.limit Scenario.search Scenario.post
    Scenario.clock Scenario.w0 = (Ok 0%nat, Scenario.w0).
Proof.
  destruct (cycle_searches_in_term_order Scenario.hook Scenario.limit
              Scenario.search Scenario.post Scenario.clock Scenario.w0)
    as [_ Hempty].
  split; [vm_compute; reflexivity|].
  apply Hempty. reflexivity.
Defined.

(** ** The keywords table *)

Lemma insert_keywords_cases t now db :
  (t ∈ terms_of db ∧ insert_keywords t now db = Raise IntegrityError) ∨
  ((t ∉ terms_of db) ∧
   insert_keywords t now db =
     Ok (Database (keywords db ++ [KeywordRow (keywords_seq db + 1) t now])
           (keywords_seq db + 1) (seen_papers db) (seen_papers_seq db))).
Proof.
  unfold insert_keywords, terms_of. case_decide as H; [left|right].
  - split; [|done]. apply Exists_exists in H as (r & Hr & <-).
    by apply list_elem_of_fmap_2.
  - split; [|done]. intros (r & -> & Hr)%list_elem_of_fmap. apply H.
    apply Exists_exists. by exists r.
Qed.

Lemma registered_known now t db : t ∈ terms_of db → registered now t db = db.
Proof.
  intros Hin. unfold registered.
  by destruct (insert_keywords_cases t now db) as [[_ ->]|[? _]].
Qed.

Lemma registered_new now t db :
  t ∉ terms_of db →
  registered now t db =
    Database (keywords db ++ [KeywordRow (keywords_seq db + 1) t now])
      (keywords_seq db + 1) (seen_papers db) (seen_papers_seq db).
Proof.
  intros Hin. unfold registered.
  by destruct (insert_keywords_cases t now db) as [[? _]|[_ ->]].
Qed.

Lemma registered_terms now t db t' :
  t' ∈ terms_of (registered now t db) ↔ t' ∈ terms_of db ∨ t' = t.
Proof.
  destruct (decide (t ∈ terms_of db)) as [Hin|Hin].
  - rewrite registered_known by done. split; [by left|]. by intros [?| ->].
  - rewrite registered_new by done. unfold terms_of. simpl.
    rewrite fmap_app, elem_of_app. simpl. by rewrite list_elem_of_singleton.
Qed.

Lemma registered_seen now t db :
  seen_papers (registered now t db) = seen_papers db ∧
  seen_papers_seq (registered now t db) = seen_papers_seq db ∧
  keywords db `prefix_of` keywords (registered now t db) ∧
  keywords_seq db <= keywords_seq (registered now t db).
Proof.
  destruct (decide (t ∈ terms_of db)) as [Hin|Hin].
  - rewrite registered_known by done. split_and!; [done..|lia].
  - rewrite registered_new by done. simpl.
    split_and!; [done|done|by apply prefix_app_r|lia].
Qed.

Lemma registered_idem now now' t db :
  registered now' t (registered now t db) = registered now t db.
Proof. apply registered_known, registered_terms. by right. Qed.

Lemma registered_ok now t db :
  clean_term t → keywords_ok db → keywords_ok (registered now t db).
Proof.
  intros Hclean (Hu & Hc & Hn & Hb).
  destruct (decide (t ∈ terms_of db)) as [Hin|Hin].
  { by rewrite registered_known. }
  rewrite registered_new by done.
  unfold keywords_ok, keywords_unique, terms_clean, keyword_ids_ok. simpl.
  rewrite !fmap_app. simpl. split_and!.
  - apply NoDup_app. split_and!; [done| |apply NoDup_singleton].
    intros x Hx ->%list_elem_of_singleton. done.
  - apply Forall_app. split; [done|]. constructor; [done|constructor].
  - apply NoDup_app. split_and!; [done| |apply NoDup_singleton].
    intros x (r & -> & Hr)%list_elem_of_fmap ?%list_elem_of_singleton.
    rewrite Forall_forall in Hb. specialize (Hb r Hr). simpl in *. lia.
  - apply Forall_app. split.
    + eapply Forall_impl; [done|]. intros r Hr. simpl in *. lia.
    + constructor; [simpl; lia|constructor].
Qed.

Lemma add_keyword_registered clock t w :
  add_keyword clock t w =
    (Ok (),
     if truthy (strip t)
     then World (registered (clock (length (trace w))) (strip t) (store w))
            (trace w)
     else w).
Proof.
  unfold add_keyword, registered. munfold. simpl.
  destruct (truthy (strip t)); [|done].
  destruct (insert_keywords_cases (strip t) (clock (length (trace w))) (store w))
    as [[_ ->]|[_ ->]]; [|done].
  simpl. by destruct w.
Qed.

Lemma truthy_true (s : pystr) : truthy s = true ↔ s ≠ [].
Proof. by destruct s. Qed.

(** The rows and terms after [add_keyword], which is the handler on a
    term that binds. *)
Lemma add_keyword_spec clock t w :
  let w' := (add_keyword clock t w).2 in
  (add_keyword clock t w).1 = Ok () ∧
  trace w' = trace w ∧
  seen_papers (store w') = seen_papers (store w) ∧
  (blank t → w' = w) ∧
  (strip t ≠ [] → strip t ∈ terms_of (store w')) ∧
  (∀ t', t' ∈ terms_of (store w') ↔
         t' ∈ terms_of (store w) ∨ (t' = strip t ∧ strip t ≠ [])) ∧
  keywords (store w) `prefix_of` keywords (store w').
Proof.
  intros w'. subst w'. rewrite add_keyword_registered. simpl.
  destruct (truthy (strip t)) eqn:Ht.
  - apply truthy_true in Ht. simpl.
    destruct (registered_seen (clock (length (trace w))) (strip t) (store w))
      as (Hs & _ & Hp & _).
    split_and!; try done.
    + intros Hb. destruct Ht. unfold strip.
      by apply lstrip_nil_blank in Hb as ->.
    + intros _. apply registered_terms. by right.
    + intros t'. rewrite registered_terms.
      split; [intros [?| ->]; auto|intros [?|[-> _]]; auto].
  - apply truthy_nil in Ht. split_and!; try done.
    intros t'. split; [by left|]. by intros [?|[_ ?]].
Qed.

(** ** Parameter binding *)

Lemma bind_text_cases s :
  (Forall scalar s ∧ bind_text s = Ok ()) ∨
  (¬ Forall scalar s ∧ bind_text s = Raise UnicodeEncodeError).
Proof.
  unfold bind_text. destruct (encode_utf8 s) as [m|] eqn:He.
  - left. split; [|done]. apply encode_utf8_scalar. by rewrite He.
  - right. split; [|done]. intros Hs%encode_utf8_scalar.
    rewrite He in Hs. by destruct Hs.
Qed.

Lemma bind_int_cases n :
  (int64 n ∧ bind_int n = Ok ()) ∨
  (¬ int64 n ∧ bind_int n = Raise OverflowError).
Proof.
  unfold bind_int, int64.
  destruct (Z.leb_spec (- 2 ^ 63) n), (Z.ltb_spec n (2 ^ 63)); simpl;
    [left|right..]; (split; [lia|done]).
Qed.

(** One INSERT of the keywords table inside its [try]. *)
Lemma insert_step clock kw w :
  try_except (execute_insert_keyword clock kw)
    (λ e, if is_IntegrityError e then Some (mret ()) else None) w =
  match bind_text kw with
  | Ok _ =>
      (Ok (),
       World (registered (clock (length (trace w))) kw (store w)) (trace w))
  | Raise e => (Raise e, w)
  end.
Proof.
  destruct (bind_text_cases kw) as [[_ Hb]|[_ Hb]]; rewrite Hb;
    unfold execute_insert_keyword, registered; rewrite Hb; munfold; simpl;
    [|done].
  destruct (insert_keywords_cases kw (clock (length (trace w))) (store w))
    as [[_ ->]|[_ ->]]; [|done].
  simpl. by destruct w.
Qed.

Lemma endpoint_add clock t w :
  Endpoint.add_keyword clock t w =
    if truthy (strip t) then
      match bind_text (strip t) with
      | Ok _ =>
          (Ok (),
           World (registered (clock (length (trace w))) (strip t) (store w))
             (trace w))
      | Raise e => (Raise e, w)
      end
    else (Ok (), w).
Proof.
  unfold Endpoint.add_keyword. destruct (truthy (strip t)); [|done].
  apply insert_step.
Qed.

Lemma endpoint_add_bound clock t w :
  Forall scalar (strip t) →
  Endpoint.add_keyword clock t w = add_keyword clock t w.
Proof.
  intros Hs. rewrite endpoint_add, add_keyword_registered.
  destruct (truthy (strip t)); [|done].
  by destruct (bind_text_cases (strip t)) as [[_ ->]|[? _]].
Qed.

Lemma endpoint_add_unbound clock t w :
  ¬ Forall scalar (strip t) →
  Endpoint.add_keyword clock t w = (Raise UnicodeEncodeError, w).
Proof.
  intros Hs. rewrite endpoint_add.
  destruct (truthy (strip t)) eqn:Ht.
  - by destruct (bind_text_cases (strip t)) as [[? _]|[_ ->]].
  - apply truthy_nil in Ht. destruct Hs. rewrite Ht. constructor.
Qed.

(** X8. [add_keyword] registers the stripped term when sqlite3 can
    bind it, and raises otherwise. It returns normally exactly when the
    stripped term holds no lone surrogate; when it does hold one,
    UnicodeEncodeError is raised and nothing is changed. A term that is
    empty or blank changes nothing; any other term that binds is
    registered afterwards in its stripped form, and no other term is
    added or removed. The rows already in the table stay as they are,
    in front of the new one, and [seen_papers] and the trace are
    untouched. *)
Theorem add_keyword_registers_stripped_term :
  ∀ clock t w,
    let r := Endpoint.add_keyword clock t w in
    (r.1 = Ok () ↔ Forall scalar (strip t)) ∧
    (¬ Forall scalar (strip t) → r = (Raise UnicodeEncodeError, w)) ∧
    trace r.2 = trace w ∧
    seen_papers (store r.2) = seen_papers (store w) ∧
    (blank t → r = (Ok (), w)) ∧
    (Forall scalar (strip t) → strip t ≠ [] →
     strip t ∈ terms_of (store r.2)) ∧
    (∀ t', t' ∈ terms_of (store r.2) ↔
           t' ∈ terms_of (store w) ∨
           (t' = strip t ∧ strip t ≠ [] ∧ Forall scalar (strip t))) ∧
    keywords (store w) `prefix_of` keywords (store r.2) ∧
    (Forall scalar (strip t) → r = add_keyword clock t w).
Proof.
  intros clock t w r. subst r.
  destruct (decide (Forall scalar (strip t))) as [Hs|Hs].
  - rewrite endpoint_add_bound by done.
    destruct (add_keyword_spec clock t w)
      as (Hr & Ht & Hseen & Hb & Hin & Hall & Hp).
    split_and!.
    + by split.
    + done.
    + done.
    + done.
    + intros Hbl. specialize (Hb Hbl).
      destruct (add_keyword clock t w) as [r0 w0]. simpl in *. by subst.
    + intros _. done.
    + intros t'. rewrite Hall.
      split; [intros [?|[-> ?]]|intros [?|(-> & ? & _)]]; auto.
    + done.
    + done.
  - rewrite endpoint_add_unbound by done. simpl.
    split_and!.
    + by split.
    + done.
    + done.
    + done.
    + intros Hbl%strip_nil_blank. destruct Hs. rewrite Hbl. constructor.
    + done.
    + intros t'. split; [by left|]. by intros [?|(_ & _ & ?)].
    + done.
    + done.
Qed.

(** X8 on a blank term, on a padded one and on a lone surrogate. *)
Lemma add_keyword_registers_stripped_term_witness :
  Endpoint.add_keyword Scenario.clock [32; 9; 32] Scenario.w1 =
    (Ok (), Scenario.w1) ∧
  strip (lit " zeta  ") ∈
    terms_of
      (store (Endpoint.add_keyword Scenario.clock (lit " zeta  ")
                Scenario.w1).2) ∧
  Endpoint.add_keyword Scenario.clock [0xDC80] Scenario.w1 =
    (Raise UnicodeEncodeError, Scenario.w1).
Proof.
  destruct (add_keyword_registers_stripped_term Scenario.clock [32; 9; 32]
              Scenario.w1) as (_ & _ & _ & _ & Hblank & _).
  destruct (add_keyword_registers_stripped_term Scenario.clock
              (lit " zeta  ") Scenario.w1) as (_ & _ & _ & _ & _ & Hin & _).
  destruct (add_keyword_registers_stripped_term Scenario.clock
              [0xDC80] Scenario.w1) as (_ & Hbad & _).
  split; [|split].
  - apply Hblank. repeat constructor.
  - apply Hin.
    + apply (bool_decide_unpack _). vm_compute. exact I.
    + vm_compute. discriminate.
  - apply Hbad. apply (bool_decide_unpack _). vm_compute. exact I.
Defined.

(** X9. Adding a keyword twice is adding it once: a second
    [add_keyword] of a term with the same stripped form, at any later
    time, ends as the first one did, normally or with the same
    UnicodeEncodeError, and leaves the world as the first one made
    it. *)
Theorem add_keyword_twice :
  ∀ clock clock' t t' w,
    strip t' = strip t →
    Endpoint.add_keyword clock' t' (Endpoint.add_keyword clock t w).2 =
      ((Endpoint.add_keyword clock t w).1,
       (Endpoint.add_keyword clock t w).2).
Proof.
  intros clock clock' t t' w Heq.
  rewrite (endpoint_add clock' t'), Heq.
  rewrite (endpoint_add clock t).
  destruct (truthy (strip t)); [|done].
  destruct (bind_text (strip t)) as [[]|e]; [|done]. simpl.
  by rewrite registered_idem.
Qed.

(** X9 on a term added with and without padding, and on a lone
    surrogate. *)
Lemma add_keyword_twice_witness :
  Endpoint.add_keyword Scenario.clock (lit "  gnn ")
    (Endpoint.add_keyword Scenario.clock Scenario.gnn Scenario.w0).2 =
  (Ok (), (Endpoint.add_keyword Scenario.clock Scenario.gnn Scenario.w0).2) ∧
  Endpoint.add_keyword Scenario.clock [32; 0xD800]
    (Endpoint.add_keyword Scenario.clock [0xD800] Scenario.w0).2 =
  (Raise UnicodeEncodeError, Scenario.w0).
Proof.
  split.
  - rewrite (add_keyword_twice Scenario.clock Scenario.clock Scenario.gnn
               (lit "  gnn ") Scenario.w0); vm_compute; reflexivity.
  - rewrite (add_keyword_twice Scenario.clock Scenario.clock [0xD800]
               [32; 0xD800] Scenario.w0); vm_compute; reflexivity.
Defined.

Lemma select_term_none kid db :
  select_term_by_id kid db = None ↔ kid ∉ id <$> keywords db.
Proof.
  unfold select_term_by_id. split.
  - intros Hnone (r & -> & Hr)%list_elem_of_fmap.
    destruct (filter (λ r0, id r0 = id r) (keywords db)) as [|r1 l] eqn:Hf;
      [|done].
    eapply (filter_nil_not_elem_of _ _ r); [done|done|done].
  - intros Hni.
    destruct (filter (λ r0, id r0 = kid) (keywords db)) as [|r1 l] eqn:Hf;
      [done|].
    assert (Hr1 : r1 ∈ filter (λ r0, id r0 = kid) (keywords db))
      by (rewrite Hf; by left).
    apply list_elem_of_filter in Hr1 as [<- Hr1]. destruct Hni.
    by apply list_elem_of_fmap_2.
Qed.

Lemma delete_keyword_gone kid w :
  kid ∉ id <$> keywords (store (delete_keyword kid w).2).
Proof.
  rewrite delete_keyword_world. simpl.
  destruct (select_term_by_id kid (store w)) as [t|] eqn:Hsel.
  - simpl. intros (r & -> & Hr)%list_elem_of_fmap.
    by apply list_elem_of_filter in Hr as [Hne _].
  - by apply select_term_none.
Qed.

(** What [delete_keyword], the handler on an id that binds, does to
    the two tables. *)
Lemma delete_keyword_spec :
  ∀ kid w,
    let w' := (delete_keyword kid w).2 in
    (delete_keyword kid w).1 = Ok () ∧
    trace w' = trace w ∧
    (kid ∉ id <$> keywords (store w) → w' = w) ∧
    (kid ∉ id <$> keywords (store w')) ∧
    delete_keyword kid w' = (Ok (), w') ∧
    keywords (store w') `sublist_of` keywords (store w) ∧
    seen_papers (store w') `sublist_of` seen_papers (store w) ∧
    keywords_seq (store w') = keywords_seq (store w) ∧
    seen_papers_seq (store w') = seen_papers_seq (store w).
Proof.
  intros kid w w'.
  pose proof (delete_keyword_gone kid w) as Hgone. fold w' in Hgone.
  assert (Hagain : delete_keyword kid w' = (Ok (), w')).
  { rewrite delete_keyword_world.
    by apply select_term_none in Hgone as ->. }
  assert (Hw' : w' = match select_term_by_id kid (store w) with
                     | Some t =>
                         World (delete_seen_term t
                                  (delete_keywords_id kid (store w))) (trace w)
                     | None => w
                     end)
    by (subst w'; by rewrite delete_keyword_world).
  split_and!.
  - by rewrite delete_keyword_world.
  - rewrite Hw'. by destruct (select_term_by_id kid (store w)).
  - intros Hni. rewrite Hw'. by apply select_term_none in Hni as ->.
  - done.
  - done.
  - rewrite Hw'. destruct (select_term_by_id kid (store w)); simpl;
      [apply sublist_filter|done].
  - rewrite Hw'. destruct (select_term_by_id kid (store w)); simpl;
      [apply sublist_filter|done].
  - rewrite Hw'. by destruct (select_term_by_id kid (store w)).
  - rewrite Hw'. by destruct (select_term_by_id kid (store w)).
Qed.

(** A new keyword added and deleted by its id, on parameters that
    bind. *)
Lemma add_delete_spec :
  ∀ clock t w,
    keyword_ids_ok (store w) →
    strip t ≠ [] →
    strip t ∉ terms_of (store w) →
    let w1 := (add_keyword clock t w).2 in
    let kid := keywords_seq (store w) + 1 in
    let w2 := (delete_keyword kid w1).2 in
    select_term_by_id kid (store w1) = Some (strip t) ∧
    (kid ∉ id <$> keywords (store w)) ∧
    keywords (store w2) = keywords (store w) ∧
    keywords_seq (store w2) = kid ∧
    (∀ clock' t',
       strip t' ≠ [] → strip t' ∉ terms_of (store w) →
       keywords (store (add_keyword clock' t' w2).2) =
         keywords (store w) ++
           [KeywordRow (kid + 1) (strip t') (clock' (length (trace w)))]).
Proof.
  intros clock t w [Hnd Hb] Ht Hnew w1 kid w2.
  assert (Hfresh : Forall (λ r, id r ≠ kid) (keywords (store w))).
  { eapply Forall_impl; [done|]. intros r Hr. simpl in *. subst kid. lia. }
  assert (Hw1 : w1 = World
            (Database (keywords (store w) ++
                         [KeywordRow kid (strip t) (clock (length (trace w)))])
               kid (seen_papers (store w)) (seen_papers_seq (store w)))
            (trace w)).
  { subst w1. rewrite add_keyword_registered. simpl.
    apply truthy_true in Ht as ->. by rewrite registered_new. }
  assert (Hsel : select_term_by_id kid (store w1) = Some (strip t)).
  { rewrite Hw1. unfold select_term_by_id. simpl.
    rewrite filter_app, filter_none, filter_cons_True by done. done. }
  assert (Hw2 : keywords (store w2) = keywords (store w) ∧
                keywords_seq (store w2) = kid ∧ trace w2 = trace w).
  { subst w2. rewrite delete_keyword_world, Hsel. rewrite Hw1. simpl.
    rewrite filter_app, filter_all, filter_cons_False, filter_nil by tauto.
    by rewrite app_nil_r. }
  destruct Hw2 as (Hk2 & Hq2 & Ht2).
  split_and!; try done.
  - intros (r & Hid & Hr)%list_elem_of_fmap.
    rewrite Forall_forall in Hfresh. by apply (Hfresh r Hr).
  - intros clock' t' Ht' Hnew'. rewrite add_keyword_registered. simpl.
    apply truthy_true in Ht' as ->. simpl.
    rewrite registered_new; [simpl; by rewrite Hk2, Hq2, Ht2|].
    unfold terms_of. by rewrite Hk2.
Qed.

Lemma endpoint_delete kid w :
  Endpoint.delete_keyword kid w =
    match bind_int kid with
    | Ok _ =>
        if (0 <=? kid)%Z then delete_keyword (Z.to_N kid) w else (Ok (), w)
    | Raise e => (Raise e, w)
    end.
Proof.
  unfold Endpoint.delete_keyword, Endpoint.select_term_by_int, of_res.
  destruct (bind_int kid) as [[]|e]; munfold; simpl; [|done].
  destruct (0 <=? kid)%Z; [|done].
  rewrite delete_keyword_world.
  by destruct (select_term_by_id (Z.to_N kid) (store w)).
Qed.

Lemma endpoint_delete_bound (kid : N) w :
  kid < 2 ^ 63 →
  Endpoint.delete_keyword (Z.of_N kid) w = delete_keyword kid w.
Proof.
  intros Hk. rewrite endpoint_delete.
  destruct (bind_int_cases (Z.of_N kid)) as [[_ ->]|[Hn _]].
  - destruct (Z.leb_spec 0 (Z.of_N kid)); [|lia]. by rewrite N2Z.id.
  - destruct Hn. unfold int64. lia.
Qed.

Lemma int_id_elem (kid : Z) (l : list keyword_row) :
  (0 ≤ kid)%Z →
  kid ∈ (λ r, Z.of_N (id r)) <$> l ↔ Z.to_N kid ∈ id <$> l.
Proof.
  intros Hk. rewrite !list_elem_of_fmap.
  split; intros (r & Hr & Hin); exists r; (split; [lia|done]).
Qed.

(** X10. [delete_keyword] returns normally exactly when the id fits
    SQLite's signed 64-bit INTEGER; for any other id it raises
    OverflowError and changes nothing. An id that no keyword has, a
    negative one among them, is ignored and the world stays as it is.
    After a call that returned no keyword has the id, and a second call
    ends as the first did and changes nothing more. A delete only
    removes rows: what remains of both tables is what was there, in its
    order, and the two id counters are not set back. On an id that a
    row can have, the handler does what [delete_keyword] on that id
    does. *)
Theorem delete_keyword_only_removes :
  ∀ kid w,
    let r := Endpoint.delete_keyword kid w in
    (r.1 = Ok () ↔ int64 kid) ∧
    (¬ int64 kid → r = (Raise OverflowError, w)) ∧
    trace r.2 = trace w ∧
    (kid ∉ (λ r0, Z.of_N (id r0)) <$> keywords (store w) → r.2 = w) ∧
    (int64 kid → kid ∉ (λ r0, Z.of_N (id r0)) <$> keywords (store r.2)) ∧
    Endpoint.delete_keyword kid r.2 = (r.1, r.2) ∧
    keywords (store r.2) `sublist_of` keywords (store w) ∧
    seen_papers (store r.2) `sublist_of` seen_papers (store w) ∧
    keywords_seq (store r.2) = keywords_seq (store w) ∧
    seen_papers_seq (store r.2) = seen_papers_seq (store w) ∧
    ((0 ≤ kid)%Z → int64 kid → r = delete_keyword (Z.to_N kid) w).
Proof.
  intros kid w r. subst r.
  assert (Hneg : (kid < 0)%Z → kid ∉ (λ r0, Z.of_N (id r0)) <$> keywords (store w)).
  { intros Hk (r0 & -> & _)%list_elem_of_fmap. lia. }
  rewrite (endpoint_delete kid (Endpoint.delete_keyword kid w).2).
  rewrite !(endpoint_delete kid w).
  destruct (bind_int_cases kid) as [[Hi ->]|[Hi ->]].
  - destruct (Z.leb_spec 0 kid) as [Hk|Hk].
    + destruct (delete_keyword_spec (Z.to_N kid) w)
        as (H1 & H2 & H3 & H4 & H5 & H6 & H7 & H8 & H9).
      split_and!.
      * by split.
      * done.
      * done.
      * intros Hni. apply H3. by rewrite <-int_id_elem.
      * intros _. by rewrite int_id_elem.
      * rewrite H5. by rewrite <-H1 at 1.
      * done.
      * done.
      * done.
      * done.
      * intros _ _. by destruct (delete_keyword (Z.to_N kid) w).
    + simpl. split_and!.
      * by split.
      * done.
      * done.
      * done.
      * intros _. by apply Hneg.
      * done.
      * done.
      * done.
      * done.
      * done.
      * lia.
  - simpl. split_and!.
    + split; [done|intros; contradiction].
    + done.
    + done.
    + done.
    + done.
    + done.
    + done.
    + done.
    + done.
    + done.
    + done.
Qed.

(** X10 on the concrete run: the keyword with the id 2 is deleted, and
    an id of 2^63 overflows. *)
Lemma delete_keyword_only_removes_witness :
  (2 ∉ (λ r0, Z.of_N (id r0)) <$>
         keywords (store (Endpoint.delete_keyword 2 Scenario.w3).2))%Z ∧
  length (keywords (store (Endpoint.delete_keyword 2 Scenario.w3).2)) =
    2%nat ∧
  Endpoint.delete_keyword (2 ^ 63) Scenario.w3 =
    (Raise OverflowError, Scenario.w3).
Proof.
  destruct (delete_keyword_only_removes 2 Scenario.w3)
    as (_ & _ & _ & _ & Hgone & _).
  destruct (delete_keyword_only_removes (2 ^ 63) Scenario.w3)
    as (_ & Hover & _).
  split; [|split].
  - apply Hgone. apply (bool_decide_unpack _). vm_compute. exact I.
  - vm_compute. reflexivity.
  - apply Hover. apply (bool_decide_unpack _). vm_compute. exact I.
Defined.

(** X11. Adding a new keyword that binds and deleting it by its id
    gives the keywords table back as it was. The id it got is the
    counter plus one, an id no row had, and it is not given out again:
    the counter stays advanced, so a keyword added after the delete
    gets the next id. *)
Theorem add_then_delete_restores_keywords :
  ∀ clock t w,
    keyword_ids_ok (store w) →
    strip t ≠ [] →
    strip t ∉ terms_of (store w) →
    Forall scalar (strip t) →
    keywords_seq (store w) + 1 < 2 ^ 63 →
    let w1 := (Endpoint.add_keyword clock t w).2 in
    let kid := keywords_seq (store w) + 1 in
    let w2 := (Endpoint.delete_keyword (Z.of_N kid) w1).2 in
    (Endpoint.add_keyword clock t w).1 = Ok () ∧
    select_term_by_id kid (store w1) = Some (strip t) ∧
    (kid ∉ id <$> keywords (store w)) ∧
    (Endpoint.delete_keyword (Z.of_N kid) w1).1 = Ok () ∧
    keywords (store w2) = keywords (store w) ∧
    keywords_seq (store w2) = kid ∧
    (∀ clock' t',
       strip t' ≠ [] → strip t' ∉ terms_of (store w) →
       Forall scalar (strip t') →
       keywords (store (Endpoint.add_keyword clock' t' w2).2) =
         keywords (store w) ++
           [KeywordRow (kid + 1) (strip t') (clock' (length (trace w)))]).
Proof.
  intros clock t w Hids Ht Hnew Hs Hseq w1 kid w2. subst w1 w2 kid.
  rewrite !(endpoint_add_bound clock t w) by done.
  rewrite !endpoint_delete_bound by done.
  destruct (add_delete_spec clock t w Hids Ht Hnew)
    as (H1 & H2 & H3 & H4 & H5).
  destruct (add_keyword_spec clock t w) as (Hok & _).
  destruct (delete_keyword_spec (keywords_seq (store w) + 1)
              (add_keyword clock t w).2) as (Hok' & _).
  split_and!; try done.
  intros clock' t' Ht' Hnew' Hs'. rewrite endpoint_add_bound by done.
  by apply H5.
Qed.

(** X11 on the concrete run: [delta] is added to [w3] and deleted. *)
Lemma add_then_delete_restores_keywords_witness :
  keywords
    (store (Endpoint.delete_keyword
              (Z.of_N (keywords_seq (store Scenario.w3) + 1))
              (Endpoint.add_keyword Scenario.clock (lit "delta")
                 Scenario.w3).2).2) =
  keywords (store Scenario.w3).
Proof.
  destruct (add_then_delete_restores_keywords Scenario.clock (lit "delta")
              Scenario.w3) as (_ & _ & _ & _ & Hk & _).
  - split.
    + apply (bool_decide_unpack _). vm_compute. exact I.
    + apply (bool_decide_unpack _). vm_compute. exact I.
  - vm_compute. discriminate.
  - apply (bool_decide_unpack _). vm_compute. exact I.
  - apply (bool_decide_unpack _). vm_compute. exact I.
  - vm_compute. reflexivity.
  - exact Hk.
Defined.

(** ** Configuration and startup *)

Lemma split_on_nonempty sep s : split_on sep s ≠ [].
Proof.
  destruct s as [|c s]; [done|]. simpl.
  destruct (c =? sep); [done|]. by destruct (split_on sep s).
Qed.

Lemma split_on_join sep s : join [sep] (split_on sep s) = s.
Proof.
  induction s as [|c s IH]; [done|]. simpl.
  destruct (N.eqb_spec c sep) as [->|Hne].
  - pose proof (split_on_nonempty sep s).
    destruct (split_on sep s) as [|p ps] eqn:Hs; [done|].
    simpl in *. by rewrite IH.
  - pose proof (split_on_nonempty sep s).
    destruct (split_on sep s) as [|p ps] eqn:Hs; [done|].
    rewrite <-IH. by destruct ps.
Qed.

Lemma split_on_parts sep s part : part ∈ split_on sep s → sep ∉ part.
Proof.
  revert part. induction s as [|c s IH]; intros part; simpl.
  - intros ->%list_elem_of_singleton. apply not_elem_of_nil.
  - destruct (N.eqb_spec c sep) as [->|Hne].
    + intros [->|Hin]%elem_of_cons; [apply not_elem_of_nil|by apply IH].
    + pose proof (split_on_nonempty sep s).
      destruct (split_on sep s) as [|p ps]; [done|].
      intros [->|Hin]%elem_of_cons.
      * apply not_elem_of_cons. split; [done|]. apply IH. by left.
      * apply IH. by right.
Qed.

Lemma split_on_whole sep s : sep ∉ s → split_on sep s = [s].
Proof.
  induction s as [|c s IH]; [done|].
  intros [Hne Hs]%not_elem_of_cons. simpl.
  destruct (N.eqb_spec c sep); [done|]. by rewrite IH.
Qed.

Lemma split_on_length sep s :
  length (split_on sep s) = S (occurrences sep s).
Proof.
  unfold occurrences. induction s as [|c s IH]; [done|]. cbn [split_on].
  destruct (N.eqb_spec c sep) as [->|Hne].
  - rewrite filter_cons_True by done. simpl. by rewrite IH.
  - rewrite filter_cons_False by done.
    pose proof (split_on_nonempty sep s).
    by destruct (split_on sep s).
Qed.

Lemma default_keywords_elem K t :
  t ∈ default_keywords K ↔
  t ≠ [] ∧ ∃ part, part ∈ split_on comma K ∧ t = strip part.
Proof.
  unfold default_keywords. destruct K as [|c K].
  - simpl. split; [by intros ?%elem_of_nil|].
    intros [Ht (part & ->%list_elem_of_singleton & ->)]. done.
  - cbn [truthy]. rewrite list_elem_of_filter, truthy_true, list_elem_of_fmap.
    split; intros [Ht (part & H1 & H2)]; (split; [done|]); by exists part.
Qed.

Lemma default_keywords_clean K : Forall clean_term (default_keywords K).
Proof.
  apply Forall_forall. intros t [Ht (part & _ & ->)]%default_keywords_elem.
  by apply strip_clean.
Qed.

(** X12. Every default keyword read from [KEYWORDS] is non-empty, has
    no whitespace at either end and holds no comma; it is the stripped
    form of one of the comma-separated parts, and the parts joined with
    commas are the variable's value. A value that is empty or blank
    gives no keyword, and there are never more keywords than commas
    plus one. *)
Theorem default_keywords_are_clean :
  ∀ K,
    Forall clean_term (default_keywords K) ∧
    Forall (λ t, comma ∉ t) (default_keywords K) ∧
    (∀ t, t ∈ default_keywords K ↔
          t ≠ [] ∧ ∃ part, part ∈ split_on comma K ∧ t = strip part) ∧
    join [comma] (split_on comma K) = K ∧
    (blank K → default_keywords K = []) ∧
    (length (default_keywords K) ≤ S (occurrences comma K))%nat.
Proof.
  intros K. split_and!.
  - apply default_keywords_clean.
  - apply Forall_forall. intros t [Ht (part & Hp & ->)]%default_keywords_elem.
    intros Hc%strip_elem. by apply split_on_parts in Hp.
  - apply default_keywords_elem.
  - apply split_on_join.
  - intros Hb. unfold default_keywords. destruct (truthy K); [|done].
    rewrite split_on_whole.
    + simpl. unfold strip. apply lstrip_nil_blank in Hb as ->.
      by rewrite filter_cons_False.
    + intros Hc. unfold blank in Hb. rewrite Forall_forall in Hb.
      by apply Hb in Hc.
  - unfold default_keywords. destruct (truthy K); [|simpl; lia].
    rewrite <-split_on_length.
    etrans; [apply length_filter|]. by rewrite length_fmap.
Qed.

(** X12 on a value with an empty part, a blank part and padding. *)
Lemma default_keywords_are_clean_witness :
  default_keywords (lit " gnn ,, ,zeta") = [lit "gnn"; lit "zeta"] ∧
  default_keywords [32; 9] = [].
Proof.
  destruct (default_keywords_are_clean [32; 9]) as (_ & _ & _ & _ & Hb & _).
  split; [vm_compute; reflexivity|].
  apply Hb. repeat constructor.
Defined.

Lemma foldl_registered_terms now kws db t :
  t ∈ terms_of (foldl (λ db kw, registered now kw db) db kws) ↔
  t ∈ terms_of db ∨ t ∈ kws.
Proof.
  revert db. induction kws as [|kw kws IH]; intros db; simpl.
  - split; [by left|]. by intros [?|?%elem_of_nil].
  - rewrite IH, registered_terms, elem_of_cons.
    split; [intros [[?|?]|?]|intros [?|[?|?]]]; auto.
Qed.

Lemma foldl_registered_seen now kws db :
  seen_papers (foldl (λ db kw, registered now kw db) db kws) = seen_papers db ∧
  keywords db `prefix_of`
    keywords (foldl (λ db kw, registered now kw db) db kws).
Proof.
  revert db. induction kws as [|kw kws IH]; intros db; simpl; [done|].
  destruct (IH (registered now kw db)) as [-> Hp].
  destruct (registered_seen now kw db) as (-> & _ & Hp' & _).
  split; [done|]. by etrans.
Qed.

Lemma foldl_registered_ok now kws db :
  Forall clean_term kws → keywords_ok db →
  keywords_ok (foldl (λ db kw, registered now kw db) db kws).
Proof.
  intros Hkws. revert db. induction Hkws as [|kw kws Hkw _ IH]; intros db Hok;
    [done|].
  simpl. by apply IH, registered_ok.
Qed.

Lemma foldl_registered_known now kws db :
  (∀ t, t ∈ kws → t ∈ terms_of db) →
  foldl (λ db kw, registered now kw db) db kws = db.
Proof.
  induction kws as [|kw kws IH]; intros Hin; [done|]. simpl.
  rewrite registered_known by (apply Hin; by left).
  apply IH. intros t Ht. apply Hin. by right.
Qed.

Lemma first_unbound (kws : list pystr) :
  Forall (Forall scalar) kws ∨
  ∃ pre bad post,
    kws = pre ++ bad :: post ∧ Forall (Forall scalar) pre ∧
    ¬ Forall scalar bad.
Proof.
  induction kws as [|kw kws IH]; [left; constructor|].
  destruct (bind_text_cases kw) as [[Hs _]|[Hs _]].
  - destruct IH as [IH|(pre & bad & post & -> & Hpre & Hbad)].
    + left. by constructor.
    + right. exists (kw :: pre), bad, post. split_and!; [done| |done].
      by constructor.
  - right. exists [], kw, kws. split_and!; [done|constructor|done].
Qed.

Lemma startup_loop clock kws w :
  on_startup_keywords clock kws w = preload_loop clock kws w.
Proof. by destruct kws. Qed.

Lemma preload_loop_bound clock kws w :
  Forall (Forall scalar) kws →
  preload_loop clock kws w =
    (Ok (),
     World (foldl (λ db kw, registered (clock (length (trace w))) kw db)
              (store w) kws)
       (trace w)).
Proof.
  intros Hkws. revert w.
  induction Hkws as [|kw kws Hkw _ IH]; intros w; [by destruct w|].
  cbn [preload_loop]. unfold mbind, M_bind. rewrite insert_step.
  destruct (bind_text_cases kw) as [[_ ->]|[? _]]; [|done].
  by rewrite IH.
Qed.

Lemma preload_loop_unbound clock pre bad post w :
  Forall (Forall scalar) pre → ¬ Forall scalar bad →
  preload_loop clock (pre ++ bad :: post) w =
    (Raise UnicodeEncodeError,
     World (foldl (λ db kw, registered (clock (length (trace w))) kw db)
              (store w) pre)
       (trace w)).
Proof.
  intros Hpre Hbad. revert w.
  induction Hpre as [|kw pre Hkw _ IH]; intros w.
  - cbn [app preload_loop]. unfold mbind, M_bind. rewrite insert_step.
    destruct (bind_text_cases bad) as [[? _]|[_ ->]]; [done|].
    by destruct w.
  - cbn [app preload_loop]. unfold mbind, M_bind. rewrite insert_step.
    destruct (bind_text_cases kw) as [[_ ->]|[? _]]; [|done].
    by rewrite IH.
Qed.

(** X13. The startup loop registers the default keywords up to the
    first one that sqlite3 cannot bind. It returns normally exactly
    when no default keyword holds a lone surrogate, and then the
    registered terms are those from before and the default keywords.
    At the first keyword that does not bind it raises
    UnicodeEncodeError, with the keywords before that one registered
    and none behind it. In either case no other term is added, the
    rows from before are kept in front, and [seen_papers] and the
    trace are untouched; a restart ends as the first run did and
    changes nothing more. For default keywords that are clean and bind
    the loop does what [add_keyword] does for each of them in turn. *)
Theorem startup_registers_default_keywords :
  ∀ clock kws w,
    let r := on_startup_keywords clock kws w in
    (r.1 = Ok () ↔ Forall (Forall scalar) kws) ∧
    (∀ pre bad post,
       kws = pre ++ bad :: post →
       Forall (Forall scalar) pre → ¬ Forall scalar bad →
       r = (Raise UnicodeEncodeError, (on_startup_keywords clock pre w).2)) ∧
    trace r.2 = trace w ∧
    seen_papers (store r.2) = seen_papers (store w) ∧
    (∀ t, t ∈ terms_of (store r.2) → t ∈ terms_of (store w) ∨ t ∈ kws) ∧
    (Forall (Forall scalar) kws →
     ∀ t, t ∈ terms_of (store r.2) ↔ t ∈ terms_of (store w) ∨ t ∈ kws) ∧
    keywords (store w) `prefix_of` keywords (store r.2) ∧
    (∀ clock', on_startup_keywords clock' kws r.2 = (r.1, r.2)) ∧
    (Forall clean_term kws → Forall (Forall scalar) kws →
     r.2 = foldl (λ w kw, (Endpoint.add_keyword clock kw w).2) w kws).
Proof.
  intros clock kws w r. subst r.
  assert (Hbad : ∀ pre bad post,
            kws = pre ++ bad :: post →
            Forall (Forall scalar) pre → ¬ Forall scalar bad →
            on_startup_keywords clock kws w =
              (Raise UnicodeEncodeError, (on_startup_keywords clock pre w).2)).
  { intros pre bad post -> Hpre Hb. rewrite !startup_loop.
    by rewrite preload_loop_unbound, preload_loop_bound. }
  destruct (first_unbound kws)
    as [Hall|(pre & bad & post & Hkws & Hpre & Hb)].
  - assert (Hr : on_startup_keywords clock kws w =
              (Ok (),
               World (foldl (λ db kw,
                               registered (clock (length (trace w))) kw db)
                        (store w) kws) (trace w)))
      by (rewrite startup_loop; by apply preload_loop_bound).
    rewrite Hr. simpl.
    destruct (foldl_registered_seen (clock (length (trace w))) kws (store w))
      as [Hs Hp].
    split_and!.
    + by split.
    + intros pre bad post Hkws Hpre Hb. rewrite <-Hr. by eapply Hbad.
    + done.
    + done.
    + intros t. by rewrite foldl_registered_terms.
    + intros _ t. apply foldl_registered_terms.
    + done.
    + intros clock'. rewrite startup_loop, preload_loop_bound by done. simpl.
      rewrite foldl_registered_known; [done|].
      intros t Ht. apply foldl_registered_terms. by right.
    + intros Hclean _. clear Hbad Hr Hs Hp. revert w.
      induction Hclean as [|kw kws [Hne Hst] _ IH]; intros w;
        [by destruct w|].
      apply Forall_cons in Hall as [Hkw Hall].
      simpl. rewrite endpoint_add, Hst.
      apply truthy_true in Hne as ->.
      destruct (bind_text_cases kw) as [[_ ->]|[? _]]; [|done]. simpl.
      by rewrite <-(IH Hall).
  - rewrite (Hbad pre bad post Hkws Hpre Hb).
    assert (Hr : on_startup_keywords clock pre w =
              (Ok (),
               World (foldl (λ db kw,
                               registered (clock (length (trace w))) kw db)
                        (store w) pre) (trace w)))
      by (rewrite startup_loop; by apply preload_loop_bound).
    rewrite Hr. simpl.
    destruct (foldl_registered_seen (clock (length (trace w))) pre (store w))
      as [Hs Hp].
    assert (Hnot : ¬ Forall (Forall scalar) kws).
    { rewrite Hkws. intros [_ [? _]%Forall_cons]%Forall_app. done. }
    split_and!.
    + split; [done|intros; contradiction].
    + intros pre' bad' post' Hkws' Hpre' Hb'.
      rewrite <-(Hbad pre' bad' post' Hkws' Hpre' Hb').
      rewrite (Hbad pre bad post Hkws Hpre Hb). by rewrite Hr.
    + done.
    + done.
    + intros t [?|Ht]%foldl_registered_terms; [by left|]. right.
      rewrite Hkws. apply elem_of_app. by left.
    + intros; contradiction.
    + done.
    + intros clock'. rewrite Hkws, startup_loop.
      rewrite preload_loop_unbound by done. simpl.
      rewrite foldl_registered_known; [done|].
      intros t Ht. apply foldl_registered_terms. by right.
    + intros; contradiction.
Qed.

(** X13 on the default keywords of a padded value, and on a list whose
    second keyword is a lone surrogate. *)
Lemma startup_registers_default_keywords_witness :
  (on_startup_keywords Scenario.clock
     (default_keywords (lit "zeta, gnn ,zeta")) Scenario.w0).2 =
  (Endpoint.add_keyword Scenario.clock Scenario.gnn
     (Endpoint.add_keyword Scenario.clock Scenario.zeta Scenario.w0).2).2 ∧
  on_startup_keywords Scenario.clock
    ([Scenario.zeta] ++ [0xDC80] :: [Scenario.gnn]) Scenario.w0 =
  (Raise UnicodeEncodeError,
   (on_startup_keywords Scenario.clock [Scenario.zeta] Scenario.w0).2).
Proof.
  split.
  - destruct (startup_registers_default_keywords Scenario.clock
                (default_keywords (lit "zeta, gnn ,zeta")) Scenario.w0)
      as (_ & _ & _ & _ & _ & _ & _ & _ & Hadd).
    rewrite Hadd.
    + vm_compute. reflexivity.
    + apply default_keywords_clean.
    + apply (bool_decide_unpack _). vm_compute. exact I.
  - destruct (startup_registers_default_keywords Scenario.clock
                ([Scenario.zeta] ++ [0xDC80] :: [Scenario.gnn]) Scenario.w0)
      as (_ & Hbad & _).
    apply (Hbad [Scenario.zeta] [0xDC80] [Scenario.gnn]).
    + reflexivity.
    + apply (bool_decide_unpack _). vm_compute. exact I.
    + apply (bool_decide_unpack _). vm_compute. exact I.
Defined.

(** ** The invariants of the keywords table *)

Lemma keywords_ok_sublist db db' :
  keywords db' `sublist_of` keywords db →
  keywords_seq db' = keywords_seq db →
  keywords_ok db → keywords_ok db'.
Proof.
  intros Hsub Hseq (Hu & Hc & Hn & Hb).
  unfold keywords_ok, keywords_unique, terms_clean, keyword_ids_ok.
  rewrite Hseq. unfold terms_clean in Hc.
  rewrite Forall_forall in Hc. rewrite Forall_forall in Hb. split_and!.
  - eapply sublist_NoDup; [done|]. by apply fmap_sublist.
  - apply Forall_forall. intros r Hr. apply Hc. by eapply elem_of_sublist.
  - eapply sublist_NoDup; [done|]. by apply fmap_sublist.
  - apply Forall_forall. intros r Hr. apply Hb. by eapply elem_of_sublist.
Qed.

Lemma delete_keyword_keywords kid w :
  keywords (store (delete_keyword kid w).2) `sublist_of` keywords (store w) ∧
  keywords_seq (store (delete_keyword kid w).2) = keywords_seq (store w).
Proof.
  rewrite delete_keyword_world. simpl.
  destruct (select_term_by_id kid (store w)); simpl;
    (split; [|done]); [apply sublist_filter|done].
Qed.

Lemma delete_keyword_only_seen kid w :
  seen_papers (store (delete_keyword kid w).2) `sublist_of`
    seen_papers (store w) ∧
  seen_papers_seq (store (delete_keyword kid w).2) = seen_papers_seq (store w).
Proof.
  rewrite delete_keyword_world. simpl.
  destruct (select_term_by_id kid (store w)); simpl;
    (split; [|done]); [apply sublist_filter|done].
Qed.

Lemma add_keyword_ok clock t w :
  keywords_ok (store w) → keywords_ok (store (add_keyword clock t w).2).
Proof.
  intros Hok. rewrite add_keyword_registered. simpl.
  destruct (truthy (strip t)) eqn:Ht; [|done]. simpl.
  apply registered_ok; [|done]. split; [by apply truthy_true|].
  apply strip_idem.
Qed.

Lemma startup_ok clock kws w :
  Forall clean_term kws →
  keywords_ok (store w) →
  keywords_ok (store (on_startup_keywords clock kws w).2).
Proof.
  intros Hkws Hok. rewrite startup_loop.
  destruct (first_unbound kws)
    as [Hall|(pre & bad & post & -> & Hpre & Hb)].
  - rewrite preload_loop_bound by done. simpl.
    by apply foldl_registered_ok.
  - rewrite preload_loop_unbound by done. simpl.
    apply foldl_registered_ok; [|done].
    by apply Forall_app in Hkws as [? _].
Qed.

Lemma init_db_ok : keywords_ok init_db.
Proof.
  unfold keywords_ok, keywords_unique, terms_clean, keyword_ids_ok. simpl.
  split_and!; constructor.
Qed.

(** X14. The keywords table keeps its invariants. On a new database,
    and after any [add_keyword], [delete_keyword], startup loop over the
    default keywords of a [KEYWORDS] value, or cycle on a database that
    had them, no two rows share a term or an id, no id is above the
    counter, and every term is non-empty with no whitespace at either
    end. So a row is known by its term as well as by its id. *)
Theorem keywords_table_invariants :
  keywords_ok init_db ∧
  ∀ w, keywords_ok (store w) →
    (∀ clock t, keywords_ok (store (add_keyword clock t w).2)) ∧
    (∀ kid, keywords_ok (store (delete_keyword kid w).2)) ∧
    (∀ clock K,
       keywords_ok
         (store (on_startup_keywords clock (default_keywords K) w).2)) ∧
    (∀ URL LIMIT search post clock,
       keywords_ok (store (run_cycle URL LIMIT search post clock w).2)) ∧
    (∀ r1 r2, r1 ∈ keywords (store w) → r2 ∈ keywords (store w) →
       term r1 = term r2 ∨ id r1 = id r2 → r1 = r2) ∧
    (∀ t, t ∈ terms_of (store w) → t ≠ [] ∧ strip t = t) ∧
    NoDup (select_terms (store w)).
Proof.
  split; [apply init_db_ok|].
  intros w Hok. split_and!.
  - intros clock t. by apply add_keyword_ok.
  - intros kid.
    destruct (delete_keyword_keywords kid w) as (Hsub & Hseq).
    by eapply keywords_ok_sublist.
  - intros clock K. apply startup_ok; [apply default_keywords_clean|done].
  - intros URL LIMIT search post clock.
    destruct (run_cycle URL LIMIT search post clock w) as [r w'] eqn:Hc.
    apply cycle_appends in Hc as (_ & Hk & Hq & _). simpl.
    destruct Hok as (Hu & Hcl & Hn & Hb).
    unfold keywords_ok, keywords_unique, terms_clean, keyword_ids_ok.
    by rewrite Hk, Hq.
  - intros r1 r2 H1 H2 [Ht|Hi].
    + destruct Hok as (Hu & _). by eapply (NoDup_fmap_eq term).
    + destruct Hok as (_ & _ & Hn & _). by eapply (NoDup_fmap_eq id).
  - intros t (r & -> & Hr)%list_elem_of_fmap.
    destruct Hok as (_ & Hcl & _). unfold terms_clean in Hcl.
    rewrite Forall_forall in Hcl.
    by apply Hcl.
  - apply select_terms_NoDup. by destruct Hok.
Qed.

(** X14 on the concrete run: the table after a startup on a new
    database, an [add_keyword] and a [delete_keyword]. *)
Lemma keywords_table_invariants_witness :
  keywords_ok
    (store (delete_keyword 1
              (add_keyword Scenario.clock (lit " delta ")
                 (on_startup_keywords Scenario.clock
                    (default_keywords (lit "zeta, gnn"))
                    (World init_db [])).2).2).2).
Proof.
  destruct keywords_table_invariants as [H0 H].
  destruct (H (World init_db []) H0) as (_ & _ & H1 & _).
  specialize (H1 Scenario.clock (lit "zeta, gnn")).
  destruct (H _ H1) as (H2 & _).
  specialize (H2 Scenario.clock (lit " delta ")).
  destruct (H _ H2) as (_ & H3 & _).
  exact (H3 1).
Defined.

(** ** The invariant of the stored rows *)

Lemma row_keeps_consistent URL post clock kw p n w r w' :
  process_row URL post clock kw p n w = (r, w') →
  seen_consistent (store w) → seen_consistent (store w').
Proof.
  intros Hrow Hc.
  destruct (row_cases URL post clock kw p n w)
    as [[_ H]|[(fp & _ & _ & H)|(fp & db' & evs & Hfp & _ & Hi & _ & _ & H)]].
  - rewrite H in Hrow. by injection Hrow as _ <-.
  - rewrite H in Hrow. by injection Hrow as _ <-.
  - pose proof (release_insert _ _ _ _ _ _ Hi) as Hrel.
    apply insert_seen_inv in Hi as (_ & _ & Hrows).
    destruct H as [[H _]|(e & H & _)]; rewrite H in Hrow;
      injection Hrow as _ <-; unfold seen_consistent; cbn [store].
    + rewrite Hrows. apply Forall_app. split; [done|].
      constructor; [|constructor]. unfold row_consistent, row_paper. simpl.
      by destruct p.
    + by rewrite Hrel.
Qed.

Lemma keyword_keeps_consistent URL LIMIT search post clock kw w :
  seen_consistent (store w) →
  seen_consistent (store (process_keyword URL LIMIT search post clock kw w).2).
Proof.
  destruct (process_keyword _ _ _ _ _ _ _) as [r w'] eqn:Hk. simpl.
  revert Hk.
  apply (keyword_lift URL LIMIT search post clock
           (λ w w', seen_consistent (store w) → seen_consistent (store w')));
    [done|auto|done|].
  intros kw0 p n0 w0 r0 w0'. apply row_keeps_consistent.
Qed.

Lemma cycle_keeps_consistent URL LIMIT search post clock w :
  seen_consistent (store w) →
  seen_consistent (store (run_cycle URL LIMIT search post clock w).2).
Proof.
  destruct (run_cycle _ _ _ _ _ _) as [r w'] eqn:Hc. simpl.
  revert Hc.
  apply (cycle_lift URL LIMIT search post clock
           (λ w w', seen_consistent (store w) → seen_consistent (store w')));
    [done|auto|done|].
  intros kw0 p n0 w0 r0 w0'. apply row_keeps_consistent.
Qed.

Lemma fingerprint_strip_eq t a y u t' a' y' u' :
  strip t = strip t' → strip a = strip a' →
  strip y = strip y' → strip u = strip u' →
  _fingerprint t a y u = _fingerprint t' a' y' u'.
Proof.
  intros Ht Ha Hy Hu. unfold _fingerprint, fingerprint_base.
  by rewrite Ht, Ha, Hy, Hu.
Qed.

(** X15. The fingerprint of every stored row is the fingerprint of the
    row's own title, authors, year and url. This holds on a new
    database and is kept by a cycle, by the processing of one keyword,
    by [add_keyword] and by [delete_keyword]. So every stored
    fingerprint has 64 hexadecimal digits, and, together with
    UNIQUE(kw_term, fingerprint), no keyword has two rows whose fields
    differ in outer whitespace only. *)
Theorem stored_fingerprint_matches_fields :
  seen_consistent init_db ∧
  ∀ w, seen_consistent (store w) →
    (∀ URL LIMIT search post clock,
       seen_consistent (store (run_cycle URL LIMIT search post clock w).2)) ∧
    (∀ URL LIMIT search post clock kw,
       seen_consistent
         (store (process_keyword URL LIMIT search post clock kw w).2)) ∧
    (∀ clock t, seen_consistent (store (add_keyword clock t w).2)) ∧
    (∀ kid, seen_consistent (store (delete_keyword kid w).2)) ∧
    (∀ r, r ∈ seen_papers (store w) →
       _fingerprint (title r) (authors r) (year r) (url r) =
         Some (fingerprint r) ∧
       length (fingerprint r) = 64%nat ∧ Forall is_hex (fingerprint r)) ∧
    (seen_unique (store w) →
     ∀ r1 r2, r1 ∈ seen_papers (store w) → r2 ∈ seen_papers (store w) →
       kw_term r1 = kw_term r2 →
       strip (title r1) = strip (title r2) →
       strip (authors r1) = strip (authors r2) →
       strip (year r1) = strip (year r2) →
       strip (url r1) = strip (url r2) →
       r1 = r2).
Proof.
  split; [constructor|].
  intros w Hc. split_and!.
  - intros. by apply cycle_keeps_consistent.
  - intros. by apply keyword_keeps_consistent.
  - intros clock t. unfold seen_consistent.
    by destruct (add_keyword_seen clock t w) as [_ ->].
  - intros kid. unfold seen_consistent.
    destruct (delete_keyword_only_seen kid w) as [Hsub _].
    unfold seen_consistent in Hc. rewrite Forall_forall in Hc.
    apply Forall_forall. intros r Hr. apply Hc. by eapply elem_of_sublist.
  - intros r Hr. unfold seen_consistent in Hc. rewrite Forall_forall in Hc.
    specialize (Hc r Hr). unfold row_consistent, row_paper, fp_of in Hc.
    simpl in Hc. split; [done|].
    apply fingerprint_some in Hc as (m & _ & ->). apply sha256_hex_shape.
  - intros Hu r1 r2 H1 H2 Hk Ht Ha Hy Hl.
    unfold seen_consistent in Hc. rewrite Forall_forall in Hc.
    pose proof (Hc r1 H1) as Hf1. pose proof (Hc r2 H2) as Hf2.
    unfold row_consistent, row_paper, fp_of in Hf1, Hf2. simpl in Hf1, Hf2.
    rewrite (fingerprint_strip_eq _ _ _ _ _ _ _ _ Ht Ha Hy Hl) in Hf1.
    rewrite Hf1 in Hf2. injection Hf2 as Hf.
    eapply (NoDup_fmap_eq seen_key); [done..|].
    unfold seen_key. by rewrite Hk, Hf.
Qed.

(** X15 on the concrete run: the rows after [zeta] was added to a new
    database and a cycle was run. *)
Lemma stored_fingerprint_matches_fields_witness :
  seen_consistent
    (store (run_cycle Scenario.hook Scenario.limit Scenario.search
              Scenario.post Scenario.clock
              (add_keyword Scenario.clock Scenario.zeta
                 (World init_db [])).2).2).
Proof.
  destruct stored_fingerprint_matches_fields as [H0 H].
  destruct (H (World init_db []) H0) as (_ & _ & H1 & _).
  specialize (H1 Scenario.clock Scenario.zeta).
  destruct (H _ H1) as (H2 & _).
  exact (H2 Scenario.hook Scenario.limit Scenario.search Scenario.post
           Scenario.clock).
Defined.

(** ** A keyword processed to its end *)

Lemma rows_count_le URL post clock kw ps n w m w' :
  process_rows URL post clock kw ps n w = (Ok m, w') →
  (n ≤ m ≤ n + length ps)%nat.
Proof.
  revert n w. induction ps as [|p ps IH]; intros n w.
  - rewrite rows_nil. intros [= <- <-]. simpl. lia.
  - rewrite rows_cons.
    destruct (process_row URL post clock kw p n w) as [[k|e] w1] eqn:Hrow;
      [|done].
    intros Hrest%IH. simpl.
    destruct (row_cases URL post clock kw p n w)
      as [[_ H]|[(fp & _ & _ & H)|(fp & db' & evs & _ & _ & _ & _ & _ & H)]].
    + by rewrite H in Hrow.
    + rewrite H in Hrow. injection Hrow as <- _. lia.
    + destruct H as [[H _]|(e & H & _)]; rewrite H in Hrow; [|done].
      injection Hrow as <- _. lia.
Qed.

(** X16. A keyword that was processed without an exception has every
    candidate of its search recorded: each has a fingerprint, and the
    pair of the keyword and that fingerprint is stored afterwards. The
    number returned is the number of rows the table grew by, at most the
    number of candidates. When the keyword is processed again on a
    store that still holds these pairs, and the search gives the same
    candidates, nothing is posted or stored and 0 is returned. *)
Theorem completed_keyword_records_every_candidate :
  ∀ URL LIMIT search post clock kw w n w',
    process_keyword URL LIMIT search post clock kw w = (Ok n, w') →
    ∃ ps,
      (fetch_scholar_results search kw LIMIT w).1 = Ok ps ∧
      Forall (λ p, ∃ fp, fp_of p = Some fp ∧ has_seen kw fp (store w')) ps ∧
      length (seen_papers (store w')) =
        (length (seen_papers (store w)) + n)%nat ∧
      (n ≤ length ps)%nat ∧
      ∀ URL' search' post' clock' w2,
        (∀ fp, has_seen kw fp (store w') → has_seen kw fp (store w2)) →
        (fetch_scholar_results search' kw LIMIT w2).1 = Ok ps →
        process_keyword URL' LIMIT search' post' clock' kw w2 =
          (Ok 0%nat,
           World (store w2) (trace w2 ++ EvSearch kw :: refused kw ps)).
Proof.
  intros URL LIMIT search post clock kw w n w' Hk.
  pose proof Hk as (evs & Hstep & -> & _)%keyword_summary.
  destruct Hstep as (_ & _ & _ & _ & _ & Hlen). simpl in Hlen.
  rewrite keyword_unfold in Hk.
  pose proof (fetch_world search kw LIMIT w) as Hw.
  destruct (fetch_scholar_results search kw LIMIT w) as [[ps|e] w0];
    [|done].
  simpl in Hw. subst w0. exists ps.
  pose proof (rows_ok_seen _ _ _ _ _ _ _ _ _ Hk) as Hseen.
  pose proof (rows_count_le _ _ _ _ _ _ _ _ _ Hk) as Hle.
  split_and!; [done|done|done|lia|].
  intros URL' search' post' clock' w2 Hkeep Hfetch.
  rewrite keyword_unfold.
  pose proof (fetch_world search' kw LIMIT w2) as Hw2.
  destruct (fetch_scholar_results search' kw LIMIT w2) as [r2 w0].
  simpl in Hfetch, Hw2. subst r2 w0.
  rewrite rows_refused.
  - simpl. by rewrite <-app_assoc.
  - eapply Forall_impl; [done|]. intros p (fp & Hfp & Hs). simpl.
    exists fp. split; [done|]. apply Hkeep in Hs.
    unfold has_seen in *. done.
Qed.

(** X16 on the concrete run: [zeta] on a new database, then again. *)
Lemma completed_keyword_records_every_candidate_witness :
  ∃ ps,
    (fetch_scholar_results Scenario.search Scenario.zeta Scenario.limit
       Scenario.z0).1 = Ok ps ∧
    Forall
      (λ p, ∃ fp, fp_of p = Some fp ∧
         has_seen Scenario.zeta fp
           (store (process_keyword Scenario.hook Scenario.limit
                     Scenario.search Scenario.post Scenario.clock
                     Scenario.zeta Scenario.z0).2)) ps ∧
    length (seen_papers
              (store (process_keyword Scenario.hook Scenario.limit
                        Scenario.search Scenario.post Scenario.clock
                        Scenario.zeta Scenario.z0).2)) =
      (length (seen_papers (store Scenario.z0)) + 3)%nat ∧
    (3 ≤ length ps)%nat ∧
    ∀ URL' search' post' clock' w2,
      (∀ fp,
         has_seen Scenario.zeta fp
           (store (process_keyword Scenario.hook Scenario.limit
                     Scenario.search Scenario.post Scenario.clock
                     Scenario.zeta Scenario.z0).2) →
         has_seen Scenario.zeta fp (store w2)) →
      (fetch_scholar_results search' Scenario.zeta Scenario.limit w2).1 =
        Ok ps →
      process_keyword URL' Scenario.limit search' post' clock' Scenario.zeta
        w2 =
        (Ok 0%nat,
         World (store w2)
           (trace w2 ++ EvSearch Scenario.zeta :: refused Scenario.zeta ps)).
Proof.
  apply (completed_keyword_records_every_candidate Scenario.hook
           Scenario.limit Scenario.search Scenario.post Scenario.clock
           Scenario.zeta Scenario.z0 3
           (process_keyword Scenario.hook Scenario.limit
              Scenario.search Scenario.post Scenario.clock
              Scenario.zeta Scenario.z0).2).
  vm_compute. reflexivity.
Defined.

(** ** [html.escape] *)

Lemma replace_char_app old new a b :
  replace_char old new (a ++ b) =
    replace_char old new a ++ replace_char old new b.
Proof. unfold replace_char. rewrite fmap_app. apply join_app. Qed.

Lemma html_escape_app a b : html_escape (a ++ b) = html_escape a ++ html_escape b.
Proof. unfold html_escape. by rewrite !replace_char_app. Qed.

Lemma replace_char_other old new c :
  c ≠ old → replace_char old new [c] = [c].
Proof.
  intros Hc. unfold replace_char. simpl.
  by destruct (N.eqb_spec c old).
Qed.

Lemma html_escape_one c : html_escape [c] = escape_char c.
Proof.
  unfold escape_char.
  destruct (N.eqb_spec c 38) as [->|H1]; [vm_compute; reflexivity|].
  destruct (N.eqb_spec c 60) as [->|H2]; [vm_compute; reflexivity|].
  destruct (N.eqb_spec c 62) as [->|H3]; [vm_compute; reflexivity|].
  destruct (N.eqb_spec c 34) as [->|H4]; [vm_compute; reflexivity|].
  destruct (N.eqb_spec c 39) as [->|H5]; [vm_compute; reflexivity|].
  unfold html_escape. by rewrite !replace_char_other.
Qed.

Lemma html_escape_cons c s :
  html_escape (c :: s) = escape_char c ++ html_escape s.
Proof.
  change (c :: s) with ([c] ++ s).
  by rewrite html_escape_app, html_escape_one.
Qed.

Lemma html_escape_join s : html_escape s = mjoin (escape_char <$> s).
Proof.
  induction s as [|c s IH]; [done|].
  by rewrite html_escape_cons, IH.
Qed.

Lemma escape_char_cases c :
  (c = 38 ∧ escape_char c = [38; 97; 109; 112; 59]) ∨
  (c = 60 ∧ escape_char c = [38; 108; 116; 59]) ∨
  (c = 62 ∧ escape_char c = [38; 103; 116; 59]) ∨
  (c = 34 ∧ escape_char c = [38; 113; 117; 111; 116; 59]) ∨
  (c = 39 ∧ escape_char c = [38; 35; 120; 50; 55; 59]) ∨
  (c ≠ 38 ∧ ¬ markup c ∧ escape_char c = [c]).
Proof.
  unfold escape_char, markup.
  destruct (N.eqb_spec c 38) as [->|H1]; [by left|].
  destruct (N.eqb_spec c 60) as [->|H2]; [by right; left|].
  destruct (N.eqb_spec c 62) as [->|H3]; [by right; right; left|].
  destruct (N.eqb_spec c 34) as [->|H4]; [by right; right; right; left|].
  destruct (N.eqb_spec c 39) as [->|H5]; [by right; right; right; right; left|].
  do 5 right. split_and!; [done| |done]. intros [?|[?|[?|?]]]; done.
Qed.

Lemma escape_char_no_markup c : Forall (λ x, ¬ markup x) (escape_char c).
Proof.
  destruct (escape_char_cases c)
    as [[_ ->]|[[_ ->]|[[_ ->]|[[_ ->]|[[_ ->]|(_ & Hm & ->)]]]]];
    repeat (constructor; [unfold markup; lia|]); try constructor.
  - done.
  - constructor.
Qed.

Lemma escape_char_length c : (1 ≤ length (escape_char c) ≤ 6)%nat.
Proof.
  destruct (escape_char_cases c)
    as [[_ ->]|[[_ ->]|[[_ ->]|[[_ ->]|[[_ ->]|(_ & _ & ->)]]]]];
    simpl; lia.
Qed.

Lemma escape_char_prefix c c' r r' :
  escape_char c ++ r = escape_char c' ++ r' → c = c' ∧ r = r'.
Proof.
  destruct (escape_char_cases c)
    as [[-> ->]|[[-> ->]|[[-> ->]|[[-> ->]|[[-> ->]|(Hc & _ & ->)]]]]];
  destruct (escape_char_cases c')
    as [[-> ->]|[[-> ->]|[[-> ->]|[[-> ->]|[[-> ->]|(Hc' & _ & ->)]]]]];
  simpl; intros H; try discriminate H;
    try (injection H as H; (split; [congruence|done])).
  all: injection H as H1 H2; congruence.
Qed.

Lemma html_escape_inj s s' : html_escape s = html_escape s' → s = s'.
Proof.
  revert s'. induction s as [|c s IH]; intros [|c' s'].
  - done.
  - rewrite html_escape_cons. simpl.
    pose proof (escape_char_length c'). destruct (escape_char c'); simpl in *;
      [lia|done].
  - rewrite html_escape_cons. simpl.
    pose proof (escape_char_length c). destruct (escape_char c); simpl in *;
      [lia|done].
  - rewrite !html_escape_cons. intros [-> H]%escape_char_prefix.
    by rewrite (IH s').
Qed.

Lemma html_escape_no_markup s : Forall (λ x, ¬ markup x) (html_escape s).
Proof.
  induction s as [|c s IH]; [constructor|].
  rewrite html_escape_cons. apply Forall_app. split; [|done].
  apply escape_char_no_markup.
Qed.

Lemma html_escape_length s :
  (length s ≤ length (html_escape s) ≤ 6 * length s)%nat.
Proof.
  induction s as [|c s IH]; [simpl; lia|].
  rewrite html_escape_cons, length_app. pose proof (escape_char_length c).
  simpl. lia.
Qed.

Lemma html_escape_plain s :
  Forall (λ c, c ≠ 38 ∧ ¬ markup c) s → html_escape s = s.
Proof.
  induction 1 as [|c s [Hc Hm] _ IH]; [done|].
  rewrite html_escape_cons, IH.
  destruct (escape_char_cases c)
    as [[-> _]|[[-> _]|[[-> _]|[[-> _]|[[-> _]|(_ & _ & ->)]]]]];
    try done; destruct Hm; unfold markup; lia.
Qed.

(** X17. [html.escape] works character by character and its output
    holds no angle bracket and no quote, whatever the input. It loses
    nothing: two different strings never give the same output. Text
    with no ampersand, angle bracket or quote is returned as it is, and
    the output is at most six times as long as the input. *)
Theorem html_escape_is_safe :
  ∀ s,
    html_escape s = mjoin (escape_char <$> s) ∧
    Forall (λ c, ¬ markup c) (html_escape s) ∧
    (∀ s', html_escape s = html_escape s' → s = s') ∧
    (Forall (λ c, c ≠ 38 ∧ ¬ markup c) s → html_escape s = s) ∧
    (length s ≤ length (html_escape s) ≤ 6 * length s)%nat.
Proof.
  intros s. split_and!.
  - apply html_escape_join.
  - apply html_escape_no_markup.
  - apply html_escape_inj.
  - apply html_escape_plain.
  - apply html_escape_length.
  - apply html_escape_length.
Qed.

(** X17 on a keyword that is a script tag, and on a plain one. *)
Lemma html_escape_is_safe_witness :
  Forall (λ c, ¬ markup c) (html_escape (lit "<script>alert('x')</script>")) ∧
  html_escape (lit "graph neural networks") = lit "graph neural networks".
Proof.
  split.
  - exact (proj1 (proj2 (html_escape_is_safe
                           (lit "<script>alert('x')</script>")))).
  - apply (proj1 (proj2 (proj2 (proj2 (html_escape_is_safe
                                         (lit "graph neural networks")))))).
    apply (bool_decide_unpack _). vm_compute. exact I.
Defined.

(** ** The rows of the options page *)

Lemma occurrences_app c (a b : list N) :
  occurrences c (a ++ b) = (occurrences c a + occurrences c b)%nat.
Proof. unfold occurrences. by rewrite filter_app, length_app. Qed.

Lemma occurrences_none c (s : list N) :
  Forall (λ x, x ≠ c) s → occurrences c s = 0%nat.
Proof.
  unfold occurrences. induction 1 as [|x s Hx _ IH]; [done|].
  by rewrite filter_cons_False.
Qed.

Lemma occurrences_escape c s : markup c → occurrences c (html_escape s) = 0%nat.
Proof.
  intros Hc. apply occurrences_none.
  eapply Forall_impl; [apply html_escape_no_markup|].
  intros x Hx ->. done.
Qed.

Lemma string_of_uint_digits d :
  Forall (λ c, 48 <= c <= 57) (lit (NilEmpty.string_of_uint d)).
Proof.
  induction d; simpl; try constructor; try done; unfold N_of_ascii; simpl; lia.
Qed.

Lemma str_of_int_digits n : Forall (λ c, 48 <= c <= 57) (str_of_int n).
Proof.
  unfold str_of_int, NilZero.string_of_uint.
  destruct (N.to_uint n) eqn:Hd; try (rewrite <-Hd; apply string_of_uint_digits).
  constructor; [vm_compute; split; discriminate|constructor].
Qed.

Lemma occurrences_str_of_int c n : markup c → occurrences c (str_of_int n) = 0%nat.
Proof.
  intros Hc. apply occurrences_none.
  eapply Forall_impl; [apply str_of_int_digits|].
  intros x Hx ->. unfold markup in Hc. lia.
Qed.

Lemma index_row_markup c row :
  markup c → occurrences c (index_row row) = occurrences c (index_row (0%N, [])).
Proof.
  intros Hc. unfold index_row. cbn [fst snd].
  rewrite !occurrences_app, !occurrences_escape, !occurrences_str_of_int by done.
  done.
Qed.

Lemma occurrences_rows c (rows : list (N * pystr)) :
  markup c →
  occurrences c (mjoin (index_row <$> rows)) =
    (length rows * occurrences c (index_row (0%N, [])))%nat.
Proof.
  intros Hc. induction rows as [|row rows IH]; [done|].
  rewrite fmap_cons. change (mjoin (?x :: ?l)) with (x ++ mjoin l).
  rewrite occurrences_app, IH, index_row_markup by done. simpl. lia.
Qed.

Lemma select_id_term_length db :
  length (select_id_term db) = length (keywords db).
Proof.
  unfold select_id_term. rewrite length_fmap.
  by rewrite (merge_sort_Permutation row_term_le (keywords db)).
Qed.

Lemma select_id_term_elem db kid t :
  (kid, t) ∈ select_id_term db ↔
  ∃ r, r ∈ keywords db ∧ id r = kid ∧ term r = t.
Proof.
  unfold select_id_term. rewrite list_elem_of_fmap. split.
  - intros (r & [= -> ->] & Hr).
    rewrite (merge_sort_Permutation row_term_le (keywords db)) in Hr.
    by exists r.
  - intros (r & Hr & <- & <-). exists r. split; [done|].
    by rewrite (merge_sort_Permutation row_term_le (keywords db)).
Qed.

Lemma select_id_term_order db : (select_id_term db).*2 = select_terms db.
Proof.
  unfold select_id_term, select_terms. rewrite <-list_fmap_compose.
  apply (@StronglySorted_unique _ pystr_le pystr_le_antisym).
  - apply (StronglySorted_fmap _ row_term_le); [done|].
    apply (@StronglySorted_merge_sort _ row_term_le _).
    + intros a b c. apply pystr_le_trans.
    + intros a b. apply pystr_le_total.
  - apply select_terms_sorted.
  - rewrite (merge_sort_Permutation pystr_le).
    change ((snd ∘ (λ r, (id r, term r)))) with term.
    by rewrite (merge_sort_Permutation row_term_le (keywords db)).
Qed.

Lemma index_row_nonempty row : index_row row ≠ [].
Proof. done. Qed.

Lemma index_rows_join db :
  keywords db ≠ [] →
  index_rows_html db = mjoin (index_row <$> select_id_term db).
Proof.
  intros Hk. unfold index_rows_html, or_else.
  pose proof (select_id_term_length db) as Hlen.
  destruct (select_id_term db) as [|row rows]; simpl in *.
  - by destruct (keywords db).
  - done.
Qed.

Lemma delete_listed_keyword kid t w :
  keywords_ok (store w) →
  (kid, t) ∈ select_id_term (store w) →
  ∀ t', t' ∈ terms_of (store (delete_keyword kid w).2) ↔
        t' ∈ terms_of (store w) ∧ t' ≠ t.
Proof.
  intros (Hu & _ & Hn & _) (r & Hr & <- & <-)%select_id_term_elem t'.
  rewrite delete_keyword_world.
  destruct (select_term_by_id (id r) (store w)) as [t0|] eqn:Hsel.
  - cbn [snd store]. unfold terms_of. simpl.
    rewrite !list_elem_of_fmap. split.
    + intros (r' & -> & [Hid Hr']%list_elem_of_filter). split; [by exists r'|].
      intros Ht. destruct Hid. f_equal.
      by eapply (NoDup_fmap_eq term).
    + intros [(r' & -> & Hr') Ht]. exists r'. split; [done|].
      apply list_elem_of_filter. split; [|done]. intros Hid. destruct Ht.
      f_equal. by eapply (NoDup_fmap_eq id).
  - apply select_term_none in Hsel. destruct Hsel.
    by apply list_elem_of_fmap_2.
Qed.

(** X18. The rows of the options page. An empty keywords table gives
    the placeholder row. Otherwise there is one row for each keyword,
    with the keyword's id in the hidden field, in the order in which a
    cycle searches the terms. Whatever the terms are, the markup is the
    same: each row adds as many angle brackets and quotes as a row with
    an empty term does, 11 opening brackets among them. And the id in a
    row deletes that row's keyword and no other. *)
Theorem index_rows_escape_terms :
  ∀ db,
    (keywords db = [] →
     index_rows_html db =
       lit "<tr><td colspan='2' class='muted'>No keywords yet.</td></tr>") ∧
    (keywords db ≠ [] →
     index_rows_html db = mjoin (index_row <$> select_id_term db)) ∧
    (select_id_term db).*2 = select_terms db ∧
    (∀ kid t, (kid, t) ∈ select_id_term db ↔
              ∃ r, r ∈ keywords db ∧ id r = kid ∧ term r = t) ∧
    (keywords db ≠ [] →
     ∀ c, markup c →
       occurrences c (index_rows_html db) =
         (length (keywords db) * occurrences c (index_row (0%N, [])))%nat) ∧
    (keywords db ≠ [] →
     occurrences 60 (index_rows_html db) = (length (keywords db) * 11)%nat) ∧
    (∀ kid t tr,
       keywords_ok db → (kid, t) ∈ select_id_term db →
       ∀ t', t' ∈ terms_of (store (delete_keyword kid (World db tr)).2) ↔
             t' ∈ terms_of db ∧ t' ≠ t).
Proof.
  intros db. split_and!.
  - intros Hk. unfold index_rows_html, select_id_term. by rewrite Hk.
  - apply index_rows_join.
  - apply select_id_term_order.
  - apply select_id_term_elem.
  - intros Hk c Hc.
    by rewrite index_rows_join, occurrences_rows, select_id_term_length.
  - intros Hk.
    rewrite index_rows_join, occurrences_rows, select_id_term_length
      by (done || unfold markup; auto).
    done.
  - intros kid t tr Hok Hin. by apply (delete_listed_keyword kid t (World db tr)).
Qed.

(** X18 on a table whose only keyword is a script tag. *)
Lemma index_rows_escape_terms_witness :
  occurrences 60
    (index_rows_html
       (store (add_keyword Scenario.clock (lit "<script>alert(1)</script>")
                 Scenario.w0).2)) =
    (length (keywords
               (store (add_keyword Scenario.clock
                         (lit "<script>alert(1)</script>")
                         Scenario.w0).2)) * 11)%nat.
Proof.
  refine (proj1 (proj2 (proj2 (proj2 (proj2 (proj2
            (index_rows_escape_terms _)))))) _).
  vm_compute. discriminate.
Defined.

(** ** Health *)

Lemma health_status U S :
  (health U S).2 = (if truthy U && truthy S then 200 else 503).
Proof. by destruct U, S. Qed.

(** X19. [health] answers 200 or 503, and 200 exactly when neither
    configuration value is empty or blank; the body starts with OK
    exactly then. When it answers 200 the webhook is configured: the
    notifier makes its post. When the webhook value is empty or blank it
    answers 503, and a cycle then returns 0 and stores nothing. *)
Theorem health_reports_configuration :
  ∀ url_env key_env,
    let U := strip url_env in
    let S := strip key_env in
    ((health U S).2 = 200 ↔ ¬ blank url_env ∧ ¬ blank key_env) ∧
    ((health U S).2 = 503 ↔ blank url_env ∨ blank key_env) ∧
    (head (split_on 10 (health U S).1) = Some (lit "OK") ↔
       (health U S).2 = 200) ∧
    length (split_on 10 (health U S).1) = 3%nat ∧
    ((health U S).2 = 200 →
     ∀ post kw p w,
       (send_to_discord U post kw p w).2 =
         World (store w)
           (trace w ++
              [EvPost U (discord_content kw p)
                 (post (length (trace w)) U (discord_content kw p))])) ∧
    (blank url_env →
     (health U S).2 = 503 ∧
     ∀ LIMIT search post clock w,
       (run_cycle U LIMIT search post clock w).1 = Ok 0%nat ∧
       seen_papers (store (run_cycle U LIMIT search post clock w).2) =
         seen_papers (store w)).
Proof.
  intros url_env key_env U S.
  assert (HU : truthy U = true ↔ ¬ blank url_env).
  { rewrite truthy_true. subst U. by rewrite strip_nil_blank. }
  assert (HS : truthy S = true ↔ ¬ blank key_env).
  { rewrite truthy_true. subst S. by rewrite strip_nil_blank. }
  assert (HU' : truthy U = false ↔ blank url_env).
  { rewrite truthy_nil. subst U. by rewrite strip_nil_blank. }
  assert (HS' : truthy S = false ↔ blank key_env).
  { rewrite truthy_nil. subst S. by rewrite strip_nil_blank. }
  split_and!.
  - rewrite health_status, <-HU, <-HS.
    destruct (truthy U), (truthy S); simpl; split; (done || tauto || lia).
  - rewrite health_status, <-HU', <-HS'.
    destruct (truthy U), (truthy S); simpl; split; (done || tauto || lia).
  - rewrite health_status. unfold health.
    destruct (truthy U), (truthy S); vm_compute; split; done.
  - unfold health. by destruct (truthy U), (truthy S).
  - rewrite health_status. intros Hok post kw p w.
    assert (Hne : U ≠ []).
    { apply truthy_true. by destruct (truthy U). }
    rewrite send_configured by done.
    generalize (post (length (trace w)) U (discord_content kw p)).
    intros r. unfold raise_for_status.
    destruct r as [status|]; [|done].
    by destruct ((400 <=? status) && (status <? 600)).
  - intros Hb. apply HU' in Hb. split.
    + rewrite health_status. by rewrite Hb.
    + intros LIMIT search post clock w. apply truthy_nil in Hb. rewrite Hb.
      destruct (unconfigured_cycle_result LIMIT search post clock w)
        as (H1 & H2). done.
Qed.

(** X19 on a blank webhook value, and on both values set. *)
Lemma health_reports_configuration_witness :
  (health (strip (lit "  ")) (strip (lit "key"))).2 = 503 ∧
  (health (strip (lit " https://discord.example/hook"))
     (strip (lit "key"))).2 = 200.
Proof.
  split.
  - pose proof (health_reports_configuration (lit "  ") (lit "key")) as H.
    cbv zeta in H. destruct H as (_ & _ & _ & _ & _ & H).
    apply H. apply (bool_decide_unpack _). vm_compute. exact I.
  - pose proof (health_reports_configuration
                  (lit " https://discord.example/hook") (lit "key")) as H.
    cbv zeta in H. destruct H as (H & _).
    apply H. apply (bool_decide_unpack _). vm_compute. exact I.
Defined.

(** ** The calls of a cycle, counted *)

Lemma posts_app evs1 evs2 : posts (evs1 ++ evs2) = (posts evs1 + posts evs2)%nat.
Proof.
  induction evs1 as [|[] evs1 IH]; simpl; by rewrite ?IH.
Qed.

Lemma sleeps_app evs1 evs2 :
  sleeps (evs1 ++ evs2) = (sleeps evs1 + sleeps evs2)%nat.
Proof.
  induction evs1 as [|[] evs1 IH]; simpl; by rewrite ?IH.
Qed.

Lemma posts_le_length evs : (posts evs ≤ length evs)%nat.
Proof. induction evs as [|[] evs IH]; simpl; lia. Qed.

Lemma row_events_sleeps kw evs : Forall (row_event kw) evs → sleeps evs = 0%nat.
Proof. induction 1 as [|[] evs Hev _ IH]; simpl in *; done. Qed.

Lemma send_trace URL post kw p w r w' :
  send_to_discord URL post kw p w = (r, w') →
  ∃ evs, trace w' = trace w ++ evs ∧ (length evs ≤ 1)%nat.
Proof.
  destruct (decide (URL = [])) as [Hu|Hu].
  - rewrite send_unconfigured by done. intros [= <- <-].
    exists []. split; [by rewrite app_nil_r|simpl; lia].
  - rewrite send_configured by done.
    set (c := discord_content kw p).
    set (o := post _ _ _).
    destruct (post_ok o) eqn:Ho.
    + rewrite raise_for_status_ok by done. intros [= <- <-].
      exists [EvPost URL c o]. split; [done|simpl; lia].
    + destruct (raise_for_status_fail o
        (World (store w) (trace w ++ [EvPost URL c o])) Ho) as (e & -> & _).
      intros [= <- <-]. exists [EvPost URL c o]. split; [done|simpl; lia].
Qed.

Lemma row_posts URL post clock kw p n w r w' :
  process_row URL post clock kw p n w = (r, w') →
  ∃ evs, trace w' = trace w ++ evs ∧ (posts evs ≤ 1)%nat.
Proof.
  destruct (fp_of p) as [fp|] eqn:Hfp.
  2:{ rewrite row_unencodable by done. intros [= <- <-].
      exists []. split; [by rewrite app_nil_r|simpl; lia]. }
  destruct (decide (has_seen kw fp (store w))) as [Hs|Hs].
  { rewrite (row_seen _ _ _ _ _ _ _ fp) by done. intros [= <- <-].
    exists [EvInsert kw fp false]. split; [done|simpl; lia]. }
  destruct (claim_fresh kw fp p (clock (length (trace w))) (store w) Hs)
    as (db' & Hi & _).
  destruct (send_to_discord URL post kw p
              (World db' (trace w ++ [EvInsert kw fp true])))
    as [[[]|e] w2] eqn:Hsend;
    pose proof Hsend as (evs & Htr & Hlen)%send_trace; simpl in Htr;
    pose proof (posts_le_length evs).
  - rewrite (row_delivered _ _ _ _ _ _ _ fp db' w2) by done.
    intros [= <- <-]. exists (EvInsert kw fp true :: evs).
    rewrite Htr, <-app_assoc. split; [done|]. simpl. lia.
  - rewrite (row_rollback _ _ _ _ _ _ _ fp db' e w2) by done.
    intros [= <- <-]. exists (EvInsert kw fp true :: evs ++ [EvDelete kw fp]).
    cbn [trace]. rewrite Htr, <-!app_assoc. split; [done|].
    simpl. rewrite posts_app. simpl. lia.
Qed.

Lemma rows_posts URL post clock kw ps n w r w' :
  process_rows URL post clock kw ps n w = (r, w') →
  ∃ evs, trace w' = trace w ++ evs ∧ (posts evs ≤ length ps)%nat.
Proof.
  revert n w. induction ps as [|p ps IH]; intros n w.
  - rewrite rows_nil. intros [= <- <-]. exists [].
    split; [by rewrite app_nil_r|simpl; lia].
  - rewrite rows_cons.
    destruct (process_row URL post clock kw p n w) as [[m|e] w1] eqn:Hrow;
      apply row_posts in Hrow as (evs1 & Ht1 & Hp1).
    + intros (evs2 & Ht2 & Hp2)%IH. exists (evs1 ++ evs2).
      rewrite Ht2, Ht1, app_assoc, posts_app. split; [done|]. simpl. lia.
    + intros [= <- <-]. exists evs1. split; [done|]. simpl. lia.
Qed.

Lemma keyword_pace URL LIMIT search post clock kw w r w' :
  process_keyword URL LIMIT search post clock kw w = (r, w') →
  ∃ evs, trace w' = trace w ++ EvSearch kw :: evs ∧
    Forall (row_event kw) evs ∧
    (posts evs ≤ Z.to_nat LIMIT)%nat.
Proof.
  intros Hk. pose proof Hk as (evs & Hstep & _)%keyword_summary.
  destruct Hstep as (Ht & Hev & _). simpl in Ht.
  exists evs. rewrite Ht, <-app_assoc. split_and!; [done..|].
  rewrite keyword_unfold, fetch_unfold in Hk.
  destruct (search (length (trace w)) kw) as [s|e].
  - destruct (take_pubs (Z.to_nat LIMIT) s []) as [ps|e] eqn:Htake.
    + apply rows_posts in Hk as (evs' & Ht' & Hp). simpl in Ht'.
      rewrite Ht in Ht'. apply app_inv_head in Ht' as <-.
      apply take_pubs_length in Htake. lia.
    + injection Hk as _ <-. simpl in Ht.
      rewrite <-(app_nil_r (trace w ++ _)) in Ht at 1.
      apply app_inv_head in Ht as <-. simpl. lia.
  - injection Hk as _ <-. simpl in Ht.
    rewrite <-(app_nil_r (trace w ++ _)) in Ht at 1.
    apply app_inv_head in Ht as <-. simpl. lia.
Qed.

Lemma terms_pace URL LIMIT search post clock ts n w r w' :
  run_terms URL LIMIT search post clock ts n w = (r, w') →
  ∃ evs, trace w' = trace w ++ evs ∧
    keyword_segments LIMIT ts evs ∧
    (posts evs ≤ length ts * Z.to_nat LIMIT)%nat ∧
    (sleeps evs + length (failed_terms evs))%nat = length ts ∧
    Forall (λ ev, ∀ k, ev ≠ EvPrint (LogNewPapers k)) evs.
Proof.
  revert n w. induction ts as [|t ts IH]; intros n w.
  - rewrite terms_nil. intros [= <- <-]. exists [].
    rewrite app_nil_r. split_and!; [done|done|simpl; lia|done|constructor].
  - rewrite terms_cons.
    destruct (process_keyword URL LIMIT search post clock t w)
      as [[k|e] w1] eqn:Hkw;
      apply keyword_pace in Hkw as (evs1 & Ht1 & Hev1 & Hp1);
      intros (evs2 & Ht2 & Hseg2 & Hp2 & Hs2 & Hn2)%IH; simpl in Ht2;
      pose proof (row_events_sleeps _ _ Hev1) as Hsl;
      pose proof (row_events_failed _ _ Hev1) as Hfl;
      assert (Hnew : Forall (λ ev, ∀ k, ev ≠ EvPrint (LogNewPapers k)) evs1)
        by (eapply Forall_impl; [exact Hev1|]; by intros [] ? ?).
    + exists (EvSearch t :: evs1 ++ EvSleep :: evs2).
      rewrite Ht2, Ht1, <-!app_assoc. split_and!.
      * done.
      * exists evs1, EvSleep, evs2. split_and!; [done..|by left|done].
      * simpl. rewrite posts_app. simpl. lia.
      * simpl. rewrite sleeps_app, failed_terms_app, Hsl, Hfl. simpl. lia.
      * constructor; [done|]. apply Forall_app. split; [done|].
        by constructor.
    + exists (EvSearch t :: evs1 ++ EvPrint (error_line t e) :: evs2).
      rewrite Ht2, Ht1, <-!app_assoc. split_and!.
      * done.
      * exists evs1, (EvPrint (error_line t e)), evs2.
        split_and!; [done..| |done]. right. by exists e.
      * simpl. rewrite posts_app. simpl. lia.
      * cbn [sleeps failed_terms].
        rewrite sleeps_app, failed_terms_app, Hsl, Hfl, failed_terms_error.
        simpl. lia.
      * constructor; [done|]. apply Forall_app. split; [done|].
        constructor; [|done]. intros k0. unfold error_line.
        by destruct (is_HTTPError e).
Qed.

Lemma terms_returns URL LIMIT search post clock ts n w :
  ∃ m w' evs,
    run_terms URL LIMIT search post clock ts n w = (Ok m, w') ∧
    trace w' = trace w ++ evs.
Proof.
  destruct (run_terms URL LIMIT search post clock ts n w) as [r w'] eqn:Hl.
  apply terms_summary in Hl as (evs & Hstep & -> & _).
  destruct Hstep as (Ht & _). by eexists _, w', evs.
Qed.

(** The keyword behind [pre] in the loop: it starts in the world the
    keywords before it left and ends in the sleep or in its error
    line. *)
Lemma terms_keyword URL LIMIT search post clock pre t n w :
  ∃ m wt seg,
    run_terms URL LIMIT search post clock pre n w = (Ok m, wt) ∧
    trace (process_keyword URL LIMIT search post clock t wt).2 =
      trace wt ++ EvSearch t :: seg ∧
    Forall (row_event t) seg ∧
    (posts seg ≤ Z.to_nat LIMIT)%nat ∧
    run_terms URL LIMIT search post clock (pre ++ [t]) n w =
      match process_keyword URL LIMIT search post clock t wt with
      | (Ok k, w1) =>
          (Ok (m + k)%nat, World (store w1) (trace w1 ++ [EvSleep]))
      | (Raise e, w1) =>
          (Ok m, World (store w1) (trace w1 ++ [EvPrint (error_line t e)]))
      end.
Proof.
  destruct (terms_returns URL LIMIT search post clock pre n w)
    as (m & wt & evs & Hpre & _).
  destruct (process_keyword URL LIMIT search post clock t wt)
    as [r w1] eqn:Hkw.
  pose proof Hkw as (seg & Ht & Hev & Hp)%keyword_pace.
  exists m, wt, seg. rewrite Hkw. simpl. split_and!; [done|done|done|done|].
  rewrite terms_app, Hpre, terms_cons, Hkw.
  destruct r; by rewrite terms_nil.
Qed.

(** X20. The calls of a cycle, keyword by keyword. [run_cycle] always
    returns. Its trace is, for each registered term in the order of the
    terms, the search for the term, then events of the candidate loop
    of that term only, with at most [PER_KEYWORD_LIMIT] posts among
    them (none when the limit is not positive), then exactly one
    closing event: the sleep when [process_keyword] returned, the error
    line for the term, and no sleep, when it raised. So a cycle makes
    one search per keyword, and sleeps and error lines together are as
    many as the keywords. The line with the number of new papers comes
    behind all this, printed exactly when the number is positive. *)
Theorem cycle_call_counts :
  ∀ URL LIMIT search post clock w,
    (∃ total evs,
       (run_cycle URL LIMIT search post clock w).1 = Ok total ∧
       trace (run_cycle URL LIMIT search post clock w).2 =
         trace w ++ evs ++
           (if (0 <? total)%nat then [EvPrint (LogNewPapers total)] else []) ∧
       keyword_segments LIMIT (select_terms (store w)) evs ∧
       length (searched evs) = length (keywords (store w)) ∧
       (posts evs ≤ length (keywords (store w)) * Z.to_nat LIMIT)%nat ∧
       (sleeps evs + length (failed_terms evs))%nat =
         length (keywords (store w)) ∧
       Forall (λ ev, ∀ k, ev ≠ EvPrint (LogNewPapers k)) evs) ∧
    (∀ pre t post_,
       select_terms (store w) = pre ++ t :: post_ →
       ∃ m wt seg rest,
         run_terms URL LIMIT search post clock pre 0 w = (Ok m, wt) ∧
         trace (process_keyword URL LIMIT search post clock t wt).2 =
           trace wt ++ EvSearch t :: seg ∧
         Forall (row_event t) seg ∧
         (posts seg ≤ Z.to_nat LIMIT)%nat ∧
         run_terms URL LIMIT search post clock (pre ++ [t]) 0 w =
           match process_keyword URL LIMIT search post clock t wt with
           | (Ok k, w1) =>
               (Ok (m + k)%nat, World (store w1) (trace w1 ++ [EvSleep]))
           | (Raise e, w1) =>
               (Ok m,
                World (store w1) (trace w1 ++ [EvPrint (error_line t e)]))
           end ∧
         trace (run_cycle URL LIMIT search post clock w).2 =
           trace (run_terms URL LIMIT search post clock (pre ++ [t]) 0 w).2
             ++ rest).
Proof.
  intros URL LIMIT search post clock w. split.
  - assert (Hlen : length (select_terms (store w)) =
                     length (keywords (store w))).
    { by rewrite select_terms_perm, length_fmap. }
    rewrite cycle_unfold.
    destruct (run_terms URL LIMIT search post clock (select_terms (store w))
                0%nat w) as [r w1] eqn:Hloop.
    pose proof Hloop as (evs0 & Hstep & -> & _)%terms_summary.
    destruct Hstep as (Ht0 & Hsearched & _).
    apply terms_pace in Hloop as (evs & Ht & Hseg & Hp & Hs & Hn).
    rewrite Ht in Ht0. apply app_inv_head in Ht0 as <-.
    rewrite Hlen in Hp, Hs.
    exists (0 + delivered_completed evs 0)%nat, evs. simpl.
    split_and!; [done| |done|by rewrite Hsearched|done..].
    destruct (0 <? _)%nat; simpl; [by rewrite Ht, app_assoc|].
    by rewrite app_nil_r.
  - intros pre t post_ Hsel.
    destruct (terms_keyword URL LIMIT search post clock pre t 0%nat w)
      as (m & wt & seg & Hpre & Htr & Hev & Hp & Hstep).
    destruct (terms_returns URL LIMIT search post clock (pre ++ [t]) 0%nat w)
      as (m1 & w1 & evs1 & Hpt & _).
    destruct (terms_returns URL LIMIT search post clock post_ m1 w1)
      as (m2 & w2 & evs2 & Hpost & Ht2).
    assert (Hall : run_terms URL LIMIT search post clock
                     (select_terms (store w)) 0%nat w = (Ok m2, w2)).
    { rewrite Hsel. change (pre ++ t :: post_) with (pre ++ [t] ++ post_).
      by rewrite app_assoc, terms_app, Hpt. }
    exists m, wt, seg,
      (evs2 ++ if (0 <? m2)%nat then [EvPrint (LogNewPapers m2)] else []).
    split_and!; [done..|].
    rewrite cycle_unfold, Hall, Hpt. simpl.
    destruct (0 <? m2)%nat; simpl; [by rewrite Ht2, app_assoc|].
    by rewrite app_nil_r.
Qed.

(** X20 on the concrete run, at the keyword [gnn] between [bad] and
    [zeta]. *)
Lemma cycle_call_counts_witness :
  ∃ m wt seg rest,
    run_terms Scenario.hook Scenario.limit Scenario.search Scenario.post
      Scenario.clock [Scenario.bad] 0 Scenario.w3 = (Ok m, wt) ∧
    trace (process_keyword Scenario.hook Scenario.limit Scenario.search
             Scenario.post Scenario.clock Scenario.gnn wt).2 =
      trace wt ++ EvSearch Scenario.gnn :: seg ∧
    Forall (row_event Scenario.gnn) seg ∧
    (posts seg ≤ Z.to_nat Scenario.limit)%nat ∧
    run_terms Scenario.hook Scenario.limit Scenario.search Scenario.post
      Scenario.clock ([Scenario.bad] ++ [Scenario.gnn]) 0 Scenario.w3 =
      match process_keyword Scenario.hook Scenario.limit Scenario.search
              Scenario.post Scenario.clock Scenario.gnn wt with
      | (Ok k, w1) =>
          (Ok (m + k)%nat, World (store w1) (trace w1 ++ [EvSleep]))
      | (Raise e, w1) =>
          (Ok m,
           World (store w1)
             (trace w1 ++ [EvPrint (error_line Scenario.gnn e)]))
      end ∧
    trace (run_cycle Scenario.hook Scenario.limit Scenario.search
             Scenario.post Scenario.clock Scenario.w3).2 =
      trace (run_terms Scenario.hook Scenario.limit Scenario.search
               Scenario.post Scenario.clock
               ([Scenario.bad] ++ [Scenario.gnn]) 0 Scenario.w3).2 ++ rest.
Proof.
  apply (proj2 (cycle_call_counts Scenario.hook Scenario.limit
                  Scenario.search Scenario.post Scenario.clock Scenario.w3)
           [Scenario.bad] Scenario.gnn [Scenario.zeta]).
  vm_compute. reflexivity.
Defined.

(** ** The invariants under the two handlers *)

Lemma endpoint_add_world clock t w :
  (Endpoint.add_keyword clock t w).2 = (add_keyword clock t w).2 ∨
  (Endpoint.add_keyword clock t w).2 = w.
Proof.
  destruct (bind_text_cases (strip t)) as [[Hs _]|[Hs _]].
  - left. by rewrite endpoint_add_bound.
  - right. by rewrite endpoint_add_unbound.
Qed.

Lemma endpoint_delete_world kid w :
  (Endpoint.delete_keyword kid w).2 = (delete_keyword (Z.to_N kid) w).2 ∨
  (Endpoint.delete_keyword kid w).2 = w.
Proof.
  rewrite endpoint_delete.
  destruct (bind_int kid) as [[]|e]; [|by right].
  destruct (0 <=? kid)%Z; [by left|by right].
Qed.

(** X21. The invariants of the two tables hold under the two handlers
    on every parameter, those that do not bind included, where the
    handler raises and leaves the database as it is: the invariants of
    the keywords table, UNIQUE(kw_term, fingerprint), and the agreement
    of every stored fingerprint with its row are kept by [add_keyword]
    on any string and by [delete_keyword] on any integer. *)
Theorem handlers_keep_invariants :
  ∀ clock w t kid,
    (keywords_ok (store w) →
     keywords_ok (store (Endpoint.add_keyword clock t w).2) ∧
     keywords_ok (store (Endpoint.delete_keyword kid w).2)) ∧
    (seen_unique (store w) →
     seen_unique (store (Endpoint.add_keyword clock t w).2) ∧
     seen_unique (store (Endpoint.delete_keyword kid w).2)) ∧
    (seen_consistent (store w) →
     seen_consistent (store (Endpoint.add_keyword clock t w).2) ∧
     seen_consistent (store (Endpoint.delete_keyword kid w).2)).
Proof.
  intros clock w t kid.
  destruct (endpoint_add_world clock t w) as [->| ->];
    destruct (endpoint_delete_world kid w) as [->| ->];
    (split_and!; intros H; split; try done).
  all: try by apply add_keyword_ok.
  all: try by apply delete_keyword_unique.
  all: try (destruct (delete_keyword_keywords (Z.to_N kid) w) as (Hsub & Hseq);
            by eapply keywords_ok_sublist).
  all: try (unfold seen_unique, seen_consistent;
            by destruct (add_keyword_seen clock t w) as [_ ->]).
  all: unfold seen_consistent in *;
    destruct (delete_keyword_only_seen (Z.to_N kid) w) as [Hsub _];
    rewrite Forall_forall in H; apply Forall_forall; intros r Hr; apply H;
    by eapply elem_of_sublist.
Qed.

(** X21 on the concrete run: a lone surrogate is added to [w3], then
    an id of 2^63 is deleted. *)
Lemma handlers_keep_invariants_witness :
  seen_unique
    (store (Endpoint.delete_keyword (2 ^ 63)
              (Endpoint.add_keyword Scenario.clock [0xD800]
                 Scenario.w3).2).2).
Proof.
  destruct (handlers_keep_invariants Scenario.clock Scenario.w3 [0xD800] 0)
    as (_ & Hu & _).
  destruct Hu as [Hadd _].
  - apply (bool_decide_unpack _). vm_compute. exact I.
  - destruct (handlers_keep_invariants Scenario.clock
                (Endpoint.add_keyword Scenario.clock [0xD800] Scenario.w3).2
                [] (2 ^ 63)) as (_ & Hu & _).
    exact (proj2 (Hu Hadd)).
Defined.
